(** * VictoriaLogs: OTLP ingestion handler, test tooling and cluster harness

    A shallow embedding of the sources

    - [app/vlinsert/opentelemetry]: [RequestHandler], [handleProtobuf],
      [pushProtobufRequest];
    - [apptest/model.go]: [NewLogsQLQueryResponse], the request options
      and [addNonEmpty];
    - [apptest] (app.go, vlsingle.go, vlcluster.go): [setDefaultFlags],
      [mustStartApp], [mustStartVlnode], [MustStartVlsingle],
      [MustStartVlcluster], [Stop], [processOutput] and the HTTP helpers;
    - [scripts/extract-pipes.ts]: [slugify], [inferValueFromTitle],
      [fallbackValueFromId] and the entries of the pipe list;

    followed by the properties established about them. *)

From Stdlib Require Import String Ascii List ZArith Lia Bool Arith.
From Stdlib Require Import DecimalString Permutation.
From stdpp Require gmap strings.
From Equations Require Import Equations.
Import ListNotations.

#[local] Open Scope string_scope.
#[local] Open Scope list_scope.

(** ** Go runtime helpers shared by the packages *)

(** [strings.HasPrefix(s, prefix)]: [s] begins with [prefix]. *)
Fixpoint HasPrefix (s prefix : string) {struct prefix} : bool :=
  match prefix, s with
  | EmptyString, _ => true
  | String _ _, EmptyString => false
  | String p prefix', String a s' => Ascii.eqb a p && HasPrefix s' prefix'
  end.

(** [strings.IndexByte(s, c)]: the index of the first [c] in [s]; Go's [-1]
    is [None]. *)
Fixpoint IndexByte (s : string) (c : ascii) : option nat :=
  match s with
  | EmptyString => None
  | String a rest =>
      if Ascii.eqb a c then Some 0
      else match IndexByte rest c with
           | Some n => Some (S n)
           | None => None
           end
  end.

(** [slices.Contains(xs, x)] on strings. *)
Definition Contains (xs : list string) (x : string) : bool :=
  existsb (String.eqb x) xs.

(** [strings.Join(elems, sep)]. *)
Definition Join (elems : list string) (sep : string) : string :=
  String.concat sep elems.

(** The [%d] verb of [fmt] on an integer. *)
Definition itoa (z : Z) : string := NilZero.string_of_int (Z.to_int z).

(** ** Package apptest: flags and process start-up *)

Module Apptest.

(** The values [setDefaultFlags] panics with; each stands for the message
    the source formats with [%q]. *)
Inductive panic : Type :=
| BUG_flag_must_start_with_minus (f : string)
| BUG_cannot_find_eq_in_the_flag (f : string)
| BUG_default_flag_name_must_start_with_minus (name : string)
| index_out_of_range.

Inductive Outcome (A : Type) : Type :=
| Ret (a : A)
| Panic (p : panic).
Arguments Ret {A} a.
Arguments Panic {A} p.

(** First loop of [setDefaultFlags]: every flag is checked and its name
    [f[:n]] appended to [flagNames]. *)
Fixpoint collectFlagNames (flags flagNames : list string) : Outcome (list string) :=
  match flags with
  | [] => Ret flagNames
  | f :: rest =>
      if negb (HasPrefix f "-") then Panic (BUG_flag_must_start_with_minus f)
      else match IndexByte f "="%char with
           | None => Panic (BUG_cannot_find_eq_in_the_flag f)
           | Some n =>
               let flagName := substring 0 n f in
               collectFlagNames rest (flagNames ++ [flagName])
           end
  end.

(** Second loop of [setDefaultFlags].  [defaultFlags] lists the entries of
    the Go map in the order in which [range] happens to visit them. *)
Fixpoint appendDefaultFlags (defaultFlags : list (string * string))
  (flagNames flags : list string) : Outcome (list string) :=
  match defaultFlags with
  | [] => Ret flags
  | (name, value) :: rest =>
      if negb (HasPrefix name "-")
      then Panic (BUG_default_flag_name_must_start_with_minus name)
      else if negb (Contains flagNames name)
           then appendDefaultFlags rest flagNames (flags ++ [(name ++ "=" ++ value)%string])
           else appendDefaultFlags rest flagNames flags
  end.

(** [setDefaultFlags] adds flags with default values to [flags] if it does
    not initially contain them. *)
Definition setDefaultFlags (flags : list string)
  (defaultFlags : list (string * string)) : Outcome (list string) :=
  match collectFlagNames flags [] with
  | Panic p => Panic p
  | Ret flagNames => appendDefaultFlags defaultFlags flagNames flags
  end.

(** *** Starting processes

    The harness starts the binary [../../bin/victoria-logs] and reads what
    it needs from the log of the started process.  The operating system is
    a record of oracles: the temporary directory, the clock, what a started
    process logs, and the order in which [range] walks a map. *)

(** The regular expressions applied to the log of a started process. *)
Inductive ExtractRE : Type :=
| httpListenAddrRE        (* the address after "started server at http://" *)
| logsStorageDataPathRE.  (* the path after "opening storage at -storageDataPath=" *)

Record OS : Type := {
  TempDir : string;
  (* [time.Now().UnixNano()] read when [k] processes have been started *)
  UnixNano : nat -> Z;
  (* [spawn k binary flags]: [None] when the process cannot be started,
     otherwise what each regular expression extracts from its log, [None]
     for an expression that finds nothing before the timeout *)
  spawn : nat -> string -> list string -> option (ExtractRE -> option string);
  (* the order in which [range] visits the entries of a map literal *)
  rangeOrder : list (string * string) -> list (string * string);
  rangeOrder_perm : forall m, Permutation (rangeOrder m) m
}.

(** [app] represents an instance of some VictoriaLogs server; the process
    handle is its position in [started]. *)
Record app : Type := {
  instance : string;
  binary : string;
  flags : list string
}.

(** [vlnode] with its embedded [ServesMetrics] ([cli] is the caller's client,
    handed through unchanged). *)
Record vlnode : Type := {
  node_app : app;
  metricsURL : string;
  httpListenAddr : string
}.

Record Vlsingle : Type := {
  node : vlnode;
  storageDataPath : string
}.

Record Vlcluster : Type := {
  storageNodes : list Vlsingle;
  insertNode : vlnode;
  selectNode : vlnode
}.

(** How a helper ends a test: a panic, or [t.Fatalf]. *)
Inductive failure : Type :=
| Panicked (p : panic)
| Fatalf_cannot_start (instance binary : string) (flags : list string)
| Fatalf_cannot_extract (extractREs : list ExtractRE) (instance binary : string)
    (flags : list string).

(** The processes started so far, oldest first. *)
Record TestState : Type := { started : list app }.

Definition T (A : Type) : Type := TestState -> failure + (A * TestState).

Definition ret {A} (a : A) : T A := fun st => inr (a, st).

Definition bind {A B} (m : T A) (f : A -> T B) : T B :=
  fun st => match m st with
            | inl e => inl e
            | inr (a, st') => f a st'
            end.

Definition fail {A} (e : failure) : T A := fun _ => inl e.

Definition lift {A} (o : Outcome A) : T A :=
  match o with
  | Ret a => ret a
  | Panic p => fail (Panicked p)
  end.

Declare Scope test_scope.
Delimit Scope test_scope with test.
Notation "x <- m ;; k" := (bind m (fun x => k))
  (at level 100, m at next level, right associativity) : test_scope.
Notation "' p <- m ;; k" := (bind m (fun p => k))
  (at level 100, p pattern, m at next level, right associativity) : test_scope.
#[local] Open Scope test_scope.

(** [extractREMatches]: the extracts in the order of the expressions, or an
    error when one of them is not found before the timeout. *)
Fixpoint extractREMatches (log : ExtractRE -> option string)
  (reExtractors : list ExtractRE) : option (list string) :=
  match reExtractors with
  | [] => Some []
  | re :: rest =>
      match log re, extractREMatches log rest with
      | Some x, Some xs => Some (x :: xs)
      | _, _ => None
      end
  end.

(** [mustStartApp] starts an instance of an app using the app binary file
    path and flags.  [spawn] answering [None] stands for any of the three
    ways the source fails before the process runs (no stdout pipe, no
    stderr pipe, [cmd.Start] failing). *)
Definition mustStartApp (os : OS) (instance binary : string)
  (flags : list string) (extractREs : list ExtractRE) : T (app * list string) :=
  fun st =>
    match spawn os (length (started st)) binary flags with
    | None => inl (Fatalf_cannot_start instance binary flags)
    | Some log =>
        let app := {| instance := instance; binary := binary; flags := flags |} in
        match extractREMatches log extractREs with
        | None => inl (Fatalf_cannot_extract extractREs instance binary flags)
        | Some extracts => inr ((app, extracts), {| started := started st ++ [app] |})
        end
    end.

Definition mustStartVlnode (os : OS) (instance : string) (flags : list string)
  (extraExtractREs : list ExtractRE) : T (vlnode * list string) :=
  let extractREs := [httpListenAddrRE] ++ extraExtractREs in
  flags <- lift (setDefaultFlags flags
                   [("-httpListenAddr", "127.0.0.1:0")]) ;;
  '(app, extracts) <- mustStartApp os instance "../../bin/victoria-logs" flags extractREs ;;
  match extracts with
  | [] => fail (Panicked index_out_of_range)
  | extracts0 :: extracts1 =>
      let node := {| node_app := app;
                     metricsURL := ("http://" ++ extracts0 ++ "/metrics")%string;
                     httpListenAddr := extracts0 |} in
      ret (node, extracts1)
  end.

Definition MustStartVlsingle (os : OS) (instance : string) (flags : list string)
  : T Vlsingle :=
  fun st =>
    let storageDataPath :=
      (TempDir os ++ "/" ++ instance ++ "-" ++ itoa (UnixNano os (length (started st))))%string in
    (flags <- lift (setDefaultFlags flags
                      (rangeOrder os [("-storageDataPath", storageDataPath);
                                      ("-retentionPeriod", "100y")])) ;;
     '(node, extracts) <- mustStartVlnode os instance flags [logsStorageDataPathRE] ;;
     match extracts with
     | [] => fail (Panicked index_out_of_range)
     | extracts0 :: _ => ret {| node := node; storageDataPath := extracts0 |}
     end) st.

(** The loop [for i := 0; i < 3; i++] of [MustStartVlcluster], with [k]
    iterations left. *)
Fixpoint startStorageNodes (os : OS) (instance : string)
  (storageFlags : list string) (k i : nat) (storageNodes : list Vlsingle)
  : T (list Vlsingle) :=
  match k with
  | O => ret storageNodes
  | S k' =>
      let storageName := (instance ++ "-storage-" ++ itoa (Z.of_nat i))%string in
      n <- MustStartVlsingle os storageName storageFlags ;;
      startStorageNodes os instance storageFlags k' (S i) (storageNodes ++ [n])
  end.

(** [MustStartVlcluster] starts VictoriaLogs cluster with the given
    [storageFlags] for storage nodes. *)
Definition MustStartVlcluster (os : OS) (instance : string)
  (storageFlags : list string) : T Vlcluster :=
  (* Start storage nodes *)
  storageNodes <- startStorageNodes os instance storageFlags 3 0 [] ;;
  let storageNodeAddrs := map (fun s => httpListenAddr (node s)) storageNodes in
  let storageNodeFlag := ("-storageNode=" ++ Join storageNodeAddrs ",")%string in
  (* Start insert node *)
  let insertName := (instance ++ "-insert")%string in
  let insertFlags := [storageNodeFlag; "-select.disable=true"] in
  '(insertNode, _) <- mustStartVlnode os insertName insertFlags [] ;;
  (* Start select node *)
  let selectName := (instance ++ "-select")%string in
  let selectFlags := [storageNodeFlag; "-insert.disable=true"] in
  '(selectNode, _) <- mustStartVlnode os selectName selectFlags [] ;;
  ret {| storageNodes := storageNodes;
         insertNode := insertNode;
         selectNode := selectNode |}.

End Apptest.


(** ** Package logstorage: what the other packages use of it *)

Module Logstorage.

(** [logstorage.Field]. *)
Record Field : Type := { Name : string; Value : string }.

End Logstorage.

(** ** Package opentelemetry: the OTLP ingestion handler *)

Module Opentelemetry.
Import Logstorage.

(** The part of [insertutil.CommonParams] the handler reads. *)
Record CommonParams : Type := {
  StreamFields : list string;
  MsgFields : list string
}.

(** The part of [http.Request] the handler reads; [Header k] is
    [r.Header.Get(k)]. *)
Record Request : Type := {
  Header : string -> string;
  Body : list Byte.byte
}.

(** The arguments of one call of the [pushLogs] callback. *)
Record DecodedRow : Type := {
  timestamp : Z;
  fields : list Field;
  streamFieldsLen : Z
}.

(** The name of [f] is one of [oldNames]. *)
Definition matches (oldNames : list string) (f : Field) : bool :=
  existsb (String.eqb (Name f)) oldNames.

(** Modelled from the spec: [logstorage.RenameField] is not among the
    sources.  Section 4.3 step 1 says that it renames the field(s) matching
    the given names to the new name.  It receives a slice and returns
    nothing, so the slice keeps its length; the fields that do not match
    keep their place and their content. *)
Definition RenameField_contract
  (RenameField : list Field -> list string -> string -> list Field) : Prop :=
  (forall fields oldNames newName,
      length (RenameField fields oldNames newName) = length fields) /\
  (forall fields oldNames newName i f,
      nth_error fields i = Some f ->
      matches oldNames f = false ->
      nth_error (RenameField fields oldNames newName) i = Some f).

(** What the handler calls and does not define: helpers of [insertutil],
    [protoparserutil] and [logstorage], the decoder [decodeLogsData], and
    the flag [-opentelemetry.maxRequestSize]. *)
Record Collaborators : Type := {
  IsJSONContentType : string -> bool;
  (* [insertutil.GetCommonParams(r)]: the error, or the parameters *)
  GetCommonParams : Request -> string + CommonParams;
  (* [insertutil.CanWriteData()]: [None] is a nil error *)
  CanWriteData : option string;
  maxRequestSize : Z;
  (* the reading half of [protoparserutil.ReadUncompressedData]: the
     error, or the uncompressed body that is handed to the callback *)
  readUncompressed : list Byte.byte -> string -> Z -> string + list Byte.byte;
  (* [decodeLogsData(data, pushLogs)]: the rows it calls [pushLogs] with, in
     order, and the error it returns then *)
  decodeLogsData : list Byte.byte -> list DecodedRow * option string;
  RenameField : list Field -> list string -> string -> list Field;
  RenameField_ok : RenameField_contract RenameField
}.

(** What the handler does to the outside, in order. *)
Inductive Event : Type :=
| requestsProtobufTotal_Inc
| errorsTotal_Inc
| requestProtobufDuration_UpdateDuration
| Call_GetCommonParams
| Call_CanWriteData
| Call_ReadUncompressedData (encoding : string) (maxDataSize : Z)
| NewLogMessageProcessor (protocolName : string) (isStreamMode : bool)
| Call_decodeLogsData (data : list Byte.byte)
| AddRow (timestamp : Z) (fields : list Field) (streamFields : option (list Field))
| MustClose
| Errorf (msg : string).

Inductive Outcome (A : Type) : Type :=
| Returned (a : A)
| RuntimePanic (msg : string).
Arguments Returned {A} a.
Arguments RuntimePanic {A} msg.

(** A computation: the events so far and how it ended. *)
Definition M (A : Type) : Type := (list Event * Outcome A)%type.

Definition ret {A} (a : A) : M A := ([], Returned a).

Definition bind {A B} (m : M A) (k : A -> M B) : M B :=
  match m with
  | (t, Returned a) => let (t', o) := k a in (t ++ t', o)
  | (t, RuntimePanic msg) => (t, RuntimePanic msg)
  end.

Definition emit (e : Event) : M unit := ([e], Returned tt).

Definition panic {A} (msg : string) : M A := ([], RuntimePanic msg).

Definition trace {A} (m : M A) : list Event := fst m.

Declare Scope otel_scope.
Delimit Scope otel_scope with otel.
Notation "x <- m ;; k" := (bind m (fun x => k))
  (at level 100, m at next level, right associativity) : otel_scope.
Notation "m ;; k" := (bind m (fun _ => k))
  (at level 100, right associativity) : otel_scope.
#[local] Open Scope otel_scope.

(** The closure [pushLogs] of [pushProtobufRequest].  Slicing panics when
    [streamFieldsLen] is outside [0 .. len(fields)]; the rename works on the
    elements of [fields] from [streamFieldsLen] on, and [streamFields]
    shares the leading elements. *)
Definition pushLogs (C : Collaborators) (msgFields : list string)
  (useDefaultStreamFields : bool)
  (timestamp : Z) (fields : list Field) (streamFieldsLen : Z) : M unit :=
  if ((0 <=? streamFieldsLen)%Z && (streamFieldsLen <=? Z.of_nat (length fields))%Z)%bool
  then
    let n := Z.to_nat streamFieldsLen in
    let fields := firstn n fields ++ RenameField C (skipn n fields) msgFields "_msg" in
    let streamFields :=
      if useDefaultStreamFields then Some (firstn n fields) else None in
    emit (AddRow timestamp fields streamFields)
  else panic "slice bounds out of range".

(** [decodeLogsData] calling [pushLogs] row after row. *)
Fixpoint forEachRow (pushLogs : Z -> list Field -> Z -> M unit)
  (rows : list DecodedRow) : M unit :=
  match rows with
  | [] => ret tt
  | r :: rest =>
      pushLogs (timestamp r) (fields r) (streamFieldsLen r) ;;
      forEachRow pushLogs rest
  end.

Definition pushProtobufRequest (C : Collaborators) (data : list Byte.byte)
  (msgFields : list string) (useDefaultStreamFields : bool) : M (option string) :=
  let pushLogs := pushLogs C msgFields useDefaultStreamFields in
  let (rows, err) := decodeLogsData C data in
  emit (Call_decodeLogsData data) ;;
  forEachRow pushLogs rows ;;
  match err with
  | Some err =>
      emit errorsTotal_Inc ;;
      ret (Some ("cannot decode LogsData request from "
                   ++ itoa (Z.of_nat (length data)) ++ " bytes: " ++ err)%string)
  | None => ret None
  end.

(** [protoparserutil.ReadUncompressedData]: reads the body and hands the
    uncompressed data to the callback. *)
Definition ReadUncompressedData (C : Collaborators) (body : list Byte.byte)
  (encoding : string) (maxDataSize : Z)
  (callback : list Byte.byte -> M (option string)) : M (option string) :=
  emit (Call_ReadUncompressedData encoding maxDataSize) ;;
  match readUncompressed C body encoding maxDataSize with
  | inl err => ret (Some err)
  | inr data => callback data
  end.

Definition handleProtobuf (C : Collaborators) (r : Request) : M unit :=
  emit requestsProtobufTotal_Inc ;;
  emit Call_GetCommonParams ;;
  match GetCommonParams C r with
  | inl err =>
      emit (Errorf ("cannot parse common params from request: " ++ err)%string)
  | inr cp =>
      emit Call_CanWriteData ;;
      match CanWriteData C with
      | Some err => emit (Errorf err)
      | None =>
          let encoding := Header r "Content-Encoding" in
          err <- ReadUncompressedData C (Body r) encoding (maxRequestSize C)
                   (fun data =>
                      emit (NewLogMessageProcessor "opentelemetry_protobuf" false) ;;
                      let useDefaultStreamFields :=
                        Nat.eqb (length (StreamFields cp)) 0 in
                      err <- pushProtobufRequest C data (MsgFields cp)
                               useDefaultStreamFields ;;
                      emit MustClose ;;
                      ret err) ;;
          match err with
          | Some err =>
              emit (Errorf ("cannot read OpenTelemetry protocol data: " ++ err)%string)
          | None =>
              (* update requestProtobufDuration only for successfully parsed
                 requests *)
              emit requestProtobufDuration_UpdateDuration
          end
      end
  end.

(** [RequestHandler] processes Opentelemetry insert requests. *)
Definition RequestHandler (C : Collaborators) (path : string) (r : Request)
  : M bool :=
  if String.eqb path "/insert/opentelemetry/v1/logs" then
    let ct := Header r "Content-Type" in
    if IsJSONContentType C ct then
      emit (Errorf "json encoding isn't supported for opentelemetry format. Use protobuf encoding") ;;
      ret true
    else
      handleProtobuf C r ;;
      ret true
  else ret false.

(** The rows a computation handed to the log message processor. *)
Definition isAddRow (e : Event) : bool :=
  match e with AddRow _ _ _ => true | _ => false end.

Definition addedRows (t : list Event) : list Event := filter isAddRow t.

End Opentelemetry.


(** ** Package apptest, model.go: the parsed query response *)

Module Model.
Import stdpp.base stdpp.gmap stdpp.strings.

(** [encoding/json] as the helper uses it: [any] is what a decoded JSON
    value is, [Unmarshal] decodes a line into a [map[string]any] and fails
    with [None], [Marshal] encodes such a map. *)
Record JSON : Type := {
  any : Type;
  Unmarshal : string -> option (gmap string any);
  Marshal : gmap string any -> option string
}.

(** The ways [NewLogsQLQueryResponse] calls [t.Fatalf]. *)
Inductive fatal : Type :=
| BUG_unexpected_non_empty_line_with_EOF (logLine : string)
| cannot_parse_log_line (logLine : string)
| cannot_marshal_parsed_logline (logLine : string).

Inductive Outcome (A : Type) : Type :=
| Done (a : A)
| Fatalf (f : fatal).
Arguments Done {A} a.
Arguments Fatalf {A} f.

Definition newline : ascii := "010"%char.

(** [bytes.Buffer.ReadString(delim)]: the data up to and including the
    first [delim], what is left in the buffer, and whether the end was hit
    before a [delim] ([io.EOF]). *)
Fixpoint ReadString (buf : string) (delim : ascii) : string * string * bool :=
  match buf with
  | EmptyString => (EmptyString, EmptyString, true)
  | String a rest =>
      if Ascii.eqb a delim then (String a EmptyString, rest, false)
      else let '(line, rest', eof) := ReadString rest delim in
           (String a line, rest', eof)
  end.

Lemma ReadString_consumes buf delim line rest :
  ReadString buf delim = (line, rest, false) ->
  String.length rest < String.length buf.
Proof.
  revert line rest. induction buf as [|a buf IH]; simpl; intros line rest H.
  - discriminate.
  - destruct (Ascii.eqb a delim).
    + injection H as _ <-. lia.
    + destruct (ReadString buf delim) as [[l r] e] eqn:E.
      injection H as _ <- ->. specialize (IH _ _ eq_refl). lia.
Qed.

Definition inspect {A : Type} (x : A) : { y : A | x = y } := exist _ x eq_refl.

(** The [for] loop of [NewLogsQLQueryResponse] over the buffer [bs], with
    the lines collected so far. *)
Equations? readLogLines (J : JSON) (bs : string) (LogLines : list string)
  : Outcome (list string) by wf (String.length bs) lt :=
  readLogLines J bs LogLines with inspect (ReadString bs newline) := {
    | exist _ (logLine, rest, true) _ :=
        if (0 <? String.length logLine)%nat
        then Fatalf (BUG_unexpected_non_empty_line_with_EOF logLine)
        else Done LogLines;
    | exist _ (logLine, rest, false) H with Unmarshal J logLine := {
        | None := Fatalf (cannot_parse_log_line logLine);
        | Some lv with Marshal J (delete "_stream_id" lv) := {
            | None := Fatalf (cannot_marshal_parsed_logline logLine);
            | Some normalizedLine :=
                readLogLines J rest (LogLines ++ [normalizedLine]) } } }.
Proof. eapply ReadString_consumes; eauto. Qed.

(** [NewLogsQLQueryResponse] creates a new instance of
    [LogsQLQueryResponse] by unmarshalling a json string; the result is its
    [LogLines]. *)
Definition NewLogsQLQueryResponse (J : JSON) (s : string) : Outcome (list string) :=
  if (String.length s =? 0)%nat then Done []
  else readLogLines J s [].

End Model.

(** ** Package apptest: stopping processes *)

Module ApptestStop.
Import Apptest.

(** What the operating system answers when a process is stopped:
    [Signal a] is whether [process.Signal(os.Interrupt)] returns no error,
    [Wait a] whether [process.Wait()] returns none. *)
Record Signals : Type := {
  Signal : app -> bool;
  Wait : app -> bool
}.

(** The two [log.Fatalf] of [app.Stop], which end the test binary. *)
Inductive stopFailure : Type :=
| Could_not_send_SIGINT (instance : string)
| Could_not_wait_for_completion (instance : string).

(** [app.Stop] sends the app process a SIGINT signal and waits until it
    terminates gracefully; [stopped] lists the processes that have
    terminated so far. *)
Definition app_Stop (sg : Signals) (a : app) (stopped : list app)
  : stopFailure + list app :=
  if negb (Signal sg a) then inl (Could_not_send_SIGINT (instance a))
  else if negb (Wait sg a) then inl (Could_not_wait_for_completion (instance a))
  else inr (stopped ++ [a]).

(** [Vlsingle.Stop] stops app. *)
Definition Vlsingle_Stop (sg : Signals) (s : Vlsingle) (stopped : list app)
  : stopFailure + list app :=
  app_Stop sg (node_app (node s)) stopped.

(** The loop [for _, node := range app.storageNodes] of [Vlcluster.Stop]. *)
Fixpoint stopStorageNodes (sg : Signals) (nodes : list Vlsingle)
  (stopped : list app) : stopFailure + list app :=
  match nodes with
  | [] => inr stopped
  | n :: rest =>
      match Vlsingle_Stop sg n stopped with
      | inl e => inl e
      | inr stopped' => stopStorageNodes sg rest stopped'
      end
  end.

(** [Vlcluster.Stop] stops app. *)
Definition Vlcluster_Stop (sg : Signals) (c : Vlcluster) (stopped : list app)
  : stopFailure + list app :=
  match stopStorageNodes sg (storageNodes c) stopped with
  | inl e => inl e
  | inr stopped1 =>
      match app_Stop sg (node_app (insertNode c)) stopped1 with
      | inl e => inl e
      | inr stopped2 => app_Stop sg (node_app (selectNode c)) stopped2
      end
  end.

End ApptestStop.

(** ** Package apptest, model.go: request options *)

Module URL.
Import stdpp.base stdpp.gmap stdpp.strings.

(** [url.Values]: a map from a key to the list of its values. *)
Definition Values : Type := gmap string (list string).

(** [url.Values.Add] adds the value to key; it appends to any existing
    values associated with key. *)
Definition Add (v : Values) (key value : string) : Values :=
  <[key := default [] (v !! key) ++ [value]]> v.

End URL.

Module Opts.
Import stdpp.base stdpp.gmap stdpp.strings.
Import URL.

(** [addNonEmpty]: the loop over the variadic [values]. *)
Fixpoint addNonEmpty (uv : Values) (name : string) (values : list string) : Values :=
  match values with
  | [] => uv
  | value :: rest =>
      addNonEmpty (if negb (String.eqb value "") then Add uv name value else uv) name rest
  end.

(** [QueryOpts] contains params used for querying VictoriaLogs via
    /select/logsq/query. *)
Module QueryOpts.
Record t : Type := {
  Timeout : string;
  Start : string;
  End_ : string;
  Limit : string;
  ExtraFilters : list string
}.

Definition asURLValues (qos : t) : Values :=
  let uv : Values := ∅ in
  let uv := addNonEmpty uv "timeout" [Timeout qos] in
  let uv := addNonEmpty uv "start" [Start qos] in
  let uv := addNonEmpty uv "end" [End_ qos] in
  let uv := addNonEmpty uv "limit" [Limit qos] in
  let uv := addNonEmpty uv "extra_filters" (ExtraFilters qos) in
  uv.
End QueryOpts.

(** [FacetsOpts] contains params used for querying VictoriaLogs via
    /select/logsql/facets. *)
Module FacetsOpts.
Record t : Type := {
  Start : string;
  End_ : string;
  Limit : string;
  MaxValuesPerField : string;
  MaxValueLen : string;
  KeepConstFields : string;
  ExtraFilters : list string
}.

Definition asURLValues (fos : t) : Values :=
  let uv : Values := ∅ in
  let uv := addNonEmpty uv "start" [Start fos] in
  let uv := addNonEmpty uv "end" [End_ fos] in
  let uv := addNonEmpty uv "limit" [Limit fos] in
  let uv := addNonEmpty uv "max_values_per_field" [MaxValuesPerField fos] in
  let uv := addNonEmpty uv "max_value_len" [MaxValueLen fos] in
  let uv := addNonEmpty uv "keep_const_fields" [KeepConstFields fos] in
  let uv := addNonEmpty uv "extra_filters" (ExtraFilters fos) in
  uv.
End FacetsOpts.

(** [StatsQueryOpts] contains params used for querying VictoriaLogs via
    /select/logsq/stats_query. *)
Module StatsQueryOpts.
Record t : Type := {
  Timeout : string;
  Time : string;
  ExtraFilters : list string
}.

Definition asURLValues (qos : t) : Values :=
  let uv : Values := ∅ in
  let uv := addNonEmpty uv "timeout" [Timeout qos] in
  let uv := addNonEmpty uv "time" [Time qos] in
  let uv := addNonEmpty uv "extra_filters" (ExtraFilters qos) in
  uv.
End StatsQueryOpts.

(** [StatsQueryRangeOpts] contains params used for querying VictoriaLogs
    via /select/logsq/stats_query_range. *)
Module StatsQueryRangeOpts.
Record t : Type := {
  Timeout : string;
  Start : string;
  End_ : string;
  Step : string;
  ExtraFilters : list string
}.

Definition asURLValues (qos : t) : Values :=
  let uv : Values := ∅ in
  let uv := addNonEmpty uv "timeout" [Timeout qos] in
  let uv := addNonEmpty uv "start" [Start qos] in
  let uv := addNonEmpty uv "end" [End_ qos] in
  let uv := addNonEmpty uv "step" [Step qos] in
  let uv := addNonEmpty uv "extra_filters" (ExtraFilters qos) in
  uv.
End StatsQueryRangeOpts.

(** [IngestOpts] contains various params used for VictoriaLogs ingesting
    data. *)
Module IngestOpts.
Record t : Type := {
  MessageField : string;
  StreamFields : string;
  TimeField : string
}.

Definition asURLValues (qos : t) : Values :=
  let uv : Values := ∅ in
  let uv := addNonEmpty uv "_time_field" [TimeField qos] in
  let uv := addNonEmpty uv "_stream_fields" [StreamFields qos] in
  let uv := addNonEmpty uv "_msg_field" [MessageField qos] in
  uv.
End IngestOpts.

End Opts.

(** ** Package apptest: the HTTP helpers of [Vlsingle] and [Vlcluster] *)

Module Helpers.
Import Apptest URL Opts.

(** The test client and [url.Values.Encode], which are outside the
    sources: each request is answered with a body and a status code. *)
Record Client : Type := {
  Get : string -> string * Z;
  Post : string -> string -> string -> string * Z;
  PostForm : string -> Values -> string * Z;
  Encode : Values -> string
}.

(** The requests a helper sends. *)
Inductive Call : Type :=
| Call_Get (url : string)
| Call_Post (url contentType data : string)
| Call_PostForm (url : string) (values : Values).

(** How a helper ends the test with [t.Fatalf]. *)
Inductive helperFailure : Type :=
| unexpected_status_code (url : string) (statusCode : Z)
| response_not_parsed (f : Model.fatal).

(** A helper run: the requests it sent, and how it ended. *)
Definition Run (A : Type) : Type := list Call * (helperFailure + A).

Definition StatusOK : Z := 200.

Definition parsed (o : Model.Outcome (list string)) : helperFailure + list string :=
  match o with
  | Model.Done lines => inr lines
  | Model.Fatalf f => inl (response_not_parsed f)
  end.

(** *** vlsingle.go *)

Definition Vlsingle_ForceFlush (cli : Client) (app : Vlsingle) : Run unit :=
  let url := ("http://" ++ httpListenAddr (node app) ++ "/internal/force_flush")%string in
  let '(_, statusCode) := Get cli url in
  ([Call_Get url],
   if negb (statusCode =? StatusOK)%Z then inl (unexpected_status_code url statusCode)
   else inr tt).

Definition Vlsingle_JSONLineWrite (cli : Client) (app : Vlsingle)
  (records : list string) (opts : IngestOpts.t) : Run unit :=
  let data := Join records (String Model.newline "") in
  let url := ("http://" ++ httpListenAddr (node app) ++ "/insert/jsonline")%string in
  let uv := IngestOpts.asURLValues opts in
  let uvs := Encode cli uv in
  let url := if (0 <? String.length uvs)%nat then (url ++ "?" ++ uvs)%string else url in
  let '(_, statusCode) := Post cli url "text/plain" data in
  ([Call_Post url "text/plain" data],
   if negb (statusCode =? StatusOK)%Z then inl (unexpected_status_code url statusCode)
   else inr tt).

Definition Vlsingle_LogsQLQuery (J : Model.JSON) (cli : Client) (app : Vlsingle)
  (query : string) (opts : QueryOpts.t) : Run (list string) :=
  let values := QueryOpts.asURLValues opts in
  let values := Add values "query" query in
  let url := ("http://" ++ httpListenAddr (node app) ++ "/select/logsql/query")%string in
  let '(res, _) := PostForm cli url values in
  ([Call_PostForm url values], parsed (Model.NewLogsQLQueryResponse J res)).

Definition Vlsingle_StatsQueryRaw (cli : Client) (app : Vlsingle)
  (query : string) (opts : StatsQueryOpts.t) : Run (string * Z) :=
  let values := StatsQueryOpts.asURLValues opts in
  let values := Add values "query" query in
  let url := ("http://" ++ httpListenAddr (node app) ++ "/select/logsql/stats_query")%string in
  ([Call_PostForm url values], inr (PostForm cli url values)).

Definition Vlsingle_StatsQueryRangeRaw (cli : Client) (app : Vlsingle)
  (query : string) (opts : StatsQueryRangeOpts.t) : Run (string * Z) :=
  let values := StatsQueryRangeOpts.asURLValues opts in
  let values := Add values "query" query in
  let url :=
    ("http://" ++ httpListenAddr (node app) ++ "/select/logsql/stats_query_range")%string in
  ([Call_PostForm url values], inr (PostForm cli url values)).

(** [HTTPAddr] returns the address at which the process is listening for
    http connections. *)
Definition Vlsingle_HTTPAddr (app : Vlsingle) : string := httpListenAddr (node app).

(** *** vlcluster.go *)

Definition Vlcluster_ForceFlush (cli : Client) (app : Vlcluster) : Run unit :=
  let url := ("http://" ++ httpListenAddr (insertNode app) ++ "/internal/force_flush")%string in
  let '(_, statusCode) := Get cli url in
  ([Call_Get url],
   if negb (statusCode =? StatusOK)%Z then inl (unexpected_status_code url statusCode)
   else inr tt).

Definition Vlcluster_JSONLineWrite (cli : Client) (app : Vlcluster)
  (records : list string) (opts : IngestOpts.t) : Run unit :=
  let data := Join records (String Model.newline "") in
  let url := ("http://" ++ httpListenAddr (insertNode app) ++ "/insert/jsonline")%string in
  let uv := IngestOpts.asURLValues opts in
  let uvs := Encode cli uv in
  let url := if (0 <? String.length uvs)%nat then (url ++ "?" ++ uvs)%string else url in
  let '(_, statusCode) := Post cli url "text/plain" data in
  ([Call_Post url "text/plain" data],
   if negb (statusCode =? StatusOK)%Z then inl (unexpected_status_code url statusCode)
   else inr tt).

Definition Vlcluster_LogsQLQuery (J : Model.JSON) (cli : Client) (app : Vlcluster)
  (query : string) (opts : QueryOpts.t) : Run (list string) :=
  let values := QueryOpts.asURLValues opts in
  let values := Add values "query" query in
  let url := ("http://" ++ httpListenAddr (selectNode app) ++ "/select/logsql/query")%string in
  let '(res, statusCode) := PostForm cli url values in
  ([Call_PostForm url values],
   if negb (statusCode =? StatusOK)%Z then inl (unexpected_status_code url statusCode)
   else parsed (Model.NewLogsQLQueryResponse J res)).

Definition Vlcluster_Facets (cli : Client) (app : Vlcluster)
  (query : string) (opts : FacetsOpts.t) : Run string :=
  let values := FacetsOpts.asURLValues opts in
  let values := Add values "query" query in
  let url := ("http://" ++ httpListenAddr (selectNode app) ++ "/select/logsql/facets")%string in
  let '(res, statusCode) := PostForm cli url values in
  ([Call_PostForm url values],
   if negb (statusCode =? StatusOK)%Z then inl (unexpected_status_code url statusCode)
   else inr res).

End Helpers.

(** ** Package apptest, app.go: the output of a started process *)

Module Output.

(** [lineProcessor] is a function that is applied to the each line of the
    app output; it returns true to indicate that it has completed its work
    and should not be called again.  A processor may keep state between
    calls: its answer is a function of the lines it was applied to before
    and of the line. *)
Definition lineProcessor : Type := list string -> string -> bool.

(** One call of a line processor: its index in [lps] and the line. *)
Definition Invocation : Type := nat * string.

(** The lines the processor with index [i] was applied to, oldest first. *)
Definition history (i : nat) (calls : list Invocation) : list string :=
  map snd (filter (fun c => Nat.eqb (fst c) i) calls).

(** [delete(activeLPs, i)]. *)
Definition delete (activeLPs : list (nat * lineProcessor)) (i : nat)
  : list (nat * lineProcessor) :=
  filter (fun e => negb (Nat.eqb (fst e) i)) activeLPs.

(** The loop [for i, process := range activeLPs] on one line; [entries] are
    the entries of the map in the order in which [range] visits them.  The
    only entry the body deletes is the one it is visiting, so each entry is
    visited. *)
Fixpoint rangeActiveLPs (line : string) (entries activeLPs : list (nat * lineProcessor))
  (calls : list Invocation) : list (nat * lineProcessor) * list Invocation :=
  match entries with
  | [] => (activeLPs, calls)
  | (i, process) :: rest =>
      let done := process (history i calls) line in
      let calls := calls ++ [(i, line)] in
      if done then rangeActiveLPs line rest (delete activeLPs i) calls
      else rangeActiveLPs line rest activeLPs calls
  end.

(** The order in which the [k]-th [range] over the map [activeLPs] visits
    its entries; Go leaves it unspecified. *)
Record MapOrder : Type := {
  visit : nat -> list (nat * lineProcessor) -> list (nat * lineProcessor);
  visit_perm : forall k m, Permutation (visit k m) m
}.

(** The loop [for scanner.Scan()] over the lines of the output, [k] lines
    having been scanned. *)
Fixpoint scanLines (mo : MapOrder) (lines : list string) (k : nat)
  (activeLPs : list (nat * lineProcessor)) (calls : list Invocation)
  : list Invocation :=
  match lines with
  | [] => calls
  | line :: rest =>
      let '(activeLPs, calls) :=
        rangeActiveLPs line (visit mo k activeLPs) activeLPs calls in
      scanLines mo rest (S k) activeLPs calls
  end.

(** [processOutput] invokes a set of processors on each line of app
    output; the result lists the calls it makes. *)
Definition processOutput (mo : MapOrder) (output : list string)
  (lps : list lineProcessor) : list Invocation :=
  let activeLPs := combine (seq 0 (length lps)) lps in
  scanLines mo output 0 activeLPs [].

(** [writeToStderr] is a line processor that writes the line to the
    stderr; it always returns false. *)
Definition writeToStderr : lineProcessor := fun _ _ => false.

End Output.

(** ** scripts/extract-pipes.ts: identifiers of the generated pipe list

    A JavaScript string is modelled as the list of its code units; the
    functions below are exact on strings whose code units are all below
    128, which is what the statements about them assume. *)

Module ExtractPipes.

Definition str : Type := list ascii.

Definition code (c : ascii) : N := N_of_ascii c.

Definition between (lo hi : N) (c : ascii) : bool :=
  ((lo <=? code c) && (code c <=? hi))%N.

(** The white space and line terminators that [trim] removes, among the
    code units below 128: TAB, LF, VT, FF, CR and the space. *)
Definition isWhiteSpace (c : ascii) : bool :=
  between 9 13 c || (code c =? 32)%N.

Fixpoint dropWhile (p : ascii -> bool) (s : str) : str :=
  match s with
  | [] => []
  | c :: rest => if p c then dropWhile p rest else s
  end.

Definition dropWhileEnd (p : ascii -> bool) (s : str) : str :=
  rev (dropWhile p (rev s)).

Definition trimStart (s : str) : str := dropWhile isWhiteSpace s.
Definition trimEnd (s : str) : str := dropWhileEnd isWhiteSpace s.

(** [s.trim()]. *)
Definition trim (s : str) : str := trimEnd (trimStart s).

(** [s.toLowerCase()]: the letters A to Z become a to z. *)
Definition toLowerCase (s : str) : str :=
  map (fun c => if between 65 90 c then ascii_of_N (code c + 32) else c) s.

(** [s.replace(/[class]/g, by)] for a class [p] of single characters. *)
Definition replaceEach (p : ascii -> bool) (by_ : str) (s : str) : str :=
  flat_map (fun c => if p c then by_ else [c]) s.

(** [s.replace(/[class]+/g, by)]: every maximal run of characters of the
    class [p] is replaced by [by]; [inRun] tells that the character before
    was of the class. *)
Fixpoint replaceRuns (p : ascii -> bool) (by_ : str) (inRun : bool) (s : str) : str :=
  match s with
  | [] => []
  | c :: rest =>
      if p c then (if inRun then [] else by_) ++ replaceRuns p by_ true rest
      else c :: replaceRuns p by_ false rest
  end.

(** The class of the one character [a]. *)
Definition isChar (a : ascii) (c : ascii) : bool := Ascii.eqb c a.

(** The class of the second [replace] of [slugify]: backtick, tilde,
    exclamation and question mark, the brackets, the quotes, full stop,
    comma, colon, asterisk and plus. *)
Definition isPunctuation (c : ascii) : bool :=
  existsb (fun n => (code c =? n)%N)
    [96; 126; 33; 63; 40; 41; 91; 93; 123; 125; 39; 34; 46; 44; 58; 42; 43]%N.

(** The class [a-z0-9]. *)
Definition isLowerAlnum (c : ascii) : bool :=
  between 97 122 c || between 48 57 c.

Definition slugify (s : str) : str :=
  let s := trim s in
  let s := toLowerCase s in
  let s := replaceEach (isChar "#") [] s in
  let s := replaceEach isPunctuation [] s in
  let s := replaceEach (isChar "&") (list_ascii_of_string "and") s in
  let s := replaceRuns (fun c => negb (isLowerAlnum c)) ["-"%char] false s in
  dropWhileEnd (isChar "-") (dropWhile (isChar "-") s).

(** The first match of a backtick, one or more characters that are no
    backtick, and a backtick: the characters in between. *)
Fixpoint takeWhile (p : ascii -> bool) (s : str) : str :=
  match s with
  | [] => []
  | c :: rest => if p c then c :: takeWhile p rest else []
  end.

Fixpoint firstInlineCode (s : str) : option str :=
  match s with
  | [] => None
  | c :: rest =>
      if isChar "`" c then
        match takeWhile (fun c => negb (isChar "`" c)) rest,
              dropWhile (fun c => negb (isChar "`" c)) rest with
        | _ :: _ as m1, _ :: _ => Some m1
        | _, _ => firstInlineCode rest
        end
      else firstInlineCode rest
  end.

(** The classes [a-zA-Z_] and [a-zA-Z0-9_]. *)
Definition isIdentStart (c : ascii) : bool :=
  between 97 122 c || between 65 90 c || isChar "_" c.

Definition isIdentChar (c : ascii) : bool :=
  isIdentStart c || between 48 57 c.

Definition isIdentifier (s : str) : bool :=
  match s with
  | [] => false
  | c :: rest => isIdentStart c && forallb isIdentChar rest
  end.

(** [inferValueFromTitle] tries to infer a function name from the title
    by reading the first inline code token. *)
Definition inferValueFromTitle (title : str) : option str :=
  match firstInlineCode title with
  | Some m1 =>
      let candidate := trim m1 in
      if isIdentifier candidate then Some candidate else None
  | None => None
  end.

Fixpoint startsWith (s prefix : str) : bool :=
  match prefix, s with
  | [], _ => true
  | p :: prefix', c :: s' => Ascii.eqb c p && startsWith s' prefix'
  | _ :: _, [] => false
  end.

Definition endsWith (s suffix : str) : bool :=
  startsWith (rev s) (rev suffix).

Fixpoint includes (s sub : str) : bool :=
  startsWith s sub ||
  match s with
  | [] => false
  | _ :: rest => includes rest sub
  end.

(** [fallbackValueFromId]: strip "-pipe" and replace '-' with '_'. *)
Definition fallbackValueFromId (id : str) : str :=
  let suffix := list_ascii_of_string "-pipe" in
  let base := if endsWith id suffix
              then firstn (length id - length suffix) id else id in
  replaceRuns (isChar "-") ["_"%char] false base.

Record PipeEntry : Type := {
  id : str;
  title : str;
  description : str;
  value : str
}.

(** The body of the loop of [extractPipes] over the H3 blocks: the entry
    for a block with the given title and body, or nothing when the block is
    skipped.  [marked] is the Markdown renderer. *)
Definition pipeEntry (marked : str -> str) (curTitle body : str) : option PipeEntry :=
  let cleanTitle := trim (replaceEach (isChar "#") [] curTitle) in
  let id := slugify cleanTitle in
  if negb (endsWith id (list_ascii_of_string "-pipe")) then None
  else if includes id (list_ascii_of_string "conditional") then None
  else
    let description := marked (trimEnd body) in
    let value := match inferValueFromTitle cleanTitle with
                 | Some v => v
                 | None => fallbackValueFromId id
                 end in
    Some {| id := id;
            value := value;
            title := cleanTitle;
            description :=
              list_ascii_of_string "<div class='vm-markdown'>" ++ description ++
              list_ascii_of_string "</div>" |}.

End ExtractPipes.

(** * Properties *)

(** ** [setDefaultFlags] *)

Module ApptestFacts.
Import Apptest.

(** The vocabulary of the statements: a flag starts with ['-'], contains
    ['='], and its name is what stands before the first ['=']. *)
Definition startsWithMinus (f : string) : Prop :=
  exists rest, f = String "-"%char rest.

Definition containsEq (f : string) : Prop :=
  exists n, String.get n f = Some "="%char.

Definition wellFormedFlag (f : string) : Prop :=
  startsWithMinus f /\ containsEq f.

Definition flagName (f : string) : string :=
  match IndexByte f "="%char with
  | Some n => substring 0 n f
  | None => f
  end.

Definition defaultEntry (d : string * string) : string :=
  (fst d ++ "=" ++ snd d)%string.

(** The default flags whose name is not the name of an input flag. *)
Definition missingDefaults (flags : list string)
  (defaultFlags : list (string * string)) : list (string * string) :=
  filter (fun d => negb (Contains (map flagName flags) (fst d))) defaultFlags.

Lemma HasPrefix_minus f : HasPrefix f "-" = true <-> startsWithMinus f.
Proof.
  unfold startsWithMinus. destruct f as [|a f]; cbn [HasPrefix].
  - split; [discriminate | intros [rest H]; discriminate].
  - rewrite andb_true_r, Ascii.eqb_eq.
    split; [intros ->; eauto | intros [rest H]; congruence].
Qed.

Lemma IndexByte_Some s c n : IndexByte s c = Some n -> String.get n s = Some c.
Proof.
  revert n. induction s as [|a s IH]; simpl; intros n H; [discriminate|].
  destruct (Ascii.eqb a c) eqn:E.
  - apply Ascii.eqb_eq in E. injection H as <-. now subst.
  - destruct (IndexByte s c) as [m|]; [|discriminate].
    injection H as <-. simpl. now apply IH.
Qed.

Lemma IndexByte_None s c n : IndexByte s c = None -> String.get n s <> Some c.
Proof.
  revert n. induction s as [|a s IH]; simpl; intros n H; [discriminate|].
  destruct (Ascii.eqb a c) eqn:E; [discriminate|].
  destruct (IndexByte s c) as [m|] eqn:Es; [discriminate|].
  destruct n as [|n].
  - intros [= ->]. now rewrite Ascii.eqb_refl in E.
  - now apply IH.
Qed.

Lemma IndexByte_contains f :
  containsEq f <-> exists n, IndexByte f "="%char = Some n.
Proof.
  split.
  - intros [n Hn]. destruct (IndexByte f "="%char) as [m|] eqn:E; [eauto|].
    exfalso. eapply IndexByte_None; eauto.
  - intros [n Hn]. exists n. now apply IndexByte_Some.
Qed.

Lemma collectFlagNames_wellFormed flags flagNames :
  Forall wellFormedFlag flags ->
  collectFlagNames flags flagNames = Ret (flagNames ++ map flagName flags).
Proof.
  intros H. revert flagNames.
  induction H as [|f flags [Hm He] _ IH]; intros flagNames;
    cbn [collectFlagNames map].
  - now rewrite app_nil_r.
  - apply HasPrefix_minus in Hm. rewrite Hm. cbn [negb].
    apply IndexByte_contains in He. destruct He as [n Hn].
    unfold flagName at 1. rewrite Hn, IH, <- app_assoc. reflexivity.
Qed.

Lemma collectFlagNames_panics flags flagNames :
  Exists (fun f => ~ wellFormedFlag f) flags ->
  exists f, In f flags /\ ~ wellFormedFlag f /\
    (collectFlagNames flags flagNames = Panic (BUG_flag_must_start_with_minus f) \/
     collectFlagNames flags flagNames = Panic (BUG_cannot_find_eq_in_the_flag f)).
Proof.
  revert flagNames. induction flags as [|f flags IH]; intros flagNames H.
  - inversion H.
  - cbn [collectFlagNames]. destruct (HasPrefix f "-") eqn:Hm; cbn [negb].
    + destruct (IndexByte f "="%char) as [n|] eqn:He.
      * assert (Hwf : wellFormedFlag f).
        { split; [now apply HasPrefix_minus | apply IndexByte_contains; eauto]. }
        inversion H as [? ? Hbad | ? ? Hrest]; subst; [contradiction|].
        destruct (IH (flagNames ++ [substring 0 n f]) Hrest) as (g & Hin & Hg & Hp).
        exists g. split; [now right|]. split; assumption.
      * exists f. split; [now left|]. split; [|now right].
        intros [_ Hc]. apply IndexByte_contains in Hc. destruct Hc; congruence.
    + exists f. split; [now left|]. split; [|now left].
      intros [Hs _]. apply HasPrefix_minus in Hs. congruence.
Qed.

Lemma appendDefaultFlags_wellFormed defaultFlags flagNames flags :
  Forall (fun d => startsWithMinus (fst d)) defaultFlags ->
  appendDefaultFlags defaultFlags flagNames flags =
  Ret (flags ++ map defaultEntry
         (filter (fun d => negb (Contains flagNames (fst d))) defaultFlags)).
Proof.
  intros H. revert flags.
  induction H as [|[name value] ds Hm _ IH]; intros flags;
    cbn [appendDefaultFlags filter map fst].
  - now rewrite app_nil_r.
  - apply HasPrefix_minus in Hm. cbn [fst] in Hm. rewrite Hm. cbn [negb].
    destruct (Contains flagNames name); cbn [negb map].
    + apply IH.
    + rewrite IH, <- app_assoc. reflexivity.
Qed.

Lemma appendDefaultFlags_panics defaultFlags flagNames flags :
  Exists (fun d => ~ startsWithMinus (fst d)) defaultFlags ->
  exists name, In name (map fst defaultFlags) /\ ~ startsWithMinus name /\
    appendDefaultFlags defaultFlags flagNames flags =
    Panic (BUG_default_flag_name_must_start_with_minus name).
Proof.
  revert flags. induction defaultFlags as [|[name value] ds IH]; intros flags H.
  - inversion H.
  - cbn [appendDefaultFlags map fst].
    destruct (HasPrefix name "-") eqn:Hm; cbn [negb].
    + assert (Hs : startsWithMinus name) by now apply HasPrefix_minus.
      inversion H as [? ? Hbad | ? ? Hrest]; subst; [contradiction|].
      destruct (Contains flagNames name); cbn [negb].
      * destruct (IH flags Hrest) as (g & Hin & Hg & Hp).
        exists g. split; [now right|]. split; assumption.
      * destruct (IH (flags ++ [(name ++ "=" ++ value)%string]) Hrest)
          as (g & Hin & Hg & Hp).
        exists g. split; [now right|]. split; assumption.
    + exists name. split; [now left|]. split; [|reflexivity].
      intros Hs. apply HasPrefix_minus in Hs. congruence.
Qed.

(** C10, as amended.  When every input flag starts with ['-'] and contains
    ['='] and every default flag name starts with ['-'], [setDefaultFlags]
    returns the input flags unchanged and in order, followed by one
    [name=value] entry for each default flag whose name is not the name of
    an input flag, in the order in which the map is walked.  With
    well-formed input flags, a default flag name without the ['-'] prefix
    makes it panic.  An input flag without the ['-'] prefix or without
    ['='] makes it panic, whatever the defaults are. *)
Theorem setDefaultFlags_spec (flags : list string)
  (defaultFlags : list (string * string)) :
  (Forall wellFormedFlag flags ->
   Forall (fun d => startsWithMinus (fst d)) defaultFlags ->
   setDefaultFlags flags defaultFlags =
   Ret (flags ++ map defaultEntry (missingDefaults flags defaultFlags))) /\
  (Forall wellFormedFlag flags ->
   Exists (fun d => ~ startsWithMinus (fst d)) defaultFlags ->
   exists name, In name (map fst defaultFlags) /\ ~ startsWithMinus name /\
     setDefaultFlags flags defaultFlags =
     Panic (BUG_default_flag_name_must_start_with_minus name)) /\
  (Exists (fun f => ~ wellFormedFlag f) flags ->
   exists f, In f flags /\ ~ wellFormedFlag f /\
     (setDefaultFlags flags defaultFlags = Panic (BUG_flag_must_start_with_minus f) \/
      setDefaultFlags flags defaultFlags = Panic (BUG_cannot_find_eq_in_the_flag f))).
Proof.
  unfold setDefaultFlags, missingDefaults. repeat split.
  - intros Hf Hd. rewrite (collectFlagNames_wellFormed _ _ Hf). simpl.
    now apply appendDefaultFlags_wellFormed.
  - intros Hf Hd. rewrite (collectFlagNames_wellFormed _ _ Hf). simpl.
    now apply appendDefaultFlags_panics.
  - intros Hf. destruct (collectFlagNames_panics flags [] Hf) as (f & Hin & Hbad & [Hp|Hp]);
      exists f; rewrite Hp; auto.
Qed.

(** C10, as stated, fails: a default flag name without the ['-'] prefix
    makes [setDefaultFlags] panic although every input flag is well formed
    (here there is none). *)
Lemma setDefaultFlags_default_name_counterexample :
  setDefaultFlags [] [("x", "1")] =
    Panic (BUG_default_flag_name_must_start_with_minus "x") /\
  ~ (forall flags defaultFlags,
       Forall wellFormedFlag flags ->
       setDefaultFlags flags defaultFlags =
       Ret (flags ++ map defaultEntry (missingDefaults flags defaultFlags))).
Proof.
  split; [reflexivity|].
  intros H. specialize (H [] [("x", "1")] (Forall_nil _)). discriminate H.
Qed.

Lemma setDefaultFlags_spec_witness :
  setDefaultFlags ["-a=1"; "-c=x=y"] [("-a", "2"); ("-b", "3")] =
    Ret ["-a=1"; "-c=x=y"; "-b=3"] /\
  (exists name, In name ["-a"; "b"] /\ ~ startsWithMinus name /\
     setDefaultFlags ["-a=1"] [("-a", "2"); ("b", "3")] =
     Panic (BUG_default_flag_name_must_start_with_minus name)) /\
  (exists f, In f ["-a=1"; "-c"] /\ ~ wellFormedFlag f /\
     (setDefaultFlags ["-a=1"; "-c"] [("-b", "3")] = Panic (BUG_flag_must_start_with_minus f) \/
      setDefaultFlags ["-a=1"; "-c"] [("-b", "3")] = Panic (BUG_cannot_find_eq_in_the_flag f))).
Proof.
  assert (Ha : wellFormedFlag "-a=1")
    by (split; [exists "a=1"; reflexivity | exists 2; reflexivity]).
  assert (Hc : wellFormedFlag "-c=x=y")
    by (split; [exists "c=x=y"; reflexivity | exists 2; reflexivity]).
  split; [|split].
  - apply (proj1 (setDefaultFlags_spec ["-a=1"; "-c=x=y"] [("-a", "2"); ("-b", "3")])).
    + apply Forall_cons; [exact Ha|]. apply Forall_cons; [exact Hc|]. apply Forall_nil.
    + repeat (apply Forall_cons; [eexists; reflexivity|]). apply Forall_nil.
  - apply (proj1 (proj2 (setDefaultFlags_spec ["-a=1"] [("-a", "2"); ("b", "3")]))).
    + apply Forall_cons; [exact Ha|]. apply Forall_nil.
    + apply Exists_cons_tl, Exists_cons_hd. intros [rest H]. discriminate H.
  - apply (proj2 (proj2 (setDefaultFlags_spec ["-a=1"; "-c"] [("-b", "3")]))).
    apply Exists_cons_tl, Exists_cons_hd. intros [_ [n Hn]].
    destruct n as [|[|n]]; discriminate Hn.
Defined.

(** *** Starting the cluster *)

Lemma mustStartApp_inv os inst bin fl res st a extracts st' :
  mustStartApp os inst bin fl res st = inr ((a, extracts), st') ->
  a = {| instance := inst; binary := bin; flags := fl |} /\
  started st' = started st ++ [a].
Proof.
  unfold mustStartApp. destruct (spawn os _ bin fl) as [log|]; [|discriminate].
  destruct (extractREMatches log res); [|discriminate].
  intros [= <- <- <-]. split; reflexivity.
Qed.

Lemma mustStartVlnode_inv os inst fl extra st n extracts st' :
  mustStartVlnode os inst fl extra st = inr ((n, extracts), st') ->
  exists fl',
    setDefaultFlags fl [("-httpListenAddr", "127.0.0.1:0")] = Ret fl' /\
    node_app n = {| instance := inst; binary := "../../bin/victoria-logs"; flags := fl' |} /\
    metricsURL n = ("http://" ++ httpListenAddr n ++ "/metrics")%string /\
    started st' = started st ++ [node_app n].
Proof.
  unfold mustStartVlnode, bind, lift.
  destruct (setDefaultFlags fl _) as [fl'|p]; [|discriminate].
  unfold ret at 1.
  destruct (mustStartApp os inst _ fl' _ st) as [e|[[a ex] st1]] eqn:E; [discriminate|].
  apply mustStartApp_inv in E. destruct E as [-> Hst].
  destruct ex as [|e0 ex]; [discriminate|].
  unfold ret. intros [= <- <- <-]. exists fl'. cbn. auto.
Qed.

Lemma MustStartVlsingle_inv os inst fl st s st' :
  MustStartVlsingle os inst fl st = inr (s, st') ->
  instance (node_app (node s)) = inst /\
  binary (node_app (node s)) = "../../bin/victoria-logs" /\
  started st' = started st ++ [node_app (node s)].
Proof.
  unfold MustStartVlsingle, bind, lift.
  destruct (setDefaultFlags fl _) as [fl'|p]; [|discriminate].
  unfold ret at 1.
  destruct (mustStartVlnode os inst fl' _ st) as [e|[[n ex] st1]] eqn:E; [discriminate|].
  apply mustStartVlnode_inv in E. destruct E as (fl2 & _ & Hn & _ & Hst).
  destruct ex as [|e0 ex]; [discriminate|].
  unfold ret. intros [= <- <-]. cbn [node]. rewrite Hst, Hn. cbn. auto.
Qed.

Lemma startStorageNodes_inv os inst fl k : forall i acc st nodes st',
  startStorageNodes os inst fl k i acc st = inr (nodes, st') ->
  exists new,
    nodes = acc ++ new /\ length new = k /\
    started st' = started st ++ map (fun s => node_app (node s)) new /\
    map (fun s => instance (node_app (node s))) new =
      map (fun j => (inst ++ "-storage-" ++ itoa (Z.of_nat j))%string) (seq i k) /\
    Forall (fun s => binary (node_app (node s)) = "../../bin/victoria-logs") new.
Proof.
  induction k as [|k IH]; intros i acc st nodes st'; cbn [startStorageNodes].
  - unfold ret. intros [= <- <-]. exists []. cbn. rewrite !app_nil_r. auto.
  - unfold bind at 1.
    destruct (MustStartVlsingle os _ fl st) as [e|[s st1]] eqn:E; [discriminate|].
    apply MustStartVlsingle_inv in E. destruct E as (Hi & Hb & Hst).
    intros H. apply IH in H. destruct H as (new & -> & Hlen & Hst' & Hnames & Hbin).
    exists (s :: new). cbn [length map seq]. rewrite <- app_assoc. cbn [List.app].
    repeat split; auto.
    + rewrite Hst', Hst, <- app_assoc. reflexivity.
    + now rewrite Hi, Hnames.
Qed.



(** The flag that names the storage nodes of a cluster: the comma-joined
    list of their addresses. *)
Definition storageNodeFlag (c : Vlcluster) : string :=
  ("-storageNode=" ++ Join (map (fun s => httpListenAddr (node s)) (storageNodes c)) ",")%string.



(** An operating system in which every process starts and logs its listen
    address and data path; it exercises the statement above. *)
Definition os0 : OS :=
  {| TempDir := "/tmp";
     UnixNano := fun k => (1735693200000000000 + Z.of_nat k)%Z;
     spawn := fun k _ _ =>
       Some (fun re => match re with
                       | httpListenAddrRE =>
                           Some ("127.0.0.1:" ++ itoa (8428 + Z.of_nat k))%string
                       | logsStorageDataPathRE => Some "/tmp/victoria-logs-data"
                       end);
     rangeOrder := fun m => m;
     rangeOrder_perm := fun m => Permutation_refl m |}.


End ApptestFacts.

(** ** The OTLP ingestion handler *)

Module OpentelemetryFacts.
Import Logstorage Opentelemetry.
#[local] Open Scope otel_scope.

(** The vocabulary of the statements.  A decoded row is sliceable when its
    [streamFieldsLen] lies in [0 .. len(fields)]; its leading fields are the
    first [streamFieldsLen] ones, the others are the non-stream portion. *)
Definition validRow (r : DecodedRow) : bool :=
  ((0 <=? streamFieldsLen r)%Z &&
   (streamFieldsLen r <=? Z.of_nat (length (fields r)))%Z)%bool.

Definition leadingFields (r : DecodedRow) : list Field :=
  firstn (Z.to_nat (streamFieldsLen r)) (fields r).

Definition otherFields (r : DecodedRow) : list Field :=
  skipn (Z.to_nat (streamFieldsLen r)) (fields r).

(** The call of [lmp.AddRow] that [pushLogs] makes for a decoded row. *)
Definition forwarded (C : Collaborators) (msgFields : list string)
  (useDefaultStreamFields : bool) (r : DecodedRow) : Event :=
  AddRow (timestamp r)
    (leadingFields r ++ RenameField C (otherFields r) msgFields "_msg")
    (if useDefaultStreamFields then Some (leadingFields r) else None).

(** The rows in front of the first one that cannot be sliced. *)
Fixpoint validPrefix (rows : list DecodedRow) : list DecodedRow :=
  match rows with
  | [] => []
  | r :: rest => if validRow r then r :: validPrefix rest else []
  end.

(** The configuration switch of [handleProtobuf]. *)
Definition useDefaultStreamFields (cp : CommonParams) : bool :=
  Nat.eqb (length (StreamFields cp)) 0.

Definition decodeError (data : list Byte.byte) (err : string) : string :=
  ("cannot read OpenTelemetry protocol data: "
     ++ "cannot decode LogsData request from "
     ++ itoa (Z.of_nat (length data)) ++ " bytes: " ++ err)%string.

(** What [handleProtobuf] does once the body has been read into [data] and
    the decoder has pushed [rows] and returned [err]. *)
Definition decodingTrace (C : Collaborators) (r : Request) (cp : CommonParams)
  (data : list Byte.byte) (rows : list DecodedRow) (err : option string)
  : list Event :=
  [requestsProtobufTotal_Inc; Call_GetCommonParams; Call_CanWriteData;
   Call_ReadUncompressedData (Header r "Content-Encoding") (maxRequestSize C);
   NewLogMessageProcessor "opentelemetry_protobuf" false;
   Call_decodeLogsData data]
  ++ map (forwarded C (MsgFields cp) (useDefaultStreamFields cp)) (validPrefix rows)
  ++ (if forallb validRow rows
      then match err with
           | Some e => [errorsTotal_Inc; MustClose; Errorf (decodeError data e)]
           | None => [MustClose; requestProtobufDuration_UpdateDuration]
           end
      else []).

Lemma firstn_firstn_app {A} (n : nat) (l tl : list A) :
  n <= length l -> firstn n (firstn n l ++ tl) = firstn n l.
Proof.
  intros H. rewrite firstn_app, firstn_firstn, Nat.min_id.
  rewrite length_firstn, Nat.min_l by assumption.
  rewrite Nat.sub_diag. cbn. apply app_nil_r.
Qed.

Lemma validRow_bounds r :
  validRow r = true -> Z.to_nat (streamFieldsLen r) <= length (fields r).
Proof. unfold validRow. intros H. apply andb_prop in H. lia. Qed.

Lemma pushLogs_valid C msgFields b r :
  validRow r = true ->
  pushLogs C msgFields b (timestamp r) (fields r) (streamFieldsLen r) =
  ([forwarded C msgFields b r], Returned tt).
Proof.
  intros H. unfold pushLogs. fold (validRow r). rewrite H. cbv zeta.
  rewrite firstn_firstn_app by now apply validRow_bounds. reflexivity.
Qed.

Lemma pushLogs_invalid C msgFields b r :
  validRow r = false ->
  pushLogs C msgFields b (timestamp r) (fields r) (streamFieldsLen r) =
  ([], RuntimePanic "slice bounds out of range").
Proof. intros H. unfold pushLogs. fold (validRow r). now rewrite H. Qed.

Lemma forEachRow_pushLogs C msgFields b rows :
  forEachRow (pushLogs C msgFields b) rows =
  (map (forwarded C msgFields b) (validPrefix rows),
   if forallb validRow rows then Returned tt
   else RuntimePanic "slice bounds out of range").
Proof.
  induction rows as [|r rows IH]; [reflexivity|].
  cbn [forEachRow validPrefix forallb]. destruct (validRow r) eqn:Hr.
  - rewrite pushLogs_valid by assumption. rewrite IH. reflexivity.
  - rewrite pushLogs_invalid by assumption. reflexivity.
Qed.

Lemma handleProtobuf_decoding C r cp data rows err :
  GetCommonParams C r = inr cp ->
  CanWriteData C = None ->
  readUncompressed C (Body r) (Header r "Content-Encoding") (maxRequestSize C) = inr data ->
  decodeLogsData C data = (rows, err) ->
  handleProtobuf C r =
  (decodingTrace C r cp data rows err,
   if forallb validRow rows then Returned tt
   else RuntimePanic "slice bounds out of range").
Proof.
  intros Hcp Hw Hread Hdec.
  unfold handleProtobuf, ReadUncompressedData, pushProtobufRequest, decodingTrace.
  rewrite Hcp, Hw, Hread, Hdec.
  fold (useDefaultStreamFields cp). rewrite forEachRow_pushLogs.
  destruct (forallb validRow rows); [destruct err as [e|]|]; cbn;
    rewrite <- ?app_assoc, ?app_nil_r; reflexivity.
Qed.

Lemma handleProtobuf_bad_params C r err :
  GetCommonParams C r = inl err ->
  handleProtobuf C r =
  ([requestsProtobufTotal_Inc; Call_GetCommonParams;
    Errorf ("cannot parse common params from request: " ++ err)%string],
   Returned tt).
Proof. intros H. unfold handleProtobuf. rewrite H. reflexivity. Qed.

Lemma handleProtobuf_cannot_write C r cp err :
  GetCommonParams C r = inr cp ->
  CanWriteData C = Some err ->
  handleProtobuf C r =
  ([requestsProtobufTotal_Inc; Call_GetCommonParams; Call_CanWriteData; Errorf err],
   Returned tt).
Proof. intros H1 H2. unfold handleProtobuf. rewrite H1, H2. reflexivity. Qed.

Lemma handleProtobuf_read_error C r cp err :
  GetCommonParams C r = inr cp ->
  CanWriteData C = None ->
  readUncompressed C (Body r) (Header r "Content-Encoding") (maxRequestSize C) = inl err ->
  handleProtobuf C r =
  ([requestsProtobufTotal_Inc; Call_GetCommonParams; Call_CanWriteData;
    Call_ReadUncompressedData (Header r "Content-Encoding") (maxRequestSize C);
    Errorf ("cannot read OpenTelemetry protocol data: " ++ err)%string],
   Returned tt).
Proof.
  intros H1 H2 H3. unfold handleProtobuf, ReadUncompressedData.
  rewrite H1, H2, H3. reflexivity.
Qed.

Lemma addedRows_forwarded C msgFields b rows :
  addedRows (map (forwarded C msgFields b) rows) = map (forwarded C msgFields b) rows.
Proof.
  unfold addedRows. induction rows as [|r rows IH]; [reflexivity|].
  cbn. now rewrite IH.
Qed.

Lemma addedRows_decodingTrace C r cp data rows err :
  addedRows (decodingTrace C r cp data rows err) =
  map (forwarded C (MsgFields cp) (useDefaultStreamFields cp)) (validPrefix rows).
Proof.
  unfold decodingTrace, addedRows. rewrite !filter_app.
  fold (addedRows (map (forwarded C (MsgFields cp) (useDefaultStreamFields cp))
                     (validPrefix rows))).
  rewrite addedRows_forwarded.
  destruct (forallb validRow rows); [destruct err|]; cbn; now rewrite app_nil_r.
Qed.

(** *** Collaborators to run the handler on

    These stand in for the absent packages where a statement is exercised
    on a concrete request; the statements themselves hold for every
    [Collaborators]. *)

(** A rename that changes the name of every matching field. *)
Definition renameAll (fields : list Field) (oldNames : list string)
  (newName : string) : list Field :=
  map (fun f => if matches oldNames f
                then {| Name := newName; Value := Value f |} else f) fields.

Lemma renameAll_contract : RenameField_contract renameAll.
Proof.
  split.
  - intros. unfold renameAll. apply length_map.
  - intros fs old new i f Hi Hf. unfold renameAll.
    rewrite nth_error_map, Hi. cbn. now rewrite Hf.
Qed.

(** A toy wire format: every byte is one log record, the zero byte is a
    record that cannot be decoded. *)
Definition exampleRow (b : Byte.byte) : DecodedRow :=
  {| timestamp := Z.of_N (Byte.to_N b);
     fields := [ {| Name := "service.name"; Value := "api" |};
                 {| Name := "body"; Value := "hello" |} ];
     streamFieldsLen := 1 |}.

(** A decoder that pushes every record in front of the corrupt one. *)
Fixpoint streamingDecoder (data : list Byte.byte) : list DecodedRow * option string :=
  match data with
  | [] => ([], None)
  | b :: rest =>
      if Byte.eqb b Byte.x00 then ([], Some "cannot decode log record")
      else let (rows, err) := streamingDecoder rest in (exampleRow b :: rows, err)
  end.

(** A decoder that pushes nothing unless every record decodes. *)
Definition atomicDecoder (data : list Byte.byte) : list DecodedRow * option string :=
  match streamingDecoder data with
  | (_, Some err) => ([], Some err)
  | (rows, None) => (rows, None)
  end.

Definition exampleParams (r : Request) : string + CommonParams :=
  if String.eqb (Header r "AccountID") "" then
    inr {| StreamFields := if String.eqb (Header r "VL-Stream-Fields") "" then []
                           else [Header r "VL-Stream-Fields"];
           MsgFields := ["body"] |}
  else inl "cannot parse AccountID".

Definition exampleCollaborators (canWrite : option string)
  (decoder : list Byte.byte -> list DecodedRow * option string) : Collaborators :=
  {| IsJSONContentType := String.eqb "application/json";
     GetCommonParams := exampleParams;
     CanWriteData := canWrite;
     maxRequestSize := 64 * 1024 * 1024;
     readUncompressed := fun body _ _ => inr body;
     decodeLogsData := decoder;
     RenameField := renameAll;
     RenameField_ok := renameAll_contract |}.

Definition exampleRequest (headers : list (string * string))
  (body : list Byte.byte) : Request :=
  {| Header := fun k =>
       match find (fun h => String.eqb (fst h) k) headers with
       | Some h => snd h
       | None => ""
       end;
     Body := body |}.

(** *** Stream fields (C1) *)

(** C1, as amended.  [useDefaultStreamFields] is true exactly when the
    request configures no stream fields.  For every decoded row the handler
    calls [AddRow] once, in decoding order, with the full field list (the
    leading [streamFieldsLen] fields as decoded, then the renamed rest); the
    leading fields are passed as the row's stream fields when the request
    configures no stream fields, and no stream fields are passed (nil) when
    it configures some. *)
Theorem stream_fields_follow_configuration (C : Collaborators) (r : Request)
  (cp : CommonParams) (data : list Byte.byte) (rows : list DecodedRow)
  (err : option string) :
  GetCommonParams C r = inr cp ->
  CanWriteData C = None ->
  readUncompressed C (Body r) (Header r "Content-Encoding") (maxRequestSize C) = inr data ->
  decodeLogsData C data = (rows, err) ->
  (useDefaultStreamFields cp = true <-> StreamFields cp = []) /\
  addedRows (trace (handleProtobuf C r)) =
  map (fun row =>
         AddRow (timestamp row)
           (leadingFields row ++ RenameField C (otherFields row) (MsgFields cp) "_msg")
           (match StreamFields cp with
            | [] => Some (leadingFields row)
            | _ :: _ => None
            end))
    (validPrefix rows).
Proof.
  intros Hcp Hw Hread Hdec. split.
  - unfold useDefaultStreamFields. destruct (StreamFields cp); cbn; split; congruence.
  - rewrite (handleProtobuf_decoding C r cp data rows err) by assumption.
    cbn [trace fst]. rewrite addedRows_decodingTrace.
    apply map_ext. intros row. unfold forwarded, useDefaultStreamFields.
    destruct (StreamFields cp); reflexivity.
Qed.

Lemma stream_fields_follow_configuration_witness :
  addedRows (trace (handleProtobuf (exampleCollaborators None streamingDecoder)
                      (exampleRequest [] [Byte.x01]))) =
    [AddRow 1 [ {| Name := "service.name"; Value := "api" |};
                {| Name := "_msg"; Value := "hello" |} ]
       (Some [ {| Name := "service.name"; Value := "api" |} ])] /\
  addedRows (trace (handleProtobuf (exampleCollaborators None streamingDecoder)
                      (exampleRequest [("VL-Stream-Fields", "host")] [Byte.x01]))) =
    [AddRow 1 [ {| Name := "service.name"; Value := "api" |};
                {| Name := "_msg"; Value := "hello" |} ]
       None].
Proof.
  split.
  - exact (proj2 (stream_fields_follow_configuration
                    (exampleCollaborators None streamingDecoder)
                    (exampleRequest [] [Byte.x01])
                    {| StreamFields := []; MsgFields := ["body"] |}
                    [Byte.x01] [exampleRow Byte.x01] None
                    eq_refl eq_refl eq_refl eq_refl)).
  - exact (proj2 (stream_fields_follow_configuration
                    (exampleCollaborators None streamingDecoder)
                    (exampleRequest [("VL-Stream-Fields", "host")] [Byte.x01])
                    {| StreamFields := ["host"]; MsgFields := ["body"] |}
                    [Byte.x01] [exampleRow Byte.x01] None
                    eq_refl eq_refl eq_refl eq_refl)).
Defined.

(** C1, as stated, fails: a request that configures no stream fields has
    [useDefaultStreamFields] true, not false, and the leading fields of its
    rows are passed to [AddRow] as stream fields instead of being left
    out. *)
Lemma default_stream_fields_counterexample :
  ~ (forall C r cp ts fs sf,
       GetCommonParams C r = inr cp ->
       In (AddRow ts fs sf) (trace (handleProtobuf C r)) ->
       (StreamFields cp = [] -> sf = None) /\
       (StreamFields cp <> [] -> sf <> None)).
Proof.
  intros H.
  destruct (H (exampleCollaborators None streamingDecoder)
              (exampleRequest [] [Byte.x01])
              {| StreamFields := []; MsgFields := ["body"] |}
              1%Z
              [ {| Name := "service.name"; Value := "api" |};
                {| Name := "_msg"; Value := "hello" |} ]
              (Some [ {| Name := "service.name"; Value := "api" |} ])
              eq_refl) as [Hnone _].
  - cbn. repeat (first [left; reflexivity | right]).
  - discriminate (Hnone eq_refl).
Qed.

(** *** Decode failures (C2) *)

Lemma validPrefix_all rows : forallb validRow rows = true -> validPrefix rows = rows.
Proof.
  induction rows as [|x rows IH]; [reflexivity|].
  cbn [forallb validPrefix]. intros H. apply andb_prop in H. destruct H as [Hx Hr].
  now rewrite Hx, IH.
Qed.

(** C2, as amended.  A request whose payload fails to decode, the rows
    pushed until then being sliceable ([streamFieldsLen] within the bounds
    of the fields), is answered with the decode error and the error counter
    is incremented.  The handler neither buffers nor rolls back: every row
    the decoder pushed before it failed has been handed to the log message
    processor, in order, and the processor is closed on the error path as
    well.  So no row of the request is added exactly when the decoder had
    pushed none before it failed. *)
Theorem decode_failure_keeps_pushed_rows (C : Collaborators) (r : Request)
  (cp : CommonParams) (data : list Byte.byte) (rows : list DecodedRow)
  (err : string) :
  GetCommonParams C r = inr cp ->
  CanWriteData C = None ->
  readUncompressed C (Body r) (Header r "Content-Encoding") (maxRequestSize C) = inr data ->
  decodeLogsData C data = (rows, Some err) ->
  forallb validRow rows = true ->
  handleProtobuf C r =
    ([requestsProtobufTotal_Inc; Call_GetCommonParams; Call_CanWriteData;
      Call_ReadUncompressedData (Header r "Content-Encoding") (maxRequestSize C);
      NewLogMessageProcessor "opentelemetry_protobuf" false;
      Call_decodeLogsData data]
     ++ map (forwarded C (MsgFields cp) (useDefaultStreamFields cp)) rows
     ++ [errorsTotal_Inc; MustClose; Errorf (decodeError data err)],
     Returned tt) /\
  addedRows (trace (handleProtobuf C r)) =
    map (forwarded C (MsgFields cp) (useDefaultStreamFields cp)) rows /\
  (addedRows (trace (handleProtobuf C r)) = [] <-> rows = []).
Proof.
  intros Hcp Hw Hread Hdec Hvalid.
  pose proof (validPrefix_all rows Hvalid) as Hp.
  pose proof (addedRows_decodingTrace C r cp data rows (Some err)) as Ha.
  rewrite (handleProtobuf_decoding C r cp data rows (Some err)) by assumption.
  cbn [trace fst]. rewrite Ha, Hp. unfold decodingTrace. rewrite Hvalid, Hp.
  split; [reflexivity|]. split; [reflexivity|].
  split.
  - intros H. destruct rows; [reflexivity | discriminate H].
  - intros ->. reflexivity.
Qed.

Lemma decode_failure_keeps_pushed_rows_witness :
  addedRows (trace (handleProtobuf (exampleCollaborators None streamingDecoder)
                      (exampleRequest [] [Byte.x01; Byte.x02; Byte.x00]))) =
    map (forwarded (exampleCollaborators None streamingDecoder) ["body"] true)
      [exampleRow Byte.x01; exampleRow Byte.x02] /\
  addedRows (trace (handleProtobuf (exampleCollaborators None atomicDecoder)
                      (exampleRequest [] [Byte.x01; Byte.x02; Byte.x00]))) = [].
Proof.
  split.
  - exact (proj1 (proj2 (decode_failure_keeps_pushed_rows
                           (exampleCollaborators None streamingDecoder)
                           (exampleRequest [] [Byte.x01; Byte.x02; Byte.x00])
                           {| StreamFields := []; MsgFields := ["body"] |}
                           [Byte.x01; Byte.x02; Byte.x00]
                           [exampleRow Byte.x01; exampleRow Byte.x02]
                           "cannot decode log record"
                           eq_refl eq_refl eq_refl eq_refl eq_refl))).
  - exact (proj2 (proj2 (proj2 (decode_failure_keeps_pushed_rows
                           (exampleCollaborators None atomicDecoder)
                           (exampleRequest [] [Byte.x01; Byte.x02; Byte.x00])
                           {| StreamFields := []; MsgFields := ["body"] |}
                           [Byte.x01; Byte.x02; Byte.x00] []
                           "cannot decode log record"
                           eq_refl eq_refl eq_refl eq_refl eq_refl))) eq_refl).
Defined.

(** C2, as stated, fails: nothing in the handler holds rows back or undoes
    them.  With a decoder that pushes the records in front of a corrupt
    one, the request is answered with the decode error, and the two rows in
    front of the corrupt record have been added and the processor
    closed. *)
Lemma partial_commit_counterexample :
  decodeLogsData (exampleCollaborators None streamingDecoder)
    [Byte.x01; Byte.x02; Byte.x00] =
    ([exampleRow Byte.x01; exampleRow Byte.x02], Some "cannot decode log record") /\
  handleProtobuf (exampleCollaborators None streamingDecoder)
    (exampleRequest [] [Byte.x01; Byte.x02; Byte.x00]) =
    ([requestsProtobufTotal_Inc; Call_GetCommonParams; Call_CanWriteData;
      Call_ReadUncompressedData "" (64 * 1024 * 1024);
      NewLogMessageProcessor "opentelemetry_protobuf" false;
      Call_decodeLogsData [Byte.x01; Byte.x02; Byte.x00];
      AddRow 1 [ {| Name := "service.name"; Value := "api" |};
                 {| Name := "_msg"; Value := "hello" |} ]
        (Some [ {| Name := "service.name"; Value := "api" |} ]);
      AddRow 2 [ {| Name := "service.name"; Value := "api" |};
                 {| Name := "_msg"; Value := "hello" |} ]
        (Some [ {| Name := "service.name"; Value := "api" |} ]);
      errorsTotal_Inc; MustClose;
      Errorf "cannot read OpenTelemetry protocol data: cannot decode LogsData request from 3 bytes: cannot decode log record"],
     Returned tt) /\
  ~ (forall C r cp data rows err,
       GetCommonParams C r = inr cp ->
       CanWriteData C = None ->
       readUncompressed C (Body r) (Header r "Content-Encoding") (maxRequestSize C) =
         inr data ->
       decodeLogsData C data = (rows, Some err) ->
       addedRows (trace (handleProtobuf C r)) = []).
Proof.
  split; [reflexivity|]. split; [reflexivity|].
  intros H.
  specialize (H (exampleCollaborators None streamingDecoder)
                (exampleRequest [] [Byte.x01; Byte.x02; Byte.x00])
                {| StreamFields := []; MsgFields := ["body"] |}
                [Byte.x01; Byte.x02; Byte.x00]
                [exampleRow Byte.x01; exampleRow Byte.x02]
                "cannot decode log record"
                eq_refl eq_refl eq_refl eq_refl).
  discriminate H.
Qed.

(** *** JSON content type (C4) *)

Lemma trace_then_ret {A B} (m : M A) (b : B) : trace (m ;; ret b) = trace m.
Proof.
  destruct m as [t [a|msg]]; cbn; [apply app_nil_r | reflexivity].
Qed.

(** C4.  A request to [/insert/opentelemetry/v1/logs] whose content type is
    a JSON content type is answered with the error that asks for protobuf
    encoding and nothing else happens: no row is added.  Every other
    request to this path is handled by [handleProtobuf], the protobuf
    decoder being the only one there is. *)
Theorem json_content_type_rejected (C : Collaborators) (r : Request) :
  (IsJSONContentType C (Header r "Content-Type") = true ->
   RequestHandler C "/insert/opentelemetry/v1/logs" r =
     ([Errorf "json encoding isn't supported for opentelemetry format. Use protobuf encoding"],
      Returned true) /\
   addedRows (trace (RequestHandler C "/insert/opentelemetry/v1/logs" r)) = []) /\
  (IsJSONContentType C (Header r "Content-Type") = false ->
   RequestHandler C "/insert/opentelemetry/v1/logs" r = (handleProtobuf C r ;; ret true) /\
   trace (RequestHandler C "/insert/opentelemetry/v1/logs" r) = trace (handleProtobuf C r)).
Proof.
  unfold RequestHandler. cbn [String.eqb Ascii.eqb Bool.eqb].
  split; intros H; rewrite H.
  - split; reflexivity.
  - split; [reflexivity | apply trace_then_ret].
Qed.

Lemma json_content_type_rejected_witness :
  RequestHandler (exampleCollaborators None streamingDecoder)
    "/insert/opentelemetry/v1/logs"
    (exampleRequest [("Content-Type", "application/json")] [Byte.x01]) =
    ([Errorf "json encoding isn't supported for opentelemetry format. Use protobuf encoding"],
     Returned true) /\
  addedRows (trace (RequestHandler (exampleCollaborators None streamingDecoder)
                      "/insert/opentelemetry/v1/logs"
                      (exampleRequest [("Content-Type", "application/json")] [Byte.x01]))) = [].
Proof.
  exact (proj1 (json_content_type_rejected
                  (exampleCollaborators None streamingDecoder)
                  (exampleRequest [("Content-Type", "application/json")] [Byte.x01]))
           eq_refl).
Defined.

(** *** Backpressure (C5) *)

Definition isCanWriteDataCall (e : Event) : bool :=
  match e with Call_CanWriteData => true | _ => false end.

(** How often a computation asked whether the storage accepts writes. *)
Definition checks (t : list Event) : nat := length (filter isCanWriteDataCall t).

(** The events that read, decode or process the rows of a request. *)
Definition isRowWork (e : Event) : bool :=
  match e with
  | Call_ReadUncompressedData _ _ | NewLogMessageProcessor _ _
  | Call_decodeLogsData _ | AddRow _ _ _ | MustClose => true
  | _ => false
  end.

(** Every event that works on rows comes after a backpressure check. *)
Definition checkedBefore (t : list Event) : Prop :=
  forall t1 e t2, t = t1 ++ e :: t2 -> isRowWork e = true -> In Call_CanWriteData t1.

Lemma checkedBefore_no_work t :
  Forall (fun e => isRowWork e = false) t -> checkedBefore t.
Proof.
  intros H t1 e t2 -> He. rewrite Forall_forall in H.
  specialize (H e). rewrite in_app_iff in H. cbn in H.
  rewrite H in He by auto. discriminate.
Qed.

Lemma checkedBefore_after_check rest :
  checkedBefore (requestsProtobufTotal_Inc :: Call_GetCommonParams ::
                 Call_CanWriteData :: rest).
Proof.
  intros t1 e t2 H He.
  destruct t1 as [|x [|y [|z t1]]]; cbn in H; injection H; intros; subst;
    try discriminate He.
  cbn. auto.
Qed.

Lemma checks_forwarded C msgFields b rows :
  checks (map (forwarded C msgFields b) rows) = 0.
Proof.
  unfold checks. induction rows as [|r rows IH]; [reflexivity|]. cbn. exact IH.
Qed.

Lemma checks_decodingTrace C r cp data rows err :
  checks (decodingTrace C r cp data rows err) = 1.
Proof.
  unfold decodingTrace, checks. rewrite !filter_app, !length_app.
  fold (checks (map (forwarded C (MsgFields cp) (useDefaultStreamFields cp))
                  (validPrefix rows))).
  rewrite checks_forwarded.
  destruct (forallb validRow rows); [destruct err|]; reflexivity.
Qed.

(** The shapes the trace of [handleProtobuf] can have. *)
Lemma handleProtobuf_shape C r :
  (exists err, GetCommonParams C r = inl err /\
     trace (handleProtobuf C r) =
       [requestsProtobufTotal_Inc; Call_GetCommonParams;
        Errorf ("cannot parse common params from request: " ++ err)%string]) \/
  (exists cp err, GetCommonParams C r = inr cp /\ CanWriteData C = Some err /\
     trace (handleProtobuf C r) =
       [requestsProtobufTotal_Inc; Call_GetCommonParams; Call_CanWriteData; Errorf err]) \/
  (exists cp rest, GetCommonParams C r = inr cp /\ CanWriteData C = None /\
     trace (handleProtobuf C r) =
       requestsProtobufTotal_Inc :: Call_GetCommonParams :: Call_CanWriteData :: rest /\
     checks rest = 0).
Proof.
  destruct (GetCommonParams C r) as [e|cp] eqn:Hcp.
  - left. exists e. split; [reflexivity|].
    now rewrite (handleProtobuf_bad_params C r e).
  - right. destruct (CanWriteData C) as [e|] eqn:Hw.
    + left. exists cp, e. repeat split.
      now rewrite (handleProtobuf_cannot_write C r cp e).
    + right. exists cp.
      destruct (readUncompressed C (Body r) (Header r "Content-Encoding")
                  (maxRequestSize C)) as [e|data] eqn:Hread.
      * eexists. repeat split.
        -- rewrite (handleProtobuf_read_error C r cp e) by assumption. reflexivity.
        -- reflexivity.
      * destruct (decodeLogsData C data) as [rows err] eqn:Hdec.
        pose proof (checks_decodingTrace C r cp data rows err) as Hc.
        eexists. repeat split.
        -- rewrite (handleProtobuf_decoding C r cp data rows err) by assumption.
           unfold decodingTrace. reflexivity.
        -- unfold decodingTrace in Hc. cbn in Hc. unfold checks. cbn. lia.
Qed.

(** C5, as amended.  A request is checked for backpressure at most once,
    and exactly once when it reaches [handleProtobuf] (the path is the OTLP
    one and the content type is not JSON) and its common parameters parse;
    a request rejected before that (another path, a JSON content type,
    common parameters that do not parse) is not checked at all.  Every
    event that reads, decodes or adds rows comes after the check.  When the check
    fails, the error is the whole answer: nothing is read, decoded or
    added. *)
Theorem backpressure_checked_before_rows (C : Collaborators) (path : string)
  (r : Request) :
  checks (trace (RequestHandler C path r)) <= 1 /\
  checkedBefore (trace (RequestHandler C path r)) /\
  (forall cp,
     path = "/insert/opentelemetry/v1/logs" ->
     IsJSONContentType C (Header r "Content-Type") = false ->
     GetCommonParams C r = inr cp ->
     checks (trace (RequestHandler C path r)) = 1) /\
  (path <> "/insert/opentelemetry/v1/logs" ->
   checks (trace (RequestHandler C path r)) = 0) /\
  (IsJSONContentType C (Header r "Content-Type") = true ->
   checks (trace (RequestHandler C path r)) = 0) /\
  (forall err,
     GetCommonParams C r = inl err ->
     checks (trace (RequestHandler C path r)) = 0) /\
  (forall err,
     CanWriteData C = Some err ->
     Forall (fun e => isRowWork e = false) (trace (RequestHandler C path r)) /\
     (checks (trace (RequestHandler C path r)) = 1 ->
      trace (RequestHandler C path r) =
        [requestsProtobufTotal_Inc; Call_GetCommonParams; Call_CanWriteData; Errorf err])).
Proof.
  unfold RequestHandler.
  destruct (String.eqb path "/insert/opentelemetry/v1/logs") eqn:Hpath.
  2:{ cbn. split; [lia|]. split; [apply checkedBefore_no_work; constructor|].
      split; [intros cp ->; discriminate Hpath|].
      split; [reflexivity|]. split; [reflexivity|]. split; [reflexivity|].
      intros err _. split; [constructor | discriminate]. }
  apply String.eqb_eq in Hpath.
  destruct (IsJSONContentType C (Header r "Content-Type")) eqn:Hjson.
  { cbn. split; [lia|]. split; [apply checkedBefore_no_work; repeat constructor|].
    split; [discriminate|].
    split; [reflexivity|]. split; [reflexivity|]. split; [reflexivity|].
    intros err _. split; [repeat constructor | discriminate]. }
  rewrite trace_then_ret.
  destruct (handleProtobuf_shape C r)
    as [(e & Hcp & ->) | [(cp & e & Hcp & Hw & ->) | (cp & rest & Hcp & Hw & -> & Hrest)]].
  - split; [cbn; lia|]. split; [apply checkedBefore_no_work; repeat constructor|].
    split; [congruence|].
    split; [reflexivity|]. split; [discriminate|]. split; [reflexivity|].
    intros err _. split; [repeat constructor | discriminate].
  - split; [cbn; lia|]. split; [apply checkedBefore_after_check|].
    split; [reflexivity|].
    split; [congruence|]. split; [discriminate|]. split; [congruence|].
    intros err Herr. split; [repeat constructor|].
    intros _. congruence.
  - split; [unfold checks in *; cbn; lia|]. split; [apply checkedBefore_after_check|].
    split; [intros; unfold checks in *; cbn; lia|].
    split; [congruence|]. split; [discriminate|]. split; [congruence|].
    congruence.
Qed.

(** C5, as stated, fails: a request whose common parameters do not parse is
    rejected before the check, which is then made zero times, not once. *)
Lemma backpressure_check_skipped_counterexample :
  trace (handleProtobuf (exampleCollaborators None streamingDecoder)
           (exampleRequest [("AccountID", "x")] [Byte.x01])) =
    [requestsProtobufTotal_Inc; Call_GetCommonParams;
     Errorf "cannot parse common params from request: cannot parse AccountID"] /\
  ~ (forall C r, checks (trace (handleProtobuf C r)) = 1).
Proof.
  split; [reflexivity|].
  intros H.
  specialize (H (exampleCollaborators None streamingDecoder)
                (exampleRequest [("AccountID", "x")] [Byte.x01])).
  discriminate H.
Qed.

Lemma backpressure_checked_before_rows_witness :
  checks (trace (RequestHandler
                   (exampleCollaborators (Some "cannot accept writes: read-only") streamingDecoder)
                   "/insert/opentelemetry/v1/logs"
                   (exampleRequest [] [Byte.x01]))) = 1 /\
  trace (RequestHandler
           (exampleCollaborators (Some "cannot accept writes: read-only") streamingDecoder)
           "/insert/opentelemetry/v1/logs"
           (exampleRequest [] [Byte.x01])) =
    [requestsProtobufTotal_Inc; Call_GetCommonParams; Call_CanWriteData;
     Errorf "cannot accept writes: read-only"].
Proof.
  pose proof (backpressure_checked_before_rows
                (exampleCollaborators (Some "cannot accept writes: read-only") streamingDecoder)
                "/insert/opentelemetry/v1/logs"
                (exampleRequest [] [Byte.x01])) as (_ & _ & Honce & _ & _ & _ & Hfail).
  pose proof (Honce {| StreamFields := []; MsgFields := ["body"] |}
                eq_refl eq_refl eq_refl) as H1.
  split; [exact H1|].
  exact (proj2 (Hfail "cannot accept writes: read-only" eq_refl) H1).
Defined.

(** *** The message field (C6) *)

Lemma RenameField_length C fs oldNames newName :
  length (RenameField C fs oldNames newName) = length fs.
Proof. apply (proj1 (RenameField_ok C)). Qed.

Lemma RenameField_no_match C fs oldNames newName :
  forallb (fun f => negb (matches oldNames f)) fs = true ->
  RenameField C fs oldNames newName = fs.
Proof.
  intros H. rewrite forallb_forall in H.
  apply nth_error_ext. intros i.
  destruct (nth_error fs i) as [f|] eqn:Hi.
  - apply (proj2 (RenameField_ok C)); [assumption|].
    apply nth_error_In in Hi. apply H in Hi. now apply negb_true_iff in Hi.
  - apply nth_error_None. rewrite RenameField_length. now apply nth_error_None.
Qed.

(** C6, as amended.  For a decoded row whose [streamFieldsLen] can be
    sliced, [pushLogs] adds one row whose leading [streamFieldsLen] fields
    are the decoded ones, untouched whether or not their names are message
    field names, and whose remaining fields are the non-stream portion after
    the rename to [_msg].  The row keeps its number of fields: no field is
    added, and when no field of the non-stream portion matches, the row is
    added as it was decoded. *)
Theorem rename_spares_stream_fields (C : Collaborators) (msgFields : list string)
  (b : bool) (r : DecodedRow) :
  validRow r = true ->
  exists fs,
    pushLogs C msgFields b (timestamp r) (fields r) (streamFieldsLen r) =
      ([AddRow (timestamp r) fs (if b then Some (leadingFields r) else None)],
       Returned tt) /\
    firstn (Z.to_nat (streamFieldsLen r)) fs = leadingFields r /\
    skipn (Z.to_nat (streamFieldsLen r)) fs =
      RenameField C (otherFields r) msgFields "_msg" /\
    length fs = length (fields r) /\
    (forallb (fun f => negb (matches msgFields f)) (otherFields r) = true ->
     fs = fields r).
Proof.
  intros Hv. pose proof (validRow_bounds r Hv) as Hn.
  exists (leadingFields r ++ RenameField C (otherFields r) msgFields "_msg").
  assert (Hlen : length (leadingFields r) = Z.to_nat (streamFieldsLen r)).
  { unfold leadingFields. rewrite length_firstn. lia. }
  repeat split.
  - now apply pushLogs_valid.
  - rewrite firstn_app, Hlen, Nat.sub_diag. cbn. rewrite app_nil_r.
    rewrite <- Hlen at 1. apply firstn_all.
  - rewrite skipn_app, Hlen, Nat.sub_diag. cbn.
    rewrite <- Hlen at 1. rewrite skipn_all. reflexivity.
  - rewrite length_app, RenameField_length, Hlen. unfold otherFields.
    rewrite length_skipn. lia.
  - intros Hno. rewrite RenameField_no_match by assumption.
    apply firstn_skipn.
Qed.

Lemma rename_spares_stream_fields_witness :
  (exists fs,
     pushLogs (exampleCollaborators None streamingDecoder) ["service.name"; "body"] true
       1 [ {| Name := "service.name"; Value := "api" |};
           {| Name := "body"; Value := "hello" |} ] 1 =
       ([AddRow 1 fs (Some [ {| Name := "service.name"; Value := "api" |} ])],
        Returned tt) /\
     firstn 1 fs = [ {| Name := "service.name"; Value := "api" |} ] /\
     skipn 1 fs = [ {| Name := "_msg"; Value := "hello" |} ] /\
     length fs = 2) /\
  (exists fs,
     pushLogs (exampleCollaborators None streamingDecoder) ["message"] true
       1 [ {| Name := "service.name"; Value := "api" |};
           {| Name := "body"; Value := "hello" |} ] 1 =
       ([AddRow 1 fs (Some [ {| Name := "service.name"; Value := "api" |} ])],
        Returned tt) /\
     fs = [ {| Name := "service.name"; Value := "api" |};
            {| Name := "body"; Value := "hello" |} ]).
Proof.
  split.
  - destruct (rename_spares_stream_fields
                (exampleCollaborators None streamingDecoder) ["service.name"; "body"] true
                (exampleRow Byte.x01) eq_refl) as (fs & H1 & H2 & H3 & H4 & _).
    exists fs. repeat split; assumption.
  - destruct (rename_spares_stream_fields
                (exampleCollaborators None streamingDecoder) ["message"] true
                (exampleRow Byte.x01) eq_refl) as (fs & H1 & _ & _ & _ & H5).
    exists fs. split; [exact H1 | exact (H5 eq_refl)].
Defined.

(** C6, as stated, fails in its last part: when no field of the non-stream
    portion matches, the added row has no [_msg] field at all; nothing sets
    an empty one. *)
Lemma missing_msg_counterexample :
  pushLogs (exampleCollaborators None streamingDecoder) ["body"] false
    1 [ {| Name := "k"; Value := "v" |} ] 0 =
    ([AddRow 1 [ {| Name := "k"; Value := "v" |} ] None], Returned tt) /\
  ~ (forall C msgFields b r fs sf,
       validRow r = true ->
       pushLogs C msgFields b (timestamp r) (fields r) (streamFieldsLen r) =
         ([AddRow (timestamp r) fs sf], Returned tt) ->
       forallb (fun f => negb (matches msgFields f)) (otherFields r) = true ->
       In {| Name := "_msg"; Value := "" |} fs).
Proof.
  split; [reflexivity|].
  intros H.
  specialize (H (exampleCollaborators None streamingDecoder) ["body"] false
                {| timestamp := 1; fields := [ {| Name := "k"; Value := "v" |} ];
                   streamFieldsLen := 0 |}
                [ {| Name := "k"; Value := "v" |} ] None eq_refl eq_refl eq_refl).
  cbn in H. destruct H as [H|[]]. discriminate H.
Qed.

(** Whatever the rename does, it cannot add a field: a row without fields
    is added without fields. *)
Remark empty_row_stays_empty (C : Collaborators) (msgFields : list string)
  (b : bool) (ts : Z) :
  pushLogs C msgFields b ts [] 0 =
  ([AddRow ts [] (if b then Some [] else None)], Returned tt).
Proof.
  assert (H : RenameField C [] msgFields "_msg" = []).
  { apply length_zero_iff_nil. apply RenameField_length. }
  unfold pushLogs. simpl. rewrite H. reflexivity.
Qed.

End OpentelemetryFacts.

(** ** The parsed query response *)

Module ModelFacts.
Import stdpp.base stdpp.gmap stdpp.strings.
Import Model.

(** One line of a response body: text without a newline, then the
    newline. *)
Definition isLine (line : string) : Prop :=
  exists body, line = (body ++ String newline "")%string /\ IndexByte body newline = None.

(** A response body cut into its lines, each with the object
    [json.Unmarshal] decodes it to. *)
Inductive wireLines (J : JSON) : string -> list (string * gmap string (any J)) -> Prop :=
| wire_end : wireLines J "" []
| wire_line line lv rest ws :
    isLine line ->
    Unmarshal J line = Some lv ->
    wireLines J rest ws ->
    wireLines J (line ++ rest)%string ((line, lv) :: ws).

(** The normalized line of a decoded object: the object without the key
    [_stream_id], encoded again. *)
Definition normalizes (J : JSON) (w : string * gmap string (any J)) (out : string) : Prop :=
  Marshal J (delete "_stream_id" w.2) = Some out.

Lemma readLogLines_unfold J bs acc :
  readLogLines J bs acc =
  match ReadString bs newline with
  | (logLine, rest, true) =>
      if (0 <? String.length logLine)%nat
      then Fatalf (BUG_unexpected_non_empty_line_with_EOF logLine)
      else Done acc
  | (logLine, rest, false) =>
      match Unmarshal J logLine with
      | None => Fatalf (cannot_parse_log_line logLine)
      | Some lv =>
          match Marshal J (delete "_stream_id" lv) with
          | None => Fatalf (cannot_marshal_parsed_logline logLine)
          | Some normalizedLine => readLogLines J rest (acc ++ [normalizedLine])
          end
      end
  end.
Proof.
  funelim (readLogLines J bs acc);
    repeat match goal with
      | H : ReadString _ _ = _ |- _ => rewrite H
      | H : Unmarshal _ _ = _ |- _ => rewrite H
      | H : Marshal _ _ = _ |- _ => rewrite H
      end; reflexivity.
Qed.

Lemma append_nil s : ("" ++ s)%string = s.
Proof. reflexivity. Qed.

Lemma append_cons a s t : (String a s ++ t)%string = String a (s ++ t).
Proof. reflexivity. Qed.

Lemma ReadString_false s d : forall line rest,
  ReadString s d = (line, rest, false) ->
  exists body, line = (body ++ String d "")%string /\ IndexByte body d = None /\
               s = (line ++ rest)%string.
Proof.
  induction s as [|a s IH]; intros line rest; cbn [ReadString]; [discriminate|].
  destruct (Ascii.eqb a d) eqn:E.
  - apply Ascii.eqb_eq in E. subst a. intros [= <- <-].
    exists "". repeat split.
  - destruct (ReadString s d) as [[l r] e] eqn:Es. intros [= <- <- ->].
    destruct (IH _ _ eq_refl) as (body & -> & Hb & ->).
    exists (String a body). cbn [IndexByte]. rewrite E, Hb.
    repeat split.
Qed.

Lemma ReadString_true s d : forall line rest,
  ReadString s d = (line, rest, true) -> line = s /\ IndexByte s d = None.
Proof.
  induction s as [|a s IH]; intros line rest; cbn [ReadString].
  - intros [= <- _]. split; reflexivity.
  - destruct (Ascii.eqb a d) eqn:E; [discriminate|].
    destruct (ReadString s d) as [[l r] e] eqn:Es. intros [= <- <- ->].
    destruct (IH _ _ eq_refl) as (-> & Hs). cbn [IndexByte]. rewrite E, Hs.
    split; reflexivity.
Qed.

Lemma ReadString_line body d rest :
  IndexByte body d = None ->
  ReadString (body ++ String d rest) d = ((body ++ String d "")%string, rest, false).
Proof.
  induction body as [|a body IH]; rewrite ?append_cons, ?append_nil;
    cbn [ReadString IndexByte].
  - intros _. now rewrite Ascii.eqb_refl.
  - destruct (Ascii.eqb a d); [discriminate|].
    destruct (IndexByte body d); [discriminate|].
    intros _. now rewrite IH.
Qed.

Lemma app_line_rest body d rest :
  ((body ++ String d "") ++ rest)%string = (body ++ String d rest)%string.
Proof.
  induction body as [|a body IH]; rewrite ?append_cons, ?append_nil;
    [reflexivity | now rewrite IH].
Qed.

Lemma IndexByte_app_line body d rest : IndexByte (body ++ String d rest) d <> None.
Proof.
  induction body as [|a body IH]; rewrite ?append_cons, ?append_nil;
    cbn [IndexByte].
  - now rewrite Ascii.eqb_refl.
  - destruct (Ascii.eqb a d); [discriminate|].
    destruct (IndexByte (body ++ String d rest) d); [discriminate | contradiction].
Qed.

Lemma wireLines_first J s line rest ws :
  ReadString s newline = (line, rest, false) ->
  wireLines J s ws ->
  exists lv ws', ws = (line, lv) :: ws' /\ Unmarshal J line = Some lv /\
                 wireLines J rest ws'.
Proof.
  intros Hr Hw. destruct Hw as [|line' lv rest' ws' (body & -> & Hb) Hu Hw'].
  - discriminate.
  - rewrite app_line_rest, (ReadString_line _ _ _ Hb) in Hr.
    injection Hr as <- <-. eauto.
Qed.

Lemma wireLines_no_newline J s ws :
  IndexByte s newline = None -> wireLines J s ws -> s = "" /\ ws = [].
Proof.
  intros Hs Hw. destruct Hw as [|line lv rest ws (body & -> & Hb) Hu Hw'].
  - split; reflexivity.
  - rewrite app_line_rest in Hs. now apply IndexByte_app_line in Hs.
Qed.

Lemma readLogLines_Done J : forall n s acc L,
  String.length s <= n ->
  readLogLines J s acc = Done L <->
  exists ws outs, wireLines J s ws /\ Forall2 (normalizes J) ws outs /\ L = acc ++ outs.
Proof.
  induction n as [|n IH]; intros s acc L Hn; rewrite readLogLines_unfold;
    destruct (ReadString s newline) as [[line rest] eof] eqn:Hr; destruct eof.
  1,3: apply ReadString_true in Hr; destruct Hr as [-> Hs];
    (destruct s as [|a s]; cbn [String.length Nat.ltb Nat.leb];
     [ split;
       [ intros [= <-]; exists [], []; rewrite app_nil_r;
         repeat split; constructor
       | intros (ws & outs & Hw & Hf & ->);
         destruct (wireLines_no_newline _ _ _ Hs Hw) as [_ ->];
         inversion Hf; now rewrite app_nil_r ]
     | split;
       [ discriminate
       | intros (ws & outs & Hw & _);
         now destruct (wireLines_no_newline _ _ _ Hs Hw) ] ]).
  - apply ReadString_consumes in Hr. lia.
  - pose proof (ReadString_consumes _ _ _ _ Hr) as Hlt.
    pose proof (ReadString_false _ _ _ _ Hr) as (body & Hline & Hb & Hs).
    split.
    + destruct (Unmarshal J line) as [lv|] eqn:Hu; [|discriminate].
      destruct (Marshal J (delete "_stream_id" lv)) as [out|] eqn:Hm; [|discriminate].
      intros H. apply IH in H; [|lia].
      destruct H as (ws & outs & Hw & Hf & ->).
      exists ((line, lv) :: ws), (out :: outs). repeat split.
      * rewrite Hs. constructor; [exists body; auto | assumption | assumption].
      * constructor; assumption.
      * now rewrite <- app_assoc.
    + intros (ws & outs & Hw & Hf & ->).
      destruct (wireLines_first _ _ _ _ _ Hr Hw) as (lv & ws' & -> & Hu & Hw').
      inversion Hf as [|? out ? outs' Hm Hf']; subst.
      unfold normalizes in Hm. cbn in Hm. rewrite Hu, Hm.
      apply IH; [lia|]. exists ws', outs'. repeat split; try assumption.
      now rewrite <- app_assoc.
Qed.

(** X26.  An empty response body parses to zero log lines.  A body parses
    exactly when it consists of newline-terminated lines that each decode
    to an object, and then the parsed representation has, line by line and
    in order, the encoding of the decoded object without the key
    [_stream_id].  Removing it removes exactly that key: the other keys
    keep their values, and a line that carried [_stream_id] has one key
    fewer afterwards. *)
Theorem NewLogsQLQueryResponse_excludes_stream_id (J : JSON) :
  NewLogsQLQueryResponse J "" = Done [] /\
  (forall s L,
     NewLogsQLQueryResponse J s = Done L <->
     exists ws, wireLines J s ws /\ Forall2 (normalizes J) ws L) /\
  (forall (w : string * gmap string (any J)) (out : string),
     normalizes J w out ->
     exists m : gmap string (any J),
       Marshal J m = Some out /\
       m !! "_stream_id" = None /\
       dom m = dom w.2 ∖ {["_stream_id"]} /\
       (is_Some (w.2 !! "_stream_id") -> size m = pred (size w.2)) /\
       forall k, k <> "_stream_id" -> m !! k = w.2 !! k).
Proof.
  split; [reflexivity|]. split.
  - intros s L. unfold NewLogsQLQueryResponse.
    destruct s as [|a s]; cbn [String.length Nat.eqb].
    + split.
      * intros [= <-]. exists []. split; constructor.
      * intros (ws & Hw & Hf).
        destruct (wireLines_no_newline J "" ws eq_refl Hw) as [_ ->].
        inversion Hf. reflexivity.
    + rewrite (readLogLines_Done J (String.length (String a s)) _ [] L (le_n _)).
      split.
      * intros (ws & outs & Hw & Hf & ->). exists ws. auto.
      * intros (ws & Hw & Hf). exists ws, L. auto.
  - intros w out Hn. exists (delete "_stream_id" w.2). repeat split.
    + exact Hn.
    + apply lookup_delete_eq.
    + apply dom_delete_L.
    + apply map_size_delete_Some.
    + intros k Hk. apply lookup_delete_ne. congruence.
Qed.

(** A toy [encoding/json] to run the helper on: two lines it can decode,
    and an encoder that lists [key=value]. *)
Definition exampleJSON : JSON :=
  {| any := string;
     Unmarshal := fun line =>
       if String.eqb line ("A" ++ String newline "")%string
       then Some (<["_msg" := "abc"]> (<["_stream_id" := "0001"]> ∅))
       else if String.eqb line ("B" ++ String newline "")%string
            then Some (<["logs" := "5"]> ∅)
            else None;
     Marshal := fun m =>
       Some (String.concat ","
               (map (fun kv : string * string => (kv.1 ++ "=" ++ kv.2)%string)
                  (map_to_list m))) |}.

Lemma NewLogsQLQueryResponse_excludes_stream_id_witness :
  NewLogsQLQueryResponse exampleJSON "" = Done [] /\
  NewLogsQLQueryResponse exampleJSON
    ("A" ++ String newline ("B" ++ String newline ""))%string =
    Done ["_msg=abc"; "logs=5"] /\
  exists ws,
    wireLines exampleJSON ("A" ++ String newline ("B" ++ String newline ""))%string ws /\
    Forall2 (normalizes exampleJSON) ws ["_msg=abc"; "logs=5"].
Proof.
  split; [exact (proj1 (NewLogsQLQueryResponse_excludes_stream_id exampleJSON))|].
  split; [vm_compute; reflexivity|].
  apply (proj1 (proj2 (NewLogsQLQueryResponse_excludes_stream_id exampleJSON))).
  vm_compute. reflexivity.
Defined.

End ModelFacts.

(** ** The OTLP ingestion handler: answers, counters and the processor *)

Module OpentelemetryMore.
Import Logstorage Opentelemetry OpentelemetryFacts.
#[local] Open Scope otel_scope.

(** How many events of a kind a trace has. *)
Definition occurrences (p : Event -> bool) (t : list Event) : nat :=
  length (filter p t).

Definition isErrorf (e : Event) : bool :=
  match e with Errorf _ => true | _ => false end.

Definition isDurationUpdate (e : Event) : bool :=
  match e with requestProtobufDuration_UpdateDuration => true | _ => false end.

Definition isNewProcessor (e : Event) : bool :=
  match e with NewLogMessageProcessor _ _ => true | _ => false end.

Definition isMustClose (e : Event) : bool :=
  match e with MustClose => true | _ => false end.

Definition isErrorsInc (e : Event) : bool :=
  match e with errorsTotal_Inc => true | _ => false end.

Definition isRequestsInc (e : Event) : bool :=
  match e with requestsProtobufTotal_Inc => true | _ => false end.

(** The request gets as far as the decoder, which pushes [rows] and
    returns [err]. *)
Definition decodes (C : Collaborators) (r : Request) (cp : CommonParams)
  (data : list Byte.byte) (rows : list DecodedRow) (err : option string) : Prop :=
  GetCommonParams C r = inr cp /\
  CanWriteData C = None /\
  readUncompressed C (Body r) (Header r "Content-Encoding") (maxRequestSize C) = inr data /\
  decodeLogsData C data = (rows, err).

(** The four ways through [handleProtobuf]. *)
Lemma handleProtobuf_cases C r :
  (exists err, GetCommonParams C r = inl err /\
     handleProtobuf C r =
       ([requestsProtobufTotal_Inc; Call_GetCommonParams;
         Errorf ("cannot parse common params from request: " ++ err)%string],
        Returned tt)) \/
  (exists cp err, GetCommonParams C r = inr cp /\ CanWriteData C = Some err /\
     handleProtobuf C r =
       ([requestsProtobufTotal_Inc; Call_GetCommonParams; Call_CanWriteData; Errorf err],
        Returned tt)) \/
  (exists cp err, GetCommonParams C r = inr cp /\ CanWriteData C = None /\
     readUncompressed C (Body r) (Header r "Content-Encoding") (maxRequestSize C) = inl err /\
     handleProtobuf C r =
       ([requestsProtobufTotal_Inc; Call_GetCommonParams; Call_CanWriteData;
         Call_ReadUncompressedData (Header r "Content-Encoding") (maxRequestSize C);
         Errorf ("cannot read OpenTelemetry protocol data: " ++ err)%string],
        Returned tt)) \/
  (exists cp data rows err, decodes C r cp data rows err /\
     handleProtobuf C r =
       (decodingTrace C r cp data rows err,
        if forallb validRow rows then Returned tt
        else RuntimePanic "slice bounds out of range")).
Proof.
  destruct (GetCommonParams C r) as [e|cp] eqn:Hcp.
  { left. exists e. split; [reflexivity|]. now apply handleProtobuf_bad_params. }
  right. destruct (CanWriteData C) as [e|] eqn:Hw.
  { left. exists cp, e. repeat split. now apply (handleProtobuf_cannot_write C r cp e). }
  right.
  destruct (readUncompressed C (Body r) (Header r "Content-Encoding") (maxRequestSize C))
    as [e|data] eqn:Hread.
  { left. exists cp, e. repeat split; try assumption.
    now apply (handleProtobuf_read_error C r cp e). }
  right. destruct (decodeLogsData C data) as [rows err] eqn:Hdec.
  exists cp, data, rows, err. split; [repeat split; assumption|].
  now apply handleProtobuf_decoding.
Qed.

Lemma occurrences_forwarded p C msgFields b rows :
  (forall ts fs sf, p (AddRow ts fs sf) = false) ->
  occurrences p (map (forwarded C msgFields b) rows) = 0.
Proof.
  intros Hp. unfold occurrences.
  induction rows as [|r rows IH]; [reflexivity|].
  cbn [map filter]. unfold forwarded at 1. rewrite Hp. exact IH.
Qed.

Lemma occurrences_app p t1 t2 :
  occurrences p (t1 ++ t2) = occurrences p t1 + occurrences p t2.
Proof. unfold occurrences. now rewrite filter_app, length_app. Qed.

Lemma occurrences_decodingTrace p C r cp data rows err :
  (forall ts fs sf, p (AddRow ts fs sf) = false) ->
  occurrences p (decodingTrace C r cp data rows err) =
  occurrences p
    [requestsProtobufTotal_Inc; Call_GetCommonParams; Call_CanWriteData;
     Call_ReadUncompressedData (Header r "Content-Encoding") (maxRequestSize C);
     NewLogMessageProcessor "opentelemetry_protobuf" false;
     Call_decodeLogsData data] +
  occurrences p
    (if forallb validRow rows
     then match err with
          | Some e => [errorsTotal_Inc; MustClose; Errorf (decodeError data e)]
          | None => [MustClose; requestProtobufDuration_UpdateDuration]
          end
     else []).
Proof.
  intros Hp. unfold decodingTrace.
  rewrite !occurrences_app, occurrences_forwarded by assumption. lia.
Qed.

Ltac count_events :=
  repeat match goal with
    | |- context [occurrences ?p (decodingTrace _ _ _ _ _ _)] =>
        rewrite (occurrences_decodingTrace p) by reflexivity
    end;
  cbn [occurrences filter length isErrorf isDurationUpdate isNewProcessor
       isMustClose isErrorsInc isRequestsInc Nat.add].

(** X1.  A request that [RequestHandler] handles to the end gets exactly one
    answer: either one error response and no update of the duration
    summary, or no error response and one update.  The duration is updated
    exactly when the parameters parse, the storage accepts writes, the body
    is read and the decoder returns no error. *)
Theorem one_answer_per_request (C : Collaborators) (path : string) (r : Request) :
  snd (RequestHandler C path r) = Returned true ->
  (occurrences isErrorf (trace (RequestHandler C path r)) = 1 /\
   occurrences isDurationUpdate (trace (RequestHandler C path r)) = 0 /\
   ~ (exists cp data rows,
        IsJSONContentType C (Header r "Content-Type") = false /\
        decodes C r cp data rows None)) \/
  (occurrences isErrorf (trace (RequestHandler C path r)) = 0 /\
   occurrences isDurationUpdate (trace (RequestHandler C path r)) = 1 /\
   exists cp data rows,
     IsJSONContentType C (Header r "Content-Type") = false /\
     decodes C r cp data rows None).
Proof.
  unfold RequestHandler.
  destruct (String.eqb path "/insert/opentelemetry/v1/logs"); [|discriminate].
  destruct (IsJSONContentType C (Header r "Content-Type")) eqn:Hjson.
  { intros _. left. repeat split. intros (cp & data & rows & Hj & _). discriminate. }
  rewrite trace_then_ret.
  destruct (handleProtobuf_cases C r)
    as [(e & Hcp & ->) | [(cp & e & Hcp & Hw & ->) |
        [(cp & e & Hcp & Hw & Hr & ->) | (cp & data & rows & err & Hd & ->)]]];
    cbn [trace fst snd bind ret].
  - intros _. left. repeat split.
    intros (cp & data & rows & _ & Hcp' & _). congruence.
  - intros _. left. repeat split.
    intros (cp' & data & rows & _ & _ & Hw' & _). congruence.
  - intros _. left. repeat split.
    intros (cp' & data & rows & _ & _ & _ & Hr' & _). congruence.
  - destruct Hd as (Hcp & Hw & Hr & Hdec).
    destruct (forallb validRow rows) eqn:Hv; [|discriminate]. intros _.
    destruct err as [e|].
    + left. count_events. rewrite Hv. repeat split.
      intros (cp' & data' & rows' & _ & _ & _ & Hr' & Hdec').
      rewrite Hr in Hr'. injection Hr' as <-. congruence.
    + right. count_events. rewrite Hv. repeat split.
      exists cp, data, rows. repeat split; assumption.
Qed.

Lemma one_answer_per_request_witness :
  occurrences isErrorf
    (trace (RequestHandler (exampleCollaborators None streamingDecoder)
              "/insert/opentelemetry/v1/logs"
              (exampleRequest [] [Byte.x01; Byte.x02]))) = 0 /\
  occurrences isDurationUpdate
    (trace (RequestHandler (exampleCollaborators None streamingDecoder)
              "/insert/opentelemetry/v1/logs"
              (exampleRequest [] [Byte.x01; Byte.x02]))) = 1.
Proof.
  destruct (one_answer_per_request (exampleCollaborators None streamingDecoder)
              "/insert/opentelemetry/v1/logs"
              (exampleRequest [] [Byte.x01; Byte.x02]) eq_refl)
    as [(H & _) | (H0 & H1 & _)].
  - discriminate H.
  - split; assumption.
Defined.

(** X2.  [handleProtobuf] creates at most one log message processor per
    request, and when it returns it has closed every processor it created:
    on success, on a decode error, and trivially when the request was
    rejected before a processor existed. *)
Theorem processor_closed_on_return (C : Collaborators) (r : Request) :
  occurrences isNewProcessor (trace (handleProtobuf C r)) <= 1 /\
  (snd (handleProtobuf C r) = Returned tt ->
   occurrences isMustClose (trace (handleProtobuf C r)) =
   occurrences isNewProcessor (trace (handleProtobuf C r))).
Proof.
  destruct (handleProtobuf_cases C r)
    as [(e & Hcp & ->) | [(cp & e & Hcp & Hw & ->) |
        [(cp & e & Hcp & Hw & Hr & ->) | (cp & data & rows & err & Hd & ->)]]];
    cbn [trace fst snd]; count_events; try (split; [lia | reflexivity]).
  destruct (forallb validRow rows); [|split; [cbn; lia | discriminate]].
  destruct err; cbn; split; auto.
Qed.

(** X3.  A decoded row whose [streamFieldsLen] is negative or larger than
    the number of its fields makes the handler panic on the slice bounds:
    the rows in front of it have been added, the processor is left unclosed,
    and neither an error response nor the duration update is written. *)
Theorem bad_streamFieldsLen_panics (C : Collaborators) (r : Request)
  (cp : CommonParams) (data : list Byte.byte) (rows : list DecodedRow)
  (err : option string) :
  decodes C r cp data rows err ->
  forallb validRow rows = false ->
  snd (handleProtobuf C r) = RuntimePanic "slice bounds out of range" /\
  addedRows (trace (handleProtobuf C r)) =
    map (forwarded C (MsgFields cp) (useDefaultStreamFields cp)) (validPrefix rows) /\
  occurrences isMustClose (trace (handleProtobuf C r)) = 0 /\
  occurrences isErrorf (trace (handleProtobuf C r)) = 0 /\
  occurrences isDurationUpdate (trace (handleProtobuf C r)) = 0.
Proof.
  intros (Hcp & Hw & Hr & Hdec) Hv.
  rewrite (handleProtobuf_decoding C r cp data rows err) by assumption.
  cbn [trace fst snd]. rewrite Hv. split; [reflexivity|].
  split; [apply addedRows_decodingTrace|].
  count_events. rewrite Hv. repeat split.
Qed.

(** A decoder that reports one more stream field than the row has. *)
Definition overlongDecoder (data : list Byte.byte) : list DecodedRow * option string :=
  ([exampleRow Byte.x01;
    {| timestamp := 2; fields := [ {| Name := "k"; Value := "v" |} ];
       streamFieldsLen := 2 |};
    exampleRow Byte.x03], None).

Lemma bad_streamFieldsLen_panics_witness :
  snd (handleProtobuf (exampleCollaborators None overlongDecoder)
         (exampleRequest [] [])) = RuntimePanic "slice bounds out of range" /\
  addedRows (trace (handleProtobuf (exampleCollaborators None overlongDecoder)
                      (exampleRequest [] []))) =
    [AddRow 1 [ {| Name := "service.name"; Value := "api" |};
                {| Name := "_msg"; Value := "hello" |} ]
       (Some [ {| Name := "service.name"; Value := "api" |} ])] /\
  occurrences isMustClose
    (trace (handleProtobuf (exampleCollaborators None overlongDecoder)
              (exampleRequest [] []))) = 0 /\
  occurrences isErrorf
    (trace (handleProtobuf (exampleCollaborators None overlongDecoder)
              (exampleRequest [] []))) = 0 /\
  occurrences isDurationUpdate
    (trace (handleProtobuf (exampleCollaborators None overlongDecoder)
              (exampleRequest [] []))) = 0.
Proof.
  exact (bad_streamFieldsLen_panics
           (exampleCollaborators None overlongDecoder) (exampleRequest [] [])
           {| StreamFields := []; MsgFields := ["body"] |} []
           (fst (overlongDecoder [])) None
           (conj eq_refl (conj eq_refl (conj eq_refl eq_refl))) eq_refl).
Defined.

(** X4.  The request counter is incremented exactly once by every call of
    [handleProtobuf], before anything else.  The error counter is
    incremented at most once, and only for a decode error: not when the
    parameters do not parse, not under backpressure, not when the body
    cannot be read. *)
Theorem counters_per_request (C : Collaborators) (r : Request) :
  (exists rest, trace (handleProtobuf C r) = requestsProtobufTotal_Inc :: rest) /\
  occurrences isRequestsInc (trace (handleProtobuf C r)) = 1 /\
  occurrences isErrorsInc (trace (handleProtobuf C r)) <= 1 /\
  (occurrences isErrorsInc (trace (handleProtobuf C r)) = 1 <->
   exists cp data rows err,
     decodes C r cp data rows (Some err) /\ forallb validRow rows = true).
Proof.
  destruct (handleProtobuf_cases C r)
    as [(e & Hcp & ->) | [(cp & e & Hcp & Hw & ->) |
        [(cp & e & Hcp & Hw & Hr & ->) | (cp & data & rows & err & Hd & ->)]]];
    cbn [trace fst snd].
  - split; [eauto|]. count_events. repeat split; try lia; try discriminate.
    intros (cp & data & rows & e' & (Hcp' & _) & _). congruence.
  - split; [eauto|]. count_events. repeat split; try lia; try discriminate.
    intros (cp' & data & rows & e' & (_ & Hw' & _) & _). congruence.
  - split; [eauto|]. count_events. repeat split; try lia; try discriminate.
    intros (cp' & data & rows & e' & (_ & _ & Hr' & _) & _). congruence.
  - split; [unfold decodingTrace; cbn; eauto|]. count_events.
    destruct Hd as (Hcp & Hw & Hr & Hdec).
    destruct (forallb validRow rows) eqn:Hv; [destruct err as [e|]|]; cbn;
      repeat split; try lia; try discriminate.
    + intros _. exists cp, data, rows, e. repeat split; assumption.
    + intros (cp' & data' & rows' & e' & (_ & _ & Hr' & Hdec') & _).
      rewrite Hr in Hr'. injection Hr' as <-. congruence.
    + intros (cp' & data' & rows' & e' & (_ & _ & Hr' & Hdec') & Hv').
      rewrite Hr in Hr'. injection Hr' as <-. congruence.
Qed.

(** X5.  Whatever the request, the stream fields passed with an added row
    are leading fields of that row: [AddRow] never gets stream fields that
    are not a prefix of the fields it gets. *)
Theorem stream_fields_are_a_prefix (C : Collaborators) (path : string) (r : Request)
  (ts : Z) (fs sf : list Field) :
  In (AddRow ts fs (Some sf)) (trace (RequestHandler C path r)) ->
  sf = firstn (length sf) fs /\ length sf <= length fs.
Proof.
  unfold RequestHandler.
  destruct (String.eqb path "/insert/opentelemetry/v1/logs"); [|intros []].
  destruct (IsJSONContentType C (Header r "Content-Type")).
  { cbn. intros [H|[]]. discriminate H. }
  rewrite trace_then_ret.
  destruct (handleProtobuf_cases C r)
    as [(e & Hcp & ->) | [(cp & e & Hcp & Hw & ->) |
        [(cp & e & Hcp & Hw & Hr & ->) | (cp & data & rows & err & Hd & ->)]]];
    cbn [trace fst].
  1-3: cbn; intros H; repeat (destruct H as [H|H]; [discriminate H|]); destruct H.
  intros Hin.
  assert (Hadd : In (AddRow ts fs (Some sf))
                   (addedRows (decodingTrace C r cp data rows err))).
  { unfold addedRows. apply filter_In. split; [assumption | reflexivity]. }
  rewrite addedRows_decodingTrace in Hadd. apply in_map_iff in Hadd.
  destruct Hadd as (row & Hrow & Hvalid).
  assert (Hv : validRow row = true).
  { clear -Hvalid. induction rows as [|x rows IH]; [destruct Hvalid|].
    cbn in Hvalid. destruct (validRow x) eqn:Hx; [|destruct Hvalid].
    destruct Hvalid as [<-|H]; [assumption | now apply IH]. }
  apply validRow_bounds in Hv.
  unfold forwarded in Hrow.
  destruct (useDefaultStreamFields cp); [|discriminate Hrow].
  injection Hrow as _ <- <-.
  assert (Hlen : length (leadingFields row) = Z.to_nat (streamFieldsLen row)).
  { unfold leadingFields. rewrite length_firstn. lia. }
  split.
  - rewrite firstn_app, Nat.sub_diag, firstn_all. cbn. now rewrite app_nil_r.
  - rewrite length_app. lia.
Qed.

Lemma stream_fields_are_a_prefix_witness :
  [ {| Name := "service.name"; Value := "api" |} ] =
    firstn 1 [ {| Name := "service.name"; Value := "api" |};
               {| Name := "_msg"; Value := "hello" |} ] /\
  1 <= 2.
Proof.
  apply (stream_fields_are_a_prefix
           (exampleCollaborators None streamingDecoder)
           "/insert/opentelemetry/v1/logs"
           (exampleRequest [] [Byte.x01]) 1).
  cbn. repeat (first [left; reflexivity | right]).
Defined.

End OpentelemetryMore.

(** ** Flags and processes: what the harness guarantees *)

Module ApptestMore.
Import Apptest ApptestFacts ApptestStop.

(** *** [setDefaultFlags] *)

Lemma collectFlagNames_Ret flags : forall acc names,
  collectFlagNames flags acc = Ret names ->
  names = acc ++ map flagName flags /\ Forall wellFormedFlag flags.
Proof.
  induction flags as [|f flags IH]; intros acc names; cbn [collectFlagNames map].
  - intros [= <-]. now rewrite app_nil_r.
  - destruct (HasPrefix f "-") eqn:Hm; cbn [negb]; [|discriminate].
    destruct (IndexByte f "="%char) as [n|] eqn:He; [|discriminate].
    intros H. apply IH in H. destruct H as [-> Hwf].
    unfold flagName at 2. rewrite He, <- app_assoc. split; [reflexivity|].
    constructor; [|assumption].
    split; [now apply HasPrefix_minus | apply IndexByte_contains; eauto].
Qed.

Lemma appendDefaultFlags_Ret defaultFlags flagNames : forall flags out,
  appendDefaultFlags defaultFlags flagNames flags = Ret out ->
  out = flags ++ map defaultEntry
          (filter (fun d => negb (Contains flagNames (fst d))) defaultFlags) /\
  Forall (fun d => startsWithMinus (fst d)) defaultFlags.
Proof.
  induction defaultFlags as [|[name value] ds IH]; intros flags out;
    cbn [appendDefaultFlags filter map fst].
  - intros [= <-]. now rewrite app_nil_r.
  - destruct (HasPrefix name "-") eqn:Hm; cbn [negb]; [|discriminate].
    apply HasPrefix_minus in Hm.
    destruct (Contains flagNames name); cbn [negb map]; intros H;
      apply IH in H; destruct H as [-> Hd]; (split; [|constructor; assumption]).
    + reflexivity.
    + now rewrite <- app_assoc.
Qed.

(** What a successful call returned and that its arguments were well
    formed. *)
Lemma setDefaultFlags_Ret flags defaultFlags out :
  setDefaultFlags flags defaultFlags = Ret out ->
  out = flags ++ map defaultEntry (missingDefaults flags defaultFlags) /\
  Forall wellFormedFlag flags /\
  Forall (fun d => startsWithMinus (fst d)) defaultFlags.
Proof.
  unfold setDefaultFlags, missingDefaults.
  destruct (collectFlagNames flags []) as [names|p] eqn:Hc; [|discriminate].
  apply collectFlagNames_Ret in Hc. destruct Hc as [-> Hwf]. cbn [List.app].
  intros H. apply appendDefaultFlags_Ret in H. tauto.
Qed.

Lemma Contains_In xs x : Contains xs x = true <-> In x xs.
Proof.
  unfold Contains. rewrite existsb_exists. split.
  - intros (y & Hy & Heq). apply String.eqb_eq in Heq. now subst.
  - intros H. exists x. split; [assumption | apply String.eqb_refl].
Qed.

(** The name of an entry [name=value] is [name] when [name] has no ['=']. *)
Lemma IndexByte_append s t c :
  IndexByte s c = None ->
  IndexByte (s ++ String c t) c = Some (String.length s).
Proof.
  induction s as [|a s IH]; cbn [IndexByte String.length].
  - intros _. change ("" ++ String c t)%string with (String c t).
    cbn [IndexByte]. now rewrite Ascii.eqb_refl.
  - change (String a s ++ String c t)%string with (String a (s ++ String c t)).
    cbn [IndexByte]. destruct (Ascii.eqb a c); [discriminate|].
    destruct (IndexByte s c); [discriminate|]. intros _. now rewrite IH.
Qed.

Lemma substring_append s t : substring 0 (String.length s) (s ++ t) = s.
Proof.
  induction s as [|a s IH].
  - change ("" ++ t)%string with t. destruct t; reflexivity.
  - change (String a s ++ t)%string with (String a (s ++ t)).
    cbn [String.length substring]. now rewrite IH.
Qed.

Lemma flagName_defaultEntry name value :
  ~ containsEq name -> flagName (defaultEntry (name, value)) = name.
Proof.
  intros Hn. unfold flagName, defaultEntry. cbn [fst snd].
  assert (Hi : IndexByte name "="%char = None).
  { destruct (IndexByte name "="%char) eqn:E; [|reflexivity].
    exfalso. apply Hn. apply IndexByte_contains. eauto. }
  change (name ++ "=" ++ value)%string with (name ++ String "="%char value)%string.
  rewrite (IndexByte_append _ _ _ Hi). apply substring_append.
Qed.

Lemma wellFormedFlag_defaultEntry name value :
  startsWithMinus name -> wellFormedFlag (defaultEntry (name, value)).
Proof.
  intros [rest ->]. split.
  - exists (rest ++ "=" ++ value)%string. reflexivity.
  - apply IndexByte_contains. unfold defaultEntry. cbn [fst snd].
    destruct (IndexByte (String "-" rest) "="%char) as [n|] eqn:E.
    + clear -E. revert n E.
      generalize (String "-"%char rest) as s.
      induction s as [|a s IH]; intros n; cbn [IndexByte]; [discriminate|].
      change (String a s ++ "=" ++ value)%string
        with (String a (s ++ "=" ++ value)%string).
      cbn [IndexByte]. destruct (Ascii.eqb a "="); [eauto|].
      destruct (IndexByte s "="%char) as [m|]; [|discriminate].
      intros _. destruct (IH m eq_refl) as [k ->]. eauto.
    + change (String "-" rest ++ "=" ++ value)%string
        with (String "-" rest ++ String "="%char value)%string.
      rewrite (IndexByte_append _ _ _ E). eauto.
Qed.

(** X6.  When [setDefaultFlags] returns, every default flag is covered:
    an input flag has its name, or the entry [name=value] is in the result.
    Nothing else is added: a flag of the result is an input flag or the
    entry of a default whose name no input flag has. *)
Theorem setDefaultFlags_covers_defaults (flags : list string)
  (defaultFlags : list (string * string)) (out : list string) :
  setDefaultFlags flags defaultFlags = Ret out ->
  (forall name value, In (name, value) defaultFlags ->
     In name (map flagName flags) \/ In (name ++ "=" ++ value)%string out) /\
  (forall f, In f out ->
     In f flags \/
     exists name value, In (name, value) defaultFlags /\
       f = (name ++ "=" ++ value)%string /\ ~ In name (map flagName flags)).
Proof.
  intros H. apply setDefaultFlags_Ret in H. destruct H as (-> & _ & _).
  unfold missingDefaults. split.
  - intros name value Hin.
    destruct (Contains (map flagName flags) name) eqn:Hc.
    + left. now apply Contains_In.
    + right. apply in_or_app. right.
      apply (in_map defaultEntry _ (name, value)).
      apply filter_In. split; [assumption|]. cbn. now rewrite Hc.
  - intros f Hf. apply in_app_or in Hf. destruct Hf as [Hf|Hf]; [now left|].
    right. apply in_map_iff in Hf. destruct Hf as ([name value] & <- & Hd).
    apply filter_In in Hd. destruct Hd as [Hd Hc]. cbn in Hc.
    exists name, value. repeat split; [assumption|].
    intros Hin. apply Contains_In in Hin. rewrite Hin in Hc. discriminate.
Qed.

Lemma setDefaultFlags_covers_defaults_witness :
  (forall name value,
     In (name, value) [("-storageDataPath", "/tmp/vl"); ("-retentionPeriod", "100y")] ->
     In name (map flagName ["-retentionPeriod=1d"]) \/
     In (name ++ "=" ++ value)%string ["-retentionPeriod=1d"; "-storageDataPath=/tmp/vl"]) /\
  (forall f, In f ["-retentionPeriod=1d"; "-storageDataPath=/tmp/vl"] ->
     In f ["-retentionPeriod=1d"] \/
     exists name value,
       In (name, value) [("-storageDataPath", "/tmp/vl"); ("-retentionPeriod", "100y")] /\
       f = (name ++ "=" ++ value)%string /\
       ~ In name (map flagName ["-retentionPeriod=1d"])).
Proof.
  exact (setDefaultFlags_covers_defaults ["-retentionPeriod=1d"]
           [("-storageDataPath", "/tmp/vl"); ("-retentionPeriod", "100y")]
           ["-retentionPeriod=1d"; "-storageDataPath=/tmp/vl"] eq_refl).
Defined.

Lemma flagName_missingDefaults flags defaultFlags :
  (forall d, In d defaultFlags -> ~ containsEq (fst d)) ->
  map flagName (map defaultEntry (missingDefaults flags defaultFlags)) =
  map fst (missingDefaults flags defaultFlags).
Proof.
  intros Hd. unfold missingDefaults. rewrite map_map. apply map_ext_in.
  intros [name value] Hin. apply filter_In in Hin. destruct Hin as [Hin _].
  apply flagName_defaultEntry. exact (Hd _ Hin).
Qed.

Lemma missingDefaults_covered flags defaultFlags :
  (forall d, In d defaultFlags -> ~ containsEq (fst d)) ->
  missingDefaults (flags ++ map defaultEntry (missingDefaults flags defaultFlags))
    defaultFlags = [].
Proof.
  intros Hd. unfold missingDefaults at 1.
  rewrite map_app, flagName_missingDefaults by assumption.
  induction defaultFlags as [|d ds IH]; [reflexivity|].
  cbn [filter].
  assert (Hc : Contains (map flagName flags ++ map fst (missingDefaults flags (d :: ds)))
                 (fst d) = true).
  { apply Contains_In. apply in_or_app.
    destruct (Contains (map flagName flags) (fst d)) eqn:E.
    - left. now apply Contains_In.
    - right. apply in_map. unfold missingDefaults. apply filter_In.
      split; [now left | now rewrite E]. }
  rewrite Hc. cbn [negb].
  assert (Hext : forall x,
             In x ds ->
             negb (Contains (map flagName flags ++ map fst (missingDefaults flags (d :: ds))) (fst x)) =
             negb (Contains (map flagName flags ++ map fst (missingDefaults flags ds)) (fst x))).
  { intros x Hx. f_equal.
    assert (Hx1 : Contains (map flagName flags ++ map fst (missingDefaults flags ds)) (fst x) = true).
    { apply Contains_In. apply in_or_app.
      destruct (Contains (map flagName flags) (fst x)) eqn:E.
      - left. now apply Contains_In.
      - right. apply in_map. unfold missingDefaults. apply filter_In.
        split; [assumption | now rewrite E]. }
    rewrite Hx1. apply Contains_In. apply Contains_In in Hx1.
    apply in_app_or in Hx1. apply in_or_app. destruct Hx1 as [H|H]; [now left|].
    right. unfold missingDefaults in *. cbn [filter].
    destruct (negb (Contains (map flagName flags) (fst d))); [right|]; assumption. }
  rewrite (filter_ext_in _ _ _ Hext).
  apply IH. intros x Hx. apply Hd. now right.
Qed.

(** X7.  [setDefaultFlags] is idempotent for default names without ['=']:
    giving its result the same defaults again changes nothing. *)
Theorem setDefaultFlags_idempotent (flags : list string)
  (defaultFlags : list (string * string)) (out : list string) :
  (forall d, In d defaultFlags -> ~ containsEq (fst d)) ->
  setDefaultFlags flags defaultFlags = Ret out ->
  setDefaultFlags out defaultFlags = Ret out.
Proof.
  intros Hd H. apply setDefaultFlags_Ret in H. destruct H as (-> & Hwf & Hm).
  assert (Hout : Forall wellFormedFlag
                   (flags ++ map defaultEntry (missingDefaults flags defaultFlags))).
  { apply Forall_app. split; [assumption|].
    apply Forall_forall. intros f Hf. apply in_map_iff in Hf.
    destruct Hf as ([name value] & <- & Hin).
    apply wellFormedFlag_defaultEntry.
    unfold missingDefaults in Hin. apply filter_In in Hin.
    rewrite Forall_forall in Hm. exact (Hm _ (proj1 Hin)). }
  unfold setDefaultFlags.
  rewrite (collectFlagNames_wellFormed _ _ Hout). cbn [List.app].
  rewrite (appendDefaultFlags_wellFormed _ _ _ Hm).
  fold (missingDefaults (flags ++ map defaultEntry (missingDefaults flags defaultFlags))
          defaultFlags).
  rewrite missingDefaults_covered by assumption.
  cbn [map]. now rewrite app_nil_r.
Qed.

Lemma no_eq_in (name : string) :
  IndexByte name "="%char = None -> ~ containsEq name.
Proof.
  intros H Hc. apply IndexByte_contains in Hc. destruct Hc as [n Hn]. congruence.
Qed.

Lemma setDefaultFlags_idempotent_witness :
  setDefaultFlags ["-retentionPeriod=1d"; "-storageDataPath=/tmp/vl"]
    [("-storageDataPath", "/tmp/vl"); ("-retentionPeriod", "100y")] =
  Ret ["-retentionPeriod=1d"; "-storageDataPath=/tmp/vl"].
Proof.
  apply (setDefaultFlags_idempotent ["-retentionPeriod=1d"]).
  - intros d [<-|[<-|[]]]; apply no_eq_in; reflexivity.
  - reflexivity.
Defined.

Lemma NoDup_map_fst_filter {A B} (p : A * B -> bool) (l : list (A * B)) :
  NoDup (map fst l) -> NoDup (map fst (filter p l)).
Proof.
  induction l as [|x l IH]; cbn [map filter]; [auto|].
  intros H. inversion H as [|? ? Hx Hl]; subst.
  destruct (p x); [|now apply IH].
  cbn [map]. constructor; [|now apply IH].
  intros Hin. apply Hx. apply in_map_iff in Hin.
  destruct Hin as (y & Hy & Hin). apply filter_In in Hin.
  apply in_map_iff. exists y. tauto.
Qed.

(** X8.  [setDefaultFlags] never hands out a flag name twice: when the
    input flags have pairwise different names and the default names have no
    ['='], the flags of the result have pairwise different names. *)
Theorem setDefaultFlags_keeps_names_distinct (flags : list string)
  (defaultFlags : list (string * string)) (out : list string) :
  NoDup (map flagName flags) ->
  NoDup (map fst defaultFlags) ->
  (forall d, In d defaultFlags -> ~ containsEq (fst d)) ->
  setDefaultFlags flags defaultFlags = Ret out ->
  NoDup (map flagName out).
Proof.
  intros Hf Hn Hd H. apply setDefaultFlags_Ret in H. destruct H as (-> & _ & _).
  rewrite map_app, flagName_missingDefaults by assumption.
  apply NoDup_app.
  - assumption.
  - unfold missingDefaults. now apply NoDup_map_fst_filter.
  - intros name Hin Hmiss. unfold missingDefaults in Hmiss.
    apply in_map_iff in Hmiss. destruct Hmiss as (d & <- & Hdin).
    apply filter_In in Hdin. destruct Hdin as [_ Hc].
    apply Contains_In in Hin. rewrite Hin in Hc. discriminate.
Qed.

Lemma setDefaultFlags_keeps_names_distinct_witness :
  NoDup (map flagName ["-retentionPeriod=1d"; "-storageDataPath=/tmp/vl"]).
Proof.
  apply (setDefaultFlags_keeps_names_distinct ["-retentionPeriod=1d"]
           [("-storageDataPath", "/tmp/vl"); ("-retentionPeriod", "100y")]).
  - repeat constructor. intros [].
  - repeat constructor; cbn; intuition discriminate.
  - intros d [<-|[<-|[]]]; apply no_eq_in; reflexivity.
  - reflexivity.
Defined.

(** *** Starting a single node *)

#[local] Open Scope test_scope.

(** The two rounds of defaults a flag list goes through before
    [MustStartVlsingle] starts the process with it. *)
Lemma MustStartVlsingle_flags_inv os inst fl st s st' :
  MustStartVlsingle os inst fl st = inr (s, st') ->
  exists fl1 fl2,
    setDefaultFlags fl
      (rangeOrder os
         [("-storageDataPath",
           (TempDir os ++ "/" ++ inst ++ "-" ++
            itoa (UnixNano os (length (started st))))%string);
          ("-retentionPeriod", "100y")]) = Ret fl1 /\
    setDefaultFlags fl1 [("-httpListenAddr", "127.0.0.1:0")] = Ret fl2 /\
    flags (node_app (node s)) = fl2.
Proof.
  unfold MustStartVlsingle, bind, lift.
  destruct (setDefaultFlags fl _) as [fl1|p] eqn:E1; [|discriminate].
  unfold ret at 1.
  destruct (mustStartVlnode os inst fl1 _ st) as [e|[[n ex] st1]] eqn:E; [discriminate|].
  apply mustStartVlnode_inv in E. destruct E as (fl2 & H2 & Hn & _ & _).
  destruct ex as [|e0 ex]; [discriminate|].
  unfold ret. intros [= <- <-]. exists fl1, fl2. cbn [node]. rewrite Hn. cbn. auto.
Qed.

Lemma missingDefaults_In flags defaultFlags f :
  In f (map defaultEntry (missingDefaults flags defaultFlags)) ->
  exists d, In d defaultFlags /\ f = defaultEntry d /\
            ~ In (fst d) (map flagName flags).
Proof.
  intros H. apply in_map_iff in H. destruct H as (d & <- & Hd).
  unfold missingDefaults in Hd. apply filter_In in Hd. destruct Hd as [Hd Hc].
  exists d. split; [assumption|]. split; [reflexivity|].
  intros Hin. apply Contains_In in Hin. rewrite Hin in Hc. discriminate.
Qed.

Lemma setDefaultFlags_names flags defaultFlags d :
  ~ containsEq (fst d) ->
  In d defaultFlags ->
  In (fst d) (map flagName (flags ++ map defaultEntry (missingDefaults flags defaultFlags))).
Proof.
  intros He Hd. rewrite map_app. apply in_or_app.
  destruct (Contains (map flagName flags) (fst d)) eqn:E.
  - left. now apply Contains_In.
  - right. apply in_map_iff. exists (defaultEntry d). split.
    + destruct d as [name value]. now apply flagName_defaultEntry.
    + apply in_map. unfold missingDefaults. apply filter_In. now rewrite E.
Qed.

(** X9.  The process of a node that [MustStartVlsingle] started runs with
    the caller's flags, unchanged and first, followed only by defaults the
    caller did not set: [-storageDataPath] under the temporary directory,
    [-retentionPeriod=100y] and [-httpListenAddr=127.0.0.1:0].  Each of the
    three names is set in the result. *)
Theorem MustStartVlsingle_flags (os : OS) (inst : string) (fl : list string)
  (st : TestState) (s : Vlsingle) (st' : TestState) :
  MustStartVlsingle os inst fl st = inr (s, st') ->
  exists added,
    flags (node_app (node s)) = fl ++ added /\
    (forall name,
       In name ["-storageDataPath"; "-retentionPeriod"; "-httpListenAddr"] ->
       In name (map flagName (fl ++ added))) /\
    (forall f, In f added ->
       In f [("-storageDataPath=" ++ TempDir os ++ "/" ++ inst ++ "-" ++
              itoa (UnixNano os (length (started st))))%string;
             "-retentionPeriod=100y"; "-httpListenAddr=127.0.0.1:0"] /\
       ~ In (flagName f) (map flagName fl)).
Proof.
  intros H. apply MustStartVlsingle_flags_inv in H.
  destruct H as (fl1 & fl2 & H1 & H2 & ->).
  set (path := (TempDir os ++ "/" ++ inst ++ "-" ++
                itoa (UnixNano os (length (started st))))%string) in *.
  set (D1 := rangeOrder os [("-storageDataPath", path); ("-retentionPeriod", "100y")]) in *.
  assert (HD1 : forall d, In d D1 ->
            d = ("-storageDataPath", path) \/ d = ("-retentionPeriod", "100y")).
  { intros d Hd. apply (Permutation_in _ (rangeOrder_perm os _)) in Hd.
    destruct Hd as [<-|[<-|[]]]; auto. }
  apply setDefaultFlags_Ret in H1. destruct H1 as (-> & _ & _).
  apply setDefaultFlags_Ret in H2. destruct H2 as (-> & _ & _).
  set (A1 := map defaultEntry (missingDefaults fl D1)).
  set (A2 := map defaultEntry
               (missingDefaults (fl ++ A1) [("-httpListenAddr", "127.0.0.1:0")])).
  exists (A1 ++ A2). split; [now rewrite app_assoc|]. split.
  - intros name Hn. rewrite app_assoc.
    destruct Hn as [<-|[<-|[<-|[]]]].
    + rewrite map_app. apply in_or_app. left.
      apply (setDefaultFlags_names fl D1 ("-storageDataPath", path)).
      * apply no_eq_in. reflexivity.
      * apply (Permutation_in _ (Permutation_sym (rangeOrder_perm os _))). now left.
    + rewrite map_app. apply in_or_app. left.
      apply (setDefaultFlags_names fl D1 ("-retentionPeriod", "100y")).
      * apply no_eq_in. reflexivity.
      * apply (Permutation_in _ (Permutation_sym (rangeOrder_perm os _))). right. now left.
    + apply (setDefaultFlags_names (fl ++ A1) _ ("-httpListenAddr", "127.0.0.1:0")).
      * apply no_eq_in. reflexivity.
      * now left.
  - intros f Hf. apply in_app_or in Hf. destruct Hf as [Hf|Hf].
    + apply missingDefaults_In in Hf. destruct Hf as (d & Hd & -> & Hno).
      apply HD1 in Hd. destruct Hd as [-> | ->].
      * split; [now left|].
        rewrite flagName_defaultEntry by (apply no_eq_in; reflexivity). exact Hno.
      * split; [right; now left|]. exact Hno.
    + apply missingDefaults_In in Hf. destruct Hf as (d & Hd & -> & Hno).
      destruct Hd as [<-|[]]. split; [right; right; now left|].
      intros Hin. apply Hno. rewrite map_app. apply in_or_app. now left.
Qed.

Lemma MustStartVlsingle_flags_witness :
  exists s st' added,
    MustStartVlsingle os0 "vlsingle" ["-retentionPeriod=1d"] {| started := [] |} =
      inr (s, st') /\
    flags (node_app (node s)) = ["-retentionPeriod=1d"] ++ added /\
    added = ["-storageDataPath=/tmp/vlsingle-1735693200000000000";
             "-httpListenAddr=127.0.0.1:0"].
Proof.
  destruct (MustStartVlsingle os0 "vlsingle" ["-retentionPeriod=1d"] {| started := [] |})
    as [e|[s st']] eqn:E; [vm_compute in E; discriminate E|].
  exists s, st'.
  destruct (MustStartVlsingle_flags os0 "vlsingle" ["-retentionPeriod=1d"]
              {| started := [] |} s st' E) as (added & Hfl & _ & _).
  exists added. split; [reflexivity|]. split; [exact Hfl|].
  vm_compute in E. injection E as <- <-. cbn in Hfl. now injection Hfl as <-.
Defined.

(** X10.  A storage flag without the leading ['-'] or without ['='] stops
    [MustStartVlsingle] and [MustStartVlcluster] with the panic of
    [setDefaultFlags] that names the flag, whatever the operating system
    does: no process is started for it. *)
Theorem malformed_flag_starts_nothing (os : OS) (inst : string)
  (fl : list string) (st : TestState) :
  Exists (fun f => ~ wellFormedFlag f) fl ->
  exists f p,
    In f fl /\ ~ wellFormedFlag f /\
    (p = BUG_flag_must_start_with_minus f \/ p = BUG_cannot_find_eq_in_the_flag f) /\
    MustStartVlsingle os inst fl st = inl (Panicked p) /\
    MustStartVlcluster os inst fl st = inl (Panicked p).
Proof.
  intros H.
  assert (Hs : exists f p, In f fl /\ ~ wellFormedFlag f /\
               (p = BUG_flag_must_start_with_minus f \/
                p = BUG_cannot_find_eq_in_the_flag f) /\
               collectFlagNames fl [] = Panic p).
  { destruct (collectFlagNames_panics fl [] H) as (f & Hin & Hbad & [Hp|Hp]);
      exists f; eexists; (split; [exact Hin|]); (split; [exact Hbad|]);
      rewrite Hp; eauto. }
  destruct Hs as (f & p & Hin & Hbad & Hp & Hc).
  exists f, p. repeat (split; [assumption|]).
  assert (Hsingle : forall inst' st0, MustStartVlsingle os inst' fl st0 = inl (Panicked p)).
  { intros inst' st0. unfold MustStartVlsingle, bind, lift, setDefaultFlags.
    rewrite Hc. reflexivity. }
  split; [apply Hsingle|].
  unfold MustStartVlcluster. cbn [startStorageNodes]. unfold bind.
  rewrite Hsingle. reflexivity.
Qed.

Lemma malformed_flag_starts_nothing_witness :
  exists f p,
    In f ["-retentionPeriod=1d"; "loggerLevel=INFO"] /\ ~ wellFormedFlag f /\
    (p = BUG_flag_must_start_with_minus f \/ p = BUG_cannot_find_eq_in_the_flag f) /\
    MustStartVlsingle os0 "vlsingle" ["-retentionPeriod=1d"; "loggerLevel=INFO"]
      {| started := [] |} = inl (Panicked p) /\
    MustStartVlcluster os0 "vlsingle" ["-retentionPeriod=1d"; "loggerLevel=INFO"]
      {| started := [] |} = inl (Panicked p).
Proof.
  apply (malformed_flag_starts_nothing os0 "vlsingle"
           ["-retentionPeriod=1d"; "loggerLevel=INFO"] {| started := [] |}).
  apply Exists_cons_tl, Exists_cons_hd. intros [[rest Hm] _]. discriminate Hm.
Defined.

(** *** Stopping *)

(** The processes of a cluster, in the order in which they were started. *)
Definition processes (c : Vlcluster) : list app :=
  map (fun s => node_app (node s)) (storageNodes c) ++
  [node_app (insertNode c); node_app (selectNode c)].

(** A process that takes the signal and terminates. *)
Definition stops (sg : Signals) (a : app) : Prop :=
  Signal sg a = true /\ Wait sg a = true.

(** What [app.Stop] ends the test binary with on a process that does not
    stop. *)
Definition stopError (sg : Signals) (a : app) : stopFailure :=
  if Signal sg a then Could_not_wait_for_completion (instance a)
  else Could_not_send_SIGINT (instance a).

(** [Vlcluster.Stop] as a walk over [processes]. *)
Fixpoint stopAll (sg : Signals) (apps : list app) (stopped : list app)
  : stopFailure + list app :=
  match apps with
  | [] => inr stopped
  | a :: rest =>
      match app_Stop sg a stopped with
      | inl e => inl e
      | inr stopped' => stopAll sg rest stopped'
      end
  end.

Lemma stopStorageNodes_stopAll sg nodes : forall stopped,
  stopStorageNodes sg nodes stopped =
  stopAll sg (map (fun s => node_app (node s)) nodes) stopped.
Proof.
  induction nodes as [|n nodes IH]; intros stopped; cbn [stopStorageNodes stopAll map].
  - reflexivity.
  - unfold Vlsingle_Stop. destruct (app_Stop sg _ stopped); [reflexivity | apply IH].
Qed.

Lemma stopAll_app sg xs ys : forall stopped,
  stopAll sg (xs ++ ys) stopped =
  match stopAll sg xs stopped with
  | inl e => inl e
  | inr stopped' => stopAll sg ys stopped'
  end.
Proof.
  induction xs as [|x xs IH]; intros stopped; cbn [stopAll List.app]; [reflexivity|].
  destruct (app_Stop sg x stopped); [reflexivity | apply IH].
Qed.

Lemma Vlcluster_Stop_stopAll sg c stopped :
  Vlcluster_Stop sg c stopped = stopAll sg (processes c) stopped.
Proof.
  unfold Vlcluster_Stop, processes.
  rewrite stopAll_app, stopStorageNodes_stopAll.
  destruct (stopAll sg _ stopped) as [e|stopped1]; [reflexivity|].
  cbn [stopAll]. destruct (app_Stop sg _ stopped1); [reflexivity|].
  destruct (app_Stop sg _ _); reflexivity.
Qed.

Lemma stopAll_spec sg apps : forall stopped,
  (Forall (stops sg) apps /\ stopAll sg apps stopped = inr (stopped ++ apps)) \/
  (exists before a after,
      apps = before ++ a :: after /\ Forall (stops sg) before /\ ~ stops sg a /\
      stopAll sg apps stopped = inl (stopError sg a)).
Proof.
  induction apps as [|a apps IH]; intros stopped; cbn [stopAll].
  - left. split; [constructor | now rewrite app_nil_r].
  - unfold app_Stop, stopError.
    destruct (Signal sg a) eqn:Hs; cbn [negb].
    + destruct (Wait sg a) eqn:Hw; cbn [negb].
      * destruct (IH (stopped ++ [a])) as [[Hall Hr]|(before & b & after & -> & Hb & Hnb & Hr)].
        -- left. split; [constructor; [split|]; assumption|].
           rewrite Hr, <- app_assoc. reflexivity.
        -- right. exists (a :: before), b, after. split; [reflexivity|].
           split; [constructor; [split|]; assumption|]. split; assumption.
      * right. exists [], a, apps. split; [reflexivity|]. split; [constructor|].
        split; [intros [_ Hw']; congruence|]. rewrite Hs. reflexivity.
    + right. exists [], a, apps. split; [reflexivity|]. split; [constructor|].
      split; [intros [Hs' _]; congruence|]. rewrite Hs. reflexivity.
Qed.

(** X11.  [Vlcluster.Stop] walks the processes of the cluster in the order
    storage nodes, insert node, select node.  Either every process stops
    and all of them have terminated afterwards, in that order; or the walk
    ends at the first process that does not stop, with the [log.Fatalf]
    that names its instance, and the processes after it are never
    signalled. *)
Theorem Vlcluster_Stop_spec (sg : Signals) (c : Vlcluster) (stopped : list app) :
  (Forall (stops sg) (processes c) /\
   Vlcluster_Stop sg c stopped = inr (stopped ++ processes c)) \/
  (exists before a after,
      processes c = before ++ a :: after /\
      Forall (stops sg) before /\ ~ stops sg a /\
      Vlcluster_Stop sg c stopped = inl (stopError sg a) /\
      forall sg',
        (forall b, In b (before ++ [a]) -> Signal sg' b = Signal sg b /\ Wait sg' b = Wait sg b) ->
        Vlcluster_Stop sg' c stopped = inl (stopError sg a)).
Proof.
  rewrite Vlcluster_Stop_stopAll.
  destruct (stopAll_spec sg (processes c) stopped)
    as [H|(before & a & after & Hp & Hb & Ha & Hr)]; [now left|].
  right. exists before, a, after. repeat (split; [assumption|]).
  intros sg' Hsame. rewrite Vlcluster_Stop_stopAll, Hp.
  assert (Hb' : Forall (stops sg') before).
  { apply Forall_forall. intros b Hin. rewrite Forall_forall in Hb.
    destruct (Hb b Hin) as [H1 H2].
    destruct (Hsame b (in_or_app _ _ _ (or_introl Hin))) as [E1 E2].
    split; congruence. }
  destruct (Hsame a (in_or_app _ [a] _ (or_intror (or_introl eq_refl)))) as [E1 E2].
  assert (Ha' : ~ stops sg' a).
  { intros [H1 H2]. apply Ha. split; congruence. }
  destruct (stopAll_spec sg' (before ++ a :: after) stopped)
    as [[Hall _]|(before' & a' & after' & Hp' & Hb'' & Ha'' & Hr')].
  - apply Forall_app in Hall. destruct Hall as [_ Hall].
    inversion Hall; subst. contradiction.
  - rewrite Hr'. f_equal.
    assert (Heq : before' = before /\ a' = a).
    { clear - Hp' Hb' Ha' Hb'' Ha''. revert before' Hp' Hb''.
      induction before as [|b before IH]; intros [|b' before'] Hp' Hb''; cbn in Hp'.
      - injection Hp' as -> _. auto.
      - injection Hp' as -> _. inversion Hb''; subst. contradiction.
      - injection Hp' as <- _. inversion Hb'; subst. contradiction.
      - injection Hp' as <- Hp'. inversion Hb'; subst. inversion Hb''; subst.
        destruct (IH H2 before' Hp' H4) as [-> ->]. auto. }
    destruct Heq as [_ ->]. unfold stopError. now rewrite E1.
Qed.

Lemma MustStartVlcluster_started os inst fl st c st' :
  MustStartVlcluster os inst fl st = inr (c, st') ->
  started st' = started st ++ processes c /\ length (storageNodes c) = 3.
Proof.
  unfold MustStartVlcluster. unfold bind at 1.
  destruct (startStorageNodes os inst fl 3 0 [] st) as [e|[nodes st1]] eqn:E;
    [discriminate|].
  apply startStorageNodes_inv in E.
  destruct E as (new & -> & Hlen & Hst1 & _ & _).
  cbn [List.app]. unfold bind at 1.
  destruct (mustStartVlnode os _ _ [] st1) as [e|[[ins ex1] st2]] eqn:Ei; [discriminate|].
  apply mustStartVlnode_inv in Ei. destruct Ei as (fi & _ & _ & _ & Hst2).
  unfold bind at 1.
  destruct (mustStartVlnode os _ _ [] st2) as [e|[[sel ex2] st3]] eqn:Es; [discriminate|].
  apply mustStartVlnode_inv in Es. destruct Es as (fs & _ & _ & _ & Hst3).
  unfold ret. intros [= <- <-]. unfold processes.
  cbn [storageNodes insertNode selectNode]. split; [|assumption].
  rewrite Hst3, Hst2, Hst1, <- !app_assoc. reflexivity.
Qed.

(** X12.  Stopping a cluster undoes starting it: the processes that
    [MustStartVlcluster] added to the running ones are five, and when each
    of them takes the signal and terminates, [Vlcluster.Stop] stops exactly
    these five, in the order in which they were started. *)
Theorem Stop_stops_the_started_cluster (os : OS) (sg : Signals) (inst : string)
  (fl : list string) (st : TestState) (c : Vlcluster) (st' : TestState) :
  MustStartVlcluster os inst fl st = inr (c, st') ->
  Forall (stops sg) (processes c) ->
  length (processes c) = 5 /\
  started st' = started st ++ processes c /\
  forall stopped, Vlcluster_Stop sg c stopped = inr (stopped ++ processes c).
Proof.
  intros H Hok. apply MustStartVlcluster_started in H. destruct H as [Hst Hlen].
  split; [|split; [assumption|]].
  - unfold processes. rewrite length_app, length_map, Hlen. reflexivity.
  - intros stopped. rewrite Vlcluster_Stop_stopAll.
    destruct (stopAll_spec sg (processes c) stopped)
      as [[_ Hr]|(before & a & after & Hp & _ & Ha & _)]; [assumption|].
    exfalso. apply Ha. rewrite Forall_forall in Hok. apply Hok.
    rewrite Hp. apply in_or_app. right. now left.
Qed.

(** Every process takes the signal and terminates. *)
Definition sg0 : Signals := {| Signal := fun _ => true; Wait := fun _ => true |}.

Lemma Stop_stops_the_started_cluster_witness :
  exists c st',
    MustStartVlcluster os0 "vlcluster" [] {| started := [] |} = inr (c, st') /\
    length (processes c) = 5 /\
    started st' = processes c /\
    Vlcluster_Stop sg0 c [] = inr (processes c).
Proof.
  destruct (MustStartVlcluster os0 "vlcluster" [] {| started := [] |})
    as [e|[c st']] eqn:E; [vm_compute in E; discriminate E|].
  exists c, st'. split; [reflexivity|].
  destruct (Stop_stops_the_started_cluster os0 sg0 "vlcluster" [] {| started := [] |} c st' E)
    as (Hlen & Hst & Hstop).
  - apply Forall_forall. intros a _. split; reflexivity.
  - split; [exact Hlen|]. split; [exact Hst|]. exact (Hstop []).
Defined.

(** *** How starting a node ends *)

Lemma collectFlagNames_Panic flags : forall acc p,
  collectFlagNames flags acc = Panic p ->
  exists f, In f flags /\ ~ wellFormedFlag f /\
    (p = BUG_flag_must_start_with_minus f \/ p = BUG_cannot_find_eq_in_the_flag f).
Proof.
  induction flags as [|f flags IH]; intros acc p; cbn [collectFlagNames]; [discriminate|].
  destruct (HasPrefix f "-") eqn:Hm; cbn [negb].
  - destruct (IndexByte f "="%char) as [n|] eqn:He.
    + intros H. apply IH in H. destruct H as (g & Hin & Hg). exists g.
      split; [now right | exact Hg].
    + intros [= <-]. exists f. split; [now left|]. split; [|now right].
      intros [_ Hc]. now apply (no_eq_in f He).
  - intros [= <-]. exists f. split; [now left|]. split; [|now left].
    intros [Hs _]. apply HasPrefix_minus in Hs. congruence.
Qed.

Lemma appendDefaultFlags_Panic defaultFlags flagNames : forall flags p,
  appendDefaultFlags defaultFlags flagNames flags = Panic p ->
  exists name, In name (map fst defaultFlags) /\ ~ startsWithMinus name /\
    p = BUG_default_flag_name_must_start_with_minus name.
Proof.
  induction defaultFlags as [|[name value] ds IH]; intros flags p;
    cbn [appendDefaultFlags map fst]; [discriminate|].
  destruct (HasPrefix name "-") eqn:Hm; cbn [negb].
  - intros H. assert (Hex : exists n, In n (map fst ds) /\ ~ startsWithMinus n /\
                       p = BUG_default_flag_name_must_start_with_minus n).
    { destruct (Contains flagNames name); cbn [negb] in H; now apply IH in H. }
    destruct Hex as (n & Hin & Hn). exists n. split; [now right | exact Hn].
  - intros [= <-]. exists name. split; [now left|]. split; [|reflexivity].
    intros Hs. apply HasPrefix_minus in Hs. congruence.
Qed.

Lemma setDefaultFlags_wellFormed_Ret flags defaultFlags :
  Forall wellFormedFlag flags ->
  Forall (fun d => startsWithMinus (fst d)) defaultFlags ->
  setDefaultFlags flags defaultFlags =
  Ret (flags ++ map defaultEntry (missingDefaults flags defaultFlags)).
Proof.
  intros Hf Hd. unfold setDefaultFlags, missingDefaults.
  rewrite (collectFlagNames_wellFormed _ _ Hf). cbn [List.app].
  now apply appendDefaultFlags_wellFormed.
Qed.

(** X25.  How [MustStartVlsingle] ends.  When it returns, the process
    was started with the flags of the node, and the node has the address
    and the data path which that process logged, each under its own regular
    expression, with the metrics URL on that address.  It panics only on a
    malformed flag of the caller; it fails with "cannot start" only when
    the process does not start, and with "cannot extract" only when the
    log of the started process lacks the address or the data path.  The
    index expressions on the extracts never go out of range. *)
Theorem MustStartVlsingle_outcome (os : OS) (inst : string) (fl : list string)
  (st : TestState) :
  match MustStartVlsingle os inst fl st with
  | inr (s, st') =>
      exists log,
        spawn os (length (started st)) "../../bin/victoria-logs"
          (flags (node_app (node s))) = Some log /\
        log httpListenAddrRE = Some (httpListenAddr (node s)) /\
        log logsStorageDataPathRE = Some (storageDataPath s) /\
        metricsURL (node s) = ("http://" ++ httpListenAddr (node s) ++ "/metrics")%string /\
        started st' = started st ++ [node_app (node s)]
  | inl (Panicked p) =>
      exists f, In f fl /\ ~ wellFormedFlag f /\
        (p = BUG_flag_must_start_with_minus f \/ p = BUG_cannot_find_eq_in_the_flag f)
  | inl (Fatalf_cannot_start i b fs) =>
      i = inst /\ b = "../../bin/victoria-logs"%string /\
      spawn os (length (started st)) b fs = None
  | inl (Fatalf_cannot_extract res i b fs) =>
      res = [httpListenAddrRE; logsStorageDataPathRE] /\
      i = inst /\ b = "../../bin/victoria-logs"%string /\
      exists log,
        spawn os (length (started st)) b fs = Some log /\
        (log httpListenAddrRE = None \/ log logsStorageDataPathRE = None)
  end.
Proof.
  unfold MustStartVlsingle, bind, lift.
  set (D1 := rangeOrder os _).
  assert (HD1 : Forall (fun d => startsWithMinus (fst d)) D1).
  { apply Forall_forall. intros d Hd.
    apply (Permutation_in _ (rangeOrder_perm os _)) in Hd.
    destruct Hd as [<-|[<-|[]]]; eexists; reflexivity. }
  destruct (setDefaultFlags fl D1) as [fl1|p] eqn:E1.
  - apply setDefaultFlags_Ret in E1. destruct E1 as (-> & Hwf & _).
    unfold ret at 1. unfold mustStartVlnode, bind, lift.
    rewrite setDefaultFlags_wellFormed_Ret.
    + unfold ret at 1. unfold mustStartApp. cbn [List.app].
      destruct (spawn os _ _ _) as [log|] eqn:Es; [|auto].
      cbn [extractREMatches].
      destruct (log httpListenAddrRE) as [addr|] eqn:Ea;
        [|repeat split; exists log; auto].
      destruct (log logsStorageDataPathRE) as [path|] eqn:Ep;
        [|repeat split; exists log; auto].
      unfold ret. cbn [node node_app flags httpListenAddr metricsURL storageDataPath started].
      exists log. auto.
    + apply Forall_app. split; [assumption|].
      apply Forall_forall. intros f Hf. apply in_map_iff in Hf.
      destruct Hf as ([name value] & <- & Hin).
      apply wellFormedFlag_defaultEntry.
      unfold missingDefaults in Hin. apply filter_In in Hin.
      rewrite Forall_forall in HD1. exact (HD1 _ (proj1 Hin)).
    + constructor; [eexists; reflexivity | constructor].
  - unfold fail. unfold setDefaultFlags in E1.
    destruct (collectFlagNames fl []) as [names|q] eqn:Ec.
    + apply appendDefaultFlags_Panic in E1. destruct E1 as (name & Hin & Hno & _).
      exfalso. apply Hno. apply in_map_iff in Hin. destruct Hin as (d & <- & Hd).
      rewrite Forall_forall in HD1. now apply HD1.
    + injection E1 as <-. now apply collectFlagNames_Panic in Ec.
Qed.

End ApptestMore.

(** ** The parsed query response: how parsing fails *)

Module ModelMore.
Import stdpp.base stdpp.gmap stdpp.strings.
Import Model ModelFacts.

(** [parsesUpTo J s rest]: [s] starts with lines that decode and encode
    again, and [rest] is what follows them. *)
Inductive parsesUpTo (J : JSON) : string -> string -> Prop :=
| upTo_here s : parsesUpTo J s s
| upTo_line line lv out s rest :
    isLine line ->
    Unmarshal J line = Some lv ->
    Marshal J (delete "_stream_id" lv) = Some out ->
    parsesUpTo J s rest ->
    parsesUpTo J (line ++ s)%string rest.

(** What the helper calls [t.Fatalf] with when [rest] is what it has not
    read yet: text without a final newline, a line that does not decode,
    or a line whose object does not encode. *)
Definition failsAt (J : JSON) (rest : string) (f : fatal) : Prop :=
  (rest <> ""%string /\ IndexByte rest newline = None /\
   f = BUG_unexpected_non_empty_line_with_EOF rest) \/
  (exists line rest', isLine line /\ rest = (line ++ rest')%string /\
     ((Unmarshal J line = None /\ f = cannot_parse_log_line line) \/
      (exists lv, Unmarshal J line = Some lv /\
                  Marshal J (delete "_stream_id" lv) = None /\
                  f = cannot_marshal_parsed_logline line))).

Lemma length_zero (s : string) : (0 <? String.length s)%nat = false -> s = ""%string.
Proof. destruct s; [reflexivity | discriminate]. Qed.

Lemma readLogLines_Fatalf_inv J : forall n s acc f,
  String.length s <= n ->
  readLogLines J s acc = Fatalf f ->
  exists rest, parsesUpTo J s rest /\ failsAt J rest f.
Proof.
  induction n as [|n IH]; intros s acc f Hn; rewrite readLogLines_unfold;
    destruct (ReadString s newline) as [[line rest] eof] eqn:Hr; destruct eof.
  1,3: apply ReadString_true in Hr; destruct Hr as [-> Hs];
    destruct (0 <? String.length s)%nat eqn:E; [|discriminate];
    intros [= <-]; exists s; (split; [constructor|]); left;
    (split; [intros ->; discriminate E | auto]).
  - apply ReadString_consumes in Hr. lia.
  - pose proof (ReadString_consumes _ _ _ _ Hr) as Hlt.
    pose proof (ReadString_false _ _ _ _ Hr) as (body & Hline & Hb & Hs).
    assert (Hl : isLine line) by (exists body; auto).
    destruct (Unmarshal J line) as [lv|] eqn:Hu.
    + destruct (Marshal J (delete "_stream_id" lv)) as [out|] eqn:Hm.
      * intros H. apply IH in H; [|lia]. destruct H as (rest' & Hp & Hf).
        exists rest'. split; [|assumption]. rewrite Hs. econstructor; eassumption.
      * intros [= <-]. exists s. split; [constructor|]. right.
        exists line, rest. split; [assumption|]. split; [assumption|]. right. eauto.
    + intros [= <-]. exists s. split; [constructor|]. right.
      exists line, rest. split; [assumption|]. split; [assumption|]. left. auto.
Qed.

Lemma readLogLines_failsAt J rest f acc :
  failsAt J rest f -> readLogLines J rest acc = Fatalf f.
Proof.
  rewrite readLogLines_unfold.
  intros [(Hne & Hidx & ->)|(line & rest' & (body & -> & Hb) & -> & Hf)].
  - destruct (ReadString rest newline) as [[l r] eof] eqn:Hr. destruct eof.
    + apply ReadString_true in Hr. destruct Hr as [-> _].
      destruct rest; [congruence | reflexivity].
    + apply ReadString_false in Hr. destruct Hr as (body & -> & _ & ->).
      rewrite app_line_rest in Hidx. now apply IndexByte_app_line in Hidx.
  - rewrite app_line_rest, (ReadString_line _ _ _ Hb).
    destruct Hf as [[Hu ->]|(lv & Hu & Hm & ->)]; rewrite Hu; [reflexivity|].
    now rewrite Hm.
Qed.

Lemma readLogLines_parsesUpTo J s rest f :
  parsesUpTo J s rest -> failsAt J rest f ->
  forall acc, readLogLines J s acc = Fatalf f.
Proof.
  intros Hp Hf. induction Hp as [s|line lv out s rest (body & -> & Hb) Hu Hm Hp IH];
    intros acc.
  - now apply readLogLines_failsAt.
  - rewrite readLogLines_unfold, app_line_rest, (ReadString_line _ _ _ Hb), Hu, Hm.
    apply IH, Hf.
Qed.

Lemma failsAt_nonempty J rest f : failsAt J rest f -> rest <> ""%string.
Proof.
  intros [(Hne & _)|(line & rest' & (body & -> & _) & -> & _)]; [assumption|].
  rewrite app_line_rest. destruct body; discriminate.
Qed.

Lemma parsesUpTo_nonempty J s rest :
  parsesUpTo J s rest -> rest <> ""%string -> s <> ""%string.
Proof.
  intros Hp Hne. destruct Hp as [s|line lv out s rest (body & -> & _) _ _ _];
    [assumption|].
  rewrite app_line_rest. destruct body; discriminate.
Qed.

(** X24.  [NewLogsQLQueryResponse] fails the test exactly when, after
    lines that decode and encode again, there comes a line that does not
    decode, a line whose object does not encode, or text without a final
    newline; the failure names that first offending line.  In particular a
    body whose last line lacks the newline is rejected even if that line
    is valid. *)
Theorem NewLogsQLQueryResponse_failure (J : JSON) (s : string) (f : fatal) :
  NewLogsQLQueryResponse J s = Fatalf f <->
  exists rest, parsesUpTo J s rest /\ failsAt J rest f.
Proof.
  unfold NewLogsQLQueryResponse. split.
  - destruct (String.length s =? 0)%nat; [discriminate|].
    apply (readLogLines_Fatalf_inv J (String.length s)). lia.
  - intros (rest & Hp & Hf).
    pose proof (parsesUpTo_nonempty _ _ _ Hp (failsAt_nonempty _ _ _ Hf)) as Hne.
    destruct s as [|a s]; [congruence|]. cbn [String.length Nat.eqb].
    now apply (readLogLines_parsesUpTo J _ rest).
Qed.

End ModelMore.

(** ** Request options: what reaches the server *)

Module OptsFacts.
Import stdpp.base stdpp.gmap stdpp.strings.
Import URL Opts.

(** The values [addNonEmpty] keeps. *)
Definition nonEmpty (values : list string) : list string :=
  List.filter (fun value => negb (String.eqb value "")) values.

(** No key without a value and no empty value. *)
Definition noEmptyParameter (uv : Values) : Prop :=
  forall k vs, uv !! k = Some vs -> vs <> [] /\ Forall (fun v => v <> ""%string) vs.

Lemma Add_lookup (uv : Values) key value k :
  Add uv key value !! k =
  if decide (k = key) then Some (default [] (uv !! key) ++ [value]) else uv !! k.
Proof.
  unfold Add. destruct (decide (k = key)) as [->|Hne].
  - apply lookup_insert_eq.
  - now apply lookup_insert_ne.
Qed.

Lemma addNonEmpty_lookup_ne values : forall (uv : Values) name k,
  k <> name -> addNonEmpty uv name values !! k = uv !! k.
Proof.
  induction values as [|v values IH]; intros uv name k Hne; cbn [addNonEmpty].
  - reflexivity.
  - rewrite IH by assumption. destruct (negb (String.eqb v "")); [|reflexivity].
    rewrite Add_lookup. now destruct (decide (k = name)).
Qed.

Lemma addNonEmpty_lookup_eq values : forall (uv : Values) name,
  addNonEmpty uv name values !! name =
  match nonEmpty values with
  | [] => uv !! name
  | vs => Some (default [] (uv !! name) ++ vs)
  end.
Proof.
  induction values as [|v values IH]; intros uv name; cbn [addNonEmpty nonEmpty List.filter].
  - reflexivity.
  - fold (nonEmpty values). rewrite IH.
    destruct (negb (String.eqb v "")).
    + rewrite Add_lookup. destruct (decide (name = name)) as [_|]; [|congruence].
      destruct (nonEmpty values) as [|w ws]; simpl.
      * reflexivity.
      * now rewrite <- List.app_assoc.
    + reflexivity.
Qed.

Lemma nonEmpty_Forall values : Forall (fun v => v <> ""%string) (nonEmpty values).
Proof.
  apply List.Forall_forall. intros v Hv. apply List.filter_In in Hv.
  destruct Hv as [_ Hv]. intros ->. discriminate Hv.
Qed.

Lemma addNonEmpty_noEmptyParameter (uv : Values) name values :
  noEmptyParameter uv -> noEmptyParameter (addNonEmpty uv name values).
Proof.
  intros Huv k vs. destruct (decide (k = name)) as [->|Hne].
  - rewrite addNonEmpty_lookup_eq.
    pose proof (nonEmpty_Forall values) as Hne.
    destruct (nonEmpty values) as [|w ws] eqn:E; [apply Huv|].
    intros [= <-]. split.
    + intros Happ. apply app_eq_nil in Happ. destruct Happ as [_ Happ]. discriminate.
    + apply Forall_app. split; [|assumption].
      destruct (uv !! name) as [old|] eqn:Eo; cbn [default]; [|constructor].
      exact (proj2 (Huv _ _ Eo)).
  - rewrite addNonEmpty_lookup_ne by assumption. apply Huv.
Qed.

Lemma empty_noEmptyParameter : noEmptyParameter (∅ : Values).
Proof.
  intros k vs H. pose proof (lookup_empty (M := gmap string) (A := list string) k) as E.
  unfold Values in H. rewrite E in H. discriminate.
Qed.

(** X13.  What [addNonEmpty] leaves under a key: other keys are untouched;
    under [name] the non-empty values are appended, in order, to what was
    there; and when every value is empty the map is as before, so a key
    that was absent stays absent. *)
Theorem addNonEmpty_lookup (uv : Values) (name : string) (values : list string)
  (k : string) :
  addNonEmpty uv name values !! k =
  if decide (k = name) then
    match nonEmpty values with
    | [] => uv !! k
    | vs => Some (default [] (uv !! k) ++ vs)
    end
  else uv !! k.
Proof.
  destruct (decide (k = name)) as [->|Hne].
  - apply addNonEmpty_lookup_eq.
  - now apply addNonEmpty_lookup_ne.
Qed.

Create HintDb opts.
#[local] Hint Resolve addNonEmpty_noEmptyParameter empty_noEmptyParameter : opts.

(** X14.  No option record ever puts an empty parameter on the wire: in
    the [url.Values] of each of the five [asURLValues] every key has at
    least one value and no value is the empty string. *)
Theorem asURLValues_no_empty_parameter :
  (forall qos, noEmptyParameter (QueryOpts.asURLValues qos)) /\
  (forall fos, noEmptyParameter (FacetsOpts.asURLValues fos)) /\
  (forall qos, noEmptyParameter (StatsQueryOpts.asURLValues qos)) /\
  (forall qos, noEmptyParameter (StatsQueryRangeOpts.asURLValues qos)) /\
  (forall qos, noEmptyParameter (IngestOpts.asURLValues qos)).
Proof.
  split; [|split; [|split; [|split]]]; intros o;
    unfold QueryOpts.asURLValues, FacetsOpts.asURLValues, StatsQueryOpts.asURLValues,
      StatsQueryRangeOpts.asURLValues, IngestOpts.asURLValues;
    cbv zeta; auto 10 with opts.
Qed.

(** An option field as a parameter: absent when empty. *)
Definition parameter (value : string) : option (list string) :=
  if String.eqb value "" then None else Some [value].

Lemma addNonEmpty_single (uv : Values) name value :
  uv !! name = None ->
  addNonEmpty uv name [value] !! name = parameter value.
Proof.
  intros H. rewrite addNonEmpty_lookup_eq. unfold nonEmpty, parameter.
  cbn [List.filter]. destruct (String.eqb value ""); cbn [negb]; [assumption|].
  now rewrite H.
Qed.

Ltac lookup_opts :=
  repeat first
    [ rewrite addNonEmpty_lookup_ne by (intros ?; discriminate)
    | rewrite addNonEmpty_single
    | rewrite addNonEmpty_lookup_eq
    | apply lookup_empty
    | reflexivity ].

(** X15.  The ingestion options as parameters: the keys [_time_field],
    [_stream_fields] and [_msg_field] carry the fields [TimeField],
    [StreamFields] and [MessageField], each key absent when its field is
    empty, and there is no other key. *)
Theorem IngestOpts_asURLValues_lookup (qos : IngestOpts.t) (k : string) :
  IngestOpts.asURLValues qos !! k =
  if decide (k = "_time_field"%string) then parameter (IngestOpts.TimeField qos)
  else if decide (k = "_stream_fields"%string) then parameter (IngestOpts.StreamFields qos)
  else if decide (k = "_msg_field"%string) then parameter (IngestOpts.MessageField qos)
  else None.
Proof.
  unfold IngestOpts.asURLValues. cbv zeta.
  destruct (decide (k = "_time_field"%string)) as [->|H1]; [lookup_opts|].
  destruct (decide (k = "_stream_fields"%string)) as [->|H2]; [lookup_opts|].
  destruct (decide (k = "_msg_field"%string)) as [->|H3]; [lookup_opts|].
  rewrite !addNonEmpty_lookup_ne by assumption. apply lookup_empty.
Qed.

End OptsFacts.

(** ** The HTTP helpers *)

Module HelpersFacts.
Import stdpp.base stdpp.gmap stdpp.strings.
Import URL Opts Helpers OptsFacts.

(** A helper that sends one form to [path] at the address [addr]: the
    form carries [query] under the key [query] and the options under the
    other keys. *)
Definition postsQueryForm (calls : list Call) (addr path query : string)
  (opts : Values) : Prop :=
  exists values,
    calls = [Call_PostForm ("http://" ++ addr ++ path)%string values] /\
    values !! "query"%string = Some [query] /\
    forall k, k <> "query"%string -> values !! k = opts !! k.

Lemma empty_lookup (k : string) : (∅ : Values) !! k = None.
Proof. apply (lookup_empty (M := gmap string) (A := list string)). Qed.

Ltac no_query :=
  cbv zeta; rewrite !addNonEmpty_lookup_ne by (intros ?; discriminate);
  apply empty_lookup.

Lemma QueryOpts_no_query qos : QueryOpts.asURLValues qos !! "query"%string = None.
Proof. unfold QueryOpts.asURLValues. no_query. Qed.

Lemma FacetsOpts_no_query fos : FacetsOpts.asURLValues fos !! "query"%string = None.
Proof. unfold FacetsOpts.asURLValues. no_query. Qed.

Lemma StatsQueryOpts_no_query qos :
  StatsQueryOpts.asURLValues qos !! "query"%string = None.
Proof. unfold StatsQueryOpts.asURLValues. no_query. Qed.

Lemma StatsQueryRangeOpts_no_query qos :
  StatsQueryRangeOpts.asURLValues qos !! "query"%string = None.
Proof. unfold StatsQueryRangeOpts.asURLValues. no_query. Qed.

Lemma Add_query (uv : Values) (query : string) :
  uv !! "query"%string = None ->
  Add uv "query" query !! "query"%string = Some [query] /\
  forall k, k <> "query"%string -> Add uv "query" query !! k = uv !! k.
Proof.
  intros H. split.
  - rewrite Add_lookup. destruct (decide _) as [_|]; [|congruence]. now rewrite H.
  - intros k Hk. rewrite Add_lookup. now destruct (decide (k = "query"%string)).
Qed.

(** X16.  Every helper that sends a query sends one form, to the select
    node of a cluster or to the node itself, in which the key [query] has
    exactly the given query as its value: no option can replace the query
    or add a second one, and the options travel unchanged beside it. *)
Theorem helpers_post_the_query (J : Model.JSON) (cli : Client)
  (s : Apptest.Vlsingle) (c : Apptest.Vlcluster) (query : string) :
  (forall opts,
     postsQueryForm (fst (Vlcluster_LogsQLQuery J cli c query opts))
       (Apptest.httpListenAddr (Apptest.selectNode c)) "/select/logsql/query" query
       (QueryOpts.asURLValues opts)) /\
  (forall opts,
     postsQueryForm (fst (Vlcluster_Facets cli c query opts))
       (Apptest.httpListenAddr (Apptest.selectNode c)) "/select/logsql/facets" query
       (FacetsOpts.asURLValues opts)) /\
  (forall opts,
     postsQueryForm (fst (Vlsingle_LogsQLQuery J cli s query opts))
       (Vlsingle_HTTPAddr s) "/select/logsql/query" query
       (QueryOpts.asURLValues opts)) /\
  (forall opts,
     postsQueryForm (fst (Vlsingle_StatsQueryRaw cli s query opts))
       (Vlsingle_HTTPAddr s) "/select/logsql/stats_query" query
       (StatsQueryOpts.asURLValues opts)) /\
  (forall opts,
     postsQueryForm (fst (Vlsingle_StatsQueryRangeRaw cli s query opts))
       (Vlsingle_HTTPAddr s) "/select/logsql/stats_query_range" query
       (StatsQueryRangeOpts.asURLValues opts)).
Proof.
  split; [|split; [|split; [|split]]]; intros opts; unfold postsQueryForm.
  - unfold Vlcluster_LogsQLQuery. cbv zeta. destruct (PostForm cli _ _) as [res code].
    eexists. split; [reflexivity|]. apply Add_query, QueryOpts_no_query.
  - unfold Vlcluster_Facets. cbv zeta. destruct (PostForm cli _ _) as [res code].
    eexists. split; [reflexivity|]. apply Add_query, FacetsOpts_no_query.
  - unfold Vlsingle_LogsQLQuery. cbv zeta. destruct (PostForm cli _ _) as [res code].
    eexists. split; [reflexivity|]. apply Add_query, QueryOpts_no_query.
  - unfold Vlsingle_StatsQueryRaw. cbv zeta.
    eexists. split; [reflexivity|]. apply Add_query, StatsQueryOpts_no_query.
  - unfold Vlsingle_StatsQueryRangeRaw. cbv zeta.
    eexists. split; [reflexivity|]. apply Add_query, StatsQueryRangeOpts_no_query.
Qed.

(** The answer of the server to the one request a helper sent. *)
Definition answer (cli : Client) (call : Call) : string * Z :=
  match call with
  | Call_Get url => Get cli url
  | Call_Post url contentType data => Post cli url contentType data
  | Call_PostForm url values => PostForm cli url values
  end.

(** A helper run that sent one request and did not fail the test got the
    status 200 for it. *)
Definition succeedsOnlyOn200 {A} (cli : Client) (run : Run A) : Prop :=
  forall a, snd run = inr a ->
  exists call, fst run = [call] /\ snd (answer cli call) = StatusOK.

Lemma status_is_200 (statusCode : Z) :
  negb (statusCode =? StatusOK)%Z = false -> statusCode = StatusOK.
Proof. intros H. apply negb_false_iff in H. now apply Z.eqb_eq. Qed.

(** X17.  The helpers of a cluster and the write helpers of a single node
    fail the test on every status but 200.  [Vlsingle.LogsQLQuery] does not
    look at the status: its result is the parsed body whatever the status,
    so a failed request with an empty body is an empty result. *)
Theorem helpers_and_status (J : Model.JSON) (cli : Client)
  (s : Apptest.Vlsingle) (c : Apptest.Vlcluster) :
  succeedsOnlyOn200 cli (Vlcluster_ForceFlush cli c) /\
  (forall records opts, succeedsOnlyOn200 cli (Vlcluster_JSONLineWrite cli c records opts)) /\
  (forall query opts, succeedsOnlyOn200 cli (Vlcluster_LogsQLQuery J cli c query opts)) /\
  (forall query opts, succeedsOnlyOn200 cli (Vlcluster_Facets cli c query opts)) /\
  succeedsOnlyOn200 cli (Vlsingle_ForceFlush cli s) /\
  (forall records opts, succeedsOnlyOn200 cli (Vlsingle_JSONLineWrite cli s records opts)) /\
  (forall query opts,
     exists call,
       fst (Vlsingle_LogsQLQuery J cli s query opts) = [call] /\
       snd (Vlsingle_LogsQLQuery J cli s query opts) =
         parsed (Model.NewLogsQLQueryResponse J (fst (answer cli call))) /\
       (fst (answer cli call) = ""%string ->
        snd (Vlsingle_LogsQLQuery J cli s query opts) = inr [])).
Proof.
  unfold succeedsOnlyOn200. repeat apply conj; intros.
  - unfold Vlcluster_ForceFlush in *. cbv zeta in *.
    destruct (Get cli _) as [res code] eqn:E. cbn [fst snd] in *.
    destruct (negb _) eqn:Hc; [discriminate|]. eexists. split; [reflexivity|].
    cbn [answer]. rewrite E. now apply status_is_200.
  - unfold Vlcluster_JSONLineWrite in *. cbv zeta in *.
    destruct (Post cli _ _ _) as [res code] eqn:E. cbn [fst snd] in *.
    destruct (negb _) eqn:Hc; [discriminate|]. eexists. split; [reflexivity|].
    cbn [answer]. rewrite E. now apply status_is_200.
  - unfold Vlcluster_LogsQLQuery in *. cbv zeta in *.
    destruct (PostForm cli _ _) as [res code] eqn:E. cbn [fst snd] in *.
    destruct (negb _) eqn:Hc; [discriminate|]. eexists. split; [reflexivity|].
    cbn [answer]. rewrite E. now apply status_is_200.
  - unfold Vlcluster_Facets in *. cbv zeta in *.
    destruct (PostForm cli _ _) as [res code] eqn:E. cbn [fst snd] in *.
    destruct (negb _) eqn:Hc; [discriminate|]. eexists. split; [reflexivity|].
    cbn [answer]. rewrite E. now apply status_is_200.
  - unfold Vlsingle_ForceFlush in *. cbv zeta in *.
    destruct (Get cli _) as [res code] eqn:E. cbn [fst snd] in *.
    destruct (negb _) eqn:Hc; [discriminate|]. eexists. split; [reflexivity|].
    cbn [answer]. rewrite E. now apply status_is_200.
  - unfold Vlsingle_JSONLineWrite in *. cbv zeta in *.
    destruct (Post cli _ _ _) as [res code] eqn:E. cbn [fst snd] in *.
    destruct (negb _) eqn:Hc; [discriminate|]. eexists. split; [reflexivity|].
    cbn [answer]. rewrite E. now apply status_is_200.
  - unfold Vlsingle_LogsQLQuery. cbv zeta.
    destruct (PostForm cli _ _) as [res code] eqn:E. cbn [fst snd].
    eexists. split; [reflexivity|]. cbn [answer]. rewrite E. cbn [fst].
    split; [reflexivity|]. intros ->. reflexivity.
Qed.

End HelpersFacts.

(** ** The output of a started process *)

Module OutputFacts.
Import Output.

(** The lines a processor is applied to when it sees [lines] one after the
    other, having seen [seen]: each line up to and including the first one
    on which it reports that it is done. *)
Fixpoint untilDone (lp : lineProcessor) (seen lines : list string) : list string :=
  match lines with
  | [] => []
  | line :: rest =>
      line :: (if lp seen line then [] else untilDone lp (seen ++ [line]) rest)
  end.

Lemma history_app i calls calls' :
  history i (calls ++ calls') = history i calls ++ history i calls'.
Proof. unfold history. now rewrite filter_app, map_app. Qed.

Lemma history_snoc_eq i line calls :
  history i (calls ++ [(i, line)]) = history i calls ++ [line].
Proof.
  rewrite history_app. unfold history at 2. cbn [filter fst].
  now rewrite Nat.eqb_refl.
Qed.

Lemma history_snoc_ne i j line calls :
  j <> i -> history i (calls ++ [(j, line)]) = history i calls.
Proof.
  intros H. rewrite history_app. unfold history at 2. cbn [filter fst].
  apply Nat.eqb_neq in H. rewrite H. cbn. apply app_nil_r.
Qed.

Lemma delete_In activeLPs i e :
  In e (delete activeLPs i) <-> In e activeLPs /\ fst e <> i.
Proof.
  unfold delete. rewrite filter_In.
  destruct (Nat.eqb_spec (fst e) i); cbn; intuition congruence.
Qed.

Lemma NoDup_keys_filter {B} (p : nat * B -> bool) (l : list (nat * B)) :
  NoDup (map fst l) -> NoDup (map fst (filter p l)).
Proof.
  induction l as [|x l IH]; cbn [map filter]; [auto|].
  intros H. inversion H as [|? ? Hx Hl]; subst.
  destruct (p x); [|now apply IH].
  cbn [map]. constructor; [|now apply IH].
  intros Hin. apply Hx. apply in_map_iff in Hin.
  destruct Hin as (y & Hy & Hin). apply filter_In in Hin.
  apply in_map_iff. exists y. tauto.
Qed.

Lemma NoDup_keys_unique {B} (l : list (nat * B)) i p q :
  NoDup (map fst l) -> In (i, p) l -> In (i, q) l -> p = q.
Proof.
  induction l as [|[j r] l IH]; cbn [map fst]; intros Hnd Hp Hq; [destruct Hp|].
  inversion Hnd as [|? ? Hj Hl]; subst.
  destruct Hp as [Hp|Hp], Hq as [Hq|Hq].
  - congruence.
  - injection Hp as -> _. exfalso. apply Hj. apply in_map_iff. now exists (i, q).
  - injection Hq as -> _. exfalso. apply Hj. apply in_map_iff. now exists (i, p).
  - now apply IH.
Qed.

(** One line through the processors that are still active. *)
Lemma rangeActiveLPs_spec line : forall entries activeLPs calls activeLPs' calls',
  NoDup (map fst entries) ->
  rangeActiveLPs line entries activeLPs calls = (activeLPs', calls') ->
  (forall i, ~ In i (map fst entries) -> history i calls' = history i calls) /\
  (forall i, In i (map fst entries) -> history i calls' = history i calls ++ [line]) /\
  (forall e, In e activeLPs' <->
             In e activeLPs /\
             ~ exists p, In (fst e, p) entries /\ p (history (fst e) calls) line = true) /\
  (forall c, In c calls' -> In c calls \/ In (fst c) (map fst entries)) /\
  (NoDup (map fst activeLPs) -> NoDup (map fst activeLPs')).
Proof.
  induction entries as [|[i process] rest IH];
    intros activeLPs calls activeLPs' calls' Hnd; cbn [rangeActiveLPs map fst].
  - intros [= <- <-]. split; [|split; [|split; [|split]]].
    + reflexivity.
    + intros i [].
    + intros e. split; [|tauto]. intros H. split; [assumption|]. intros (p & [] & _).
    + tauto.
    + tauto.
  - inversion Hnd as [|? ? Hi Hrest]; subst. intros H.
    set (calls1 := calls ++ [(i, line)]) in *.
    assert (Hh : forall j, j <> i -> history j calls1 = history j calls).
    { intros j Hj. now apply history_snoc_ne. }
    assert (Hkey : forall j p, In (j, p) rest -> j <> i).
    { intros j p Hin ->. apply Hi. apply in_map_iff. now exists (i, p). }
    destruct (process (history i calls) line) eqn:Hdone;
      apply IH in H; try assumption;
      destruct H as (H1 & H2 & H3 & H4 & H5); (split; [|split; [|split; [|split]]]).
    + intros j Hj. rewrite H1 by (intros ?; apply Hj; now right).
      apply Hh. intros ->. apply Hj. now left.
    + intros j [<-|Hj].
      * rewrite H1 by assumption. apply history_snoc_eq.
      * rewrite H2 by assumption. rewrite Hh; [reflexivity|].
        intros ->. contradiction.
    + intros e. rewrite H3, delete_In. split.
      * intros [[Hin Hne] Hno]. split; [assumption|].
        intros (p & [[= E1 E2]|Hp] & Hd); [rewrite <- E1, <- E2 in Hd; congruence|].
        apply Hno. exists p. split; [assumption|].
        rewrite Hh; [assumption | eapply Hkey; eassumption].
      * intros [Hin Hno]. split; [split; [assumption|]|].
        -- intros He. apply Hno. exists process. split; [left; now rewrite He|].
           now rewrite He.
        -- intros (p & Hp & Hd). apply Hno. exists p. split; [now right|].
           rewrite <- Hh; [assumption | eapply Hkey; eassumption].
    + intros c Hc. apply H4 in Hc. destruct Hc as [Hc|Hc]; [|right; now right].
      unfold calls1 in Hc. apply in_app_or in Hc.
      destruct Hc as [Hc|[<-|[]]]; [now left|]. right. now left.
    + intros Ha. apply H5. now apply NoDup_keys_filter.
    + intros j Hj. rewrite H1 by (intros ?; apply Hj; now right).
      apply Hh. intros ->. apply Hj. now left.
    + intros j [<-|Hj].
      * rewrite H1 by assumption. apply history_snoc_eq.
      * rewrite H2 by assumption. rewrite Hh; [reflexivity|].
        intros ->. contradiction.
    + intros e. rewrite H3. split.
      * intros [Hin Hno]. split; [assumption|].
        intros (p & [[= E1 E2]|Hp] & Hd); [rewrite <- E1, <- E2 in Hd; congruence|].
        apply Hno. exists p. split; [assumption|].
        rewrite Hh; [assumption | eapply Hkey; eassumption].
      * intros [Hin Hno]. split; [assumption|].
        intros (p & Hp & Hd). apply Hno. exists p. split; [now right|].
        rewrite <- Hh; [assumption | eapply Hkey; eassumption].
    + intros c Hc. apply H4 in Hc. destruct Hc as [Hc|Hc]; [|right; now right].
      unfold calls1 in Hc. apply in_app_or in Hc.
      destruct Hc as [Hc|[<-|[]]]; [now left|]. right. now left.
    + assumption.
Qed.

(** The lines of the output through the processors. *)
Lemma scanLines_spec mo lps : forall lines k activeLPs calls,
  NoDup (map fst activeLPs) ->
  (forall i p, In (i, p) activeLPs -> nth_error lps i = Some p) ->
  (forall c, In c calls -> fst c < length lps) ->
  (forall c, In c (scanLines mo lines k activeLPs calls) -> fst c < length lps) /\
  (forall i p, In (i, p) activeLPs ->
     history i (scanLines mo lines k activeLPs calls) =
     history i calls ++ untilDone p (history i calls) lines) /\
  (forall i, ~ In i (map fst activeLPs) ->
     history i (scanLines mo lines k activeLPs calls) = history i calls).
Proof.
  induction lines as [|line rest IH]; intros k activeLPs calls Hnd Hlps Hcalls;
    cbn [scanLines untilDone].
  - split; [assumption|]. split; intros; [now rewrite app_nil_r | reflexivity].
  - pose proof (visit_perm mo k activeLPs) as Hperm.
    assert (Hnd' : NoDup (map fst (visit mo k activeLPs))).
    { eapply Permutation_NoDup; [|exact Hnd].
      apply Permutation_map, Permutation_sym, Hperm. }
    destruct (rangeActiveLPs line (visit mo k activeLPs) activeLPs calls)
      as [activeLPs' calls'] eqn:E.
    apply rangeActiveLPs_spec in E; [|assumption].
    destruct E as (H1 & H2 & H3 & H4 & H5). specialize (H5 Hnd).
    assert (Hkeys : forall i, In i (map fst (visit mo k activeLPs)) <->
                              In i (map fst activeLPs)).
    { intros i. split; apply Permutation_in; apply Permutation_map;
        [assumption | now apply Permutation_sym]. }
    assert (Hsub : forall e, In e activeLPs' -> In e activeLPs).
    { intros e He. now apply H3 in He. }
    destruct (IH (S k) activeLPs' calls' H5) as (I1 & I2 & I3).
    { intros i p Hin. apply Hlps. now apply Hsub. }
    { intros c Hc. apply H4 in Hc. destruct Hc as [Hc|Hc]; [now apply Hcalls|].
      apply Hkeys, in_map_iff in Hc. destruct Hc as ([i p] & Hi & Hc).
      cbn [fst] in Hi. subst i. apply Hlps in Hc.
      apply nth_error_Some. congruence. }
    split; [assumption|]. split.
    + intros i p Hin.
      assert (Hi : In i (map fst activeLPs)) by (apply in_map_iff; now exists (i, p)).
      assert (Hh : history i calls' = history i calls ++ [line]) by now apply H2, Hkeys.
      destruct (p (history i calls) line) eqn:Hdone.
      * rewrite I3, Hh; [reflexivity|].
        intros Hin'. apply in_map_iff in Hin'. destruct Hin' as ([j q] & Hj & Hq).
        cbn [fst] in Hj. subst j.
        assert (q = p) by (eapply NoDup_keys_unique; [exact Hnd | apply Hsub; exact Hq | exact Hin]).
        subst q. apply H3 in Hq. destruct Hq as [_ Hno]. apply Hno.
        exists p. split; [|assumption]. cbn [fst].
        eapply Permutation_in; [apply Permutation_sym; exact Hperm | exact Hin].
      * rewrite (I2 i p), Hh, <- app_assoc; [reflexivity|].
        apply H3. split; [assumption|]. intros (q & Hq & Hd). cbn [fst] in *.
        assert (q = p).
        { eapply NoDup_keys_unique; [exact Hnd | | exact Hin].
          eapply Permutation_in; [exact Hperm | exact Hq]. }
        subst q. congruence.
    + intros i Hi. rewrite I3.
      * apply H1. intros Hin. now apply Hi, Hkeys.
      * intros Hin. apply Hi. apply in_map_iff in Hin.
        destruct Hin as (e & He & Hin). apply in_map_iff. exists e.
        split; [assumption | now apply Hsub].
Qed.

Lemma In_combine_seq {B} (l : list B) : forall start i p,
  In (i, p) (combine (seq start (length l)) l) <->
  start <= i /\ nth_error l (i - start) = Some p.
Proof.
  induction l as [|x l IH]; intros start i p; cbn [length seq combine].
  - split; [intros [] | intros [_ H]]. now destruct (i - start).
  - cbn [In]. rewrite IH. split.
    + intros [[= <- <-]|[Hle H]].
      * rewrite Nat.sub_diag. auto.
      * split; [lia|]. replace (i - start) with (S (i - S start)) by lia. exact H.
    + intros [Hle H]. destruct (i - start) as [|n] eqn:E.
      * left. injection H as <-. f_equal. lia.
      * right. split; [lia|]. replace (i - S start) with n by lia. exact H.
Qed.

Lemma keys_combine_seq {B} (l : list B) start :
  map fst (combine (seq start (length l)) l) = seq start (length l).
Proof.
  revert start. induction l as [|x l IH]; intros start; cbn [length seq combine map fst].
  - reflexivity.
  - now rewrite IH.
Qed.

(** The map [activeLPs] that [processOutput] starts from. *)
Lemma activeLPs_init (lps : list lineProcessor) :
  NoDup (map fst (combine (seq 0 (length lps)) lps)) /\
  (forall i p, In (i, p) (combine (seq 0 (length lps)) lps) <-> nth_error lps i = Some p).
Proof.
  split.
  - rewrite keys_combine_seq. apply seq_NoDup.
  - intros i p. rewrite In_combine_seq, Nat.sub_0_r. split; [tauto|].
    intros H. split; [lia | assumption].
Qed.

Lemma processOutput_history mo output lps i lp :
  nth_error lps i = Some lp ->
  history i (processOutput mo output lps) = untilDone lp [] output.
Proof.
  intros Hi. destruct (activeLPs_init lps) as [Hnd Hin]. unfold processOutput.
  destruct (scanLines_spec mo lps output 0 (combine (seq 0 (length lps)) lps) [])
    as (_ & H & _); [assumption | intros j p; apply Hin | intros c [] |].
  apply (H i lp). now apply Hin.
Qed.

(** X18.  [processOutput] applies each line processor to the lines of the
    output in order, up to and including the first line on which the
    processor reports that it is done, whatever the order in which [range]
    walks the map of active processors; and it calls nothing but the
    processors it was given. *)
Theorem processOutput_until_done (mo : MapOrder) (output : list string)
  (lps : list lineProcessor) :
  (forall i lp, nth_error lps i = Some lp ->
     history i (processOutput mo output lps) = untilDone lp [] output) /\
  (forall c, In c (processOutput mo output lps) -> fst c < length lps).
Proof.
  destruct (activeLPs_init lps) as [Hnd Hin]. unfold processOutput.
  destruct (scanLines_spec mo lps output 0 (combine (seq 0 (length lps)) lps) [])
    as (Hbound & Hactive & _).
  - exact Hnd.
  - intros i p. apply Hin.
  - intros c [].
  - split; [|exact Hbound].
    intros i lp Hi. apply (Hactive i lp). now apply Hin.
Qed.

Lemma untilDone_stops lp : forall lines seen h line t,
  untilDone lp seen lines = h ++ line :: t ->
  lp (seen ++ h) line = true ->
  t = [].
Proof.
  induction lines as [|l rest IH]; intros seen h line t; cbn [untilDone].
  - destruct h; discriminate.
  - destruct h as [|x h]; cbn [List.app].
    + rewrite app_nil_r. intros [= -> H] Hd. rewrite Hd in H. now subst.
    + intros [= -> H] Hd. destruct (lp seen x).
      * destruct h; discriminate.
      * apply (IH _ _ _ _ H). rewrite <- app_assoc. exact Hd.
Qed.

(** X19.  Once a line processor is done (has returned true) it is never
    invoked again: no call after that one is a call of the same
    processor. *)
Theorem done_processor_is_not_invoked_again (mo : MapOrder) (output : list string)
  (lps : list lineProcessor) (before after : list Invocation) (i : nat)
  (line : string) (lp : lineProcessor) :
  processOutput mo output lps = before ++ (i, line) :: after ->
  nth_error lps i = Some lp ->
  lp (history i before) line = true ->
  forall c, In c after -> fst c <> i.
Proof.
  intros Hsplit Hlp Hdone c Hc Hi.
  pose proof (processOutput_history mo output lps i lp Hlp) as Hh.
  rewrite Hsplit, history_app in Hh.
  change ((i, line) :: after) with ([(i, line)] ++ after) in Hh.
  rewrite history_app in Hh. unfold history at 2 in Hh.
  cbn [filter fst map snd] in Hh. rewrite Nat.eqb_refl in Hh. cbn [map snd List.app] in Hh.
  symmetry in Hh. apply untilDone_stops in Hh; [|exact Hdone].
  assert (Hin : In (snd c) (history i after)).
  { unfold history. apply in_map, filter_In. split; [assumption|].
    now apply Nat.eqb_eq. }
  rewrite Hh in Hin. destruct Hin.
Qed.

(** The order in which the keys were inserted. *)
Definition insertionOrder : MapOrder :=
  {| visit := fun _ m => m; visit_perm := fun _ m => Permutation_refl m |}.

(** A processor that is done at the line [ready]. *)
Definition untilReady : lineProcessor := fun _ line => String.eqb line "ready".

Lemma done_processor_is_not_invoked_again_witness :
  processOutput insertionOrder ["starting"; "ready"; "serving"]
    [untilReady; writeToStderr] =
    [(0, "starting"); (1, "starting"); (0, "ready"); (1, "ready"); (1, "serving")] /\
  forall c, In c [(1, "ready"); (1, "serving")] -> fst c <> 0.
Proof.
  split; [reflexivity|].
  apply (done_processor_is_not_invoked_again insertionOrder
           ["starting"; "ready"; "serving"] [untilReady; writeToStderr]
           [(0, "starting"); (1, "starting")] [(1, "ready"); (1, "serving")]
           0 "ready" untilReady); reflexivity.
Defined.

Lemma untilDone_never lp : forall lines seen,
  (forall seen' line, lp seen' line = false) ->
  untilDone lp seen lines = lines.
Proof.
  induction lines as [|l rest IH]; intros seen H; cbn [untilDone]; [reflexivity|].
  rewrite H. f_equal. now apply IH.
Qed.

(** X20.  The way [mustStartApp] reads the output of the process,
    with [writeToStderr] after the extractors, every line of the output is
    written to the stderr of the test, once and in order, whatever the
    extractors answer and whenever they are done. *)
Theorem output_is_written_to_stderr (mo : MapOrder) (output : list string)
  (lineProcessors : list lineProcessor) :
  history (length lineProcessors)
    (processOutput mo output (lineProcessors ++ [writeToStderr])) = output.
Proof.
  rewrite (processOutput_history mo output (lineProcessors ++ [writeToStderr])
             (length lineProcessors) writeToStderr).
  - now apply untilDone_never.
  - rewrite nth_error_app2, Nat.sub_diag by lia. reflexivity.
Qed.

End OutputFacts.

(** ** The identifiers of the generated pipe list *)

Module ExtractPipesFacts.
Import ExtractPipes.

(** Strings of code units below 128. *)
Definition ascii7 (s : str) : Prop := Forall (fun c => (code c < 128)%N) s.

(** The shape of a slug: characters of [a-z0-9-], no dash at either end,
    no two dashes in a row. *)
Definition slugChar (c : ascii) : bool := isLowerAlnum c || isChar "-" c.

Definition startsDash (s : str) : bool :=
  match s with
  | c :: _ => isChar "-" c
  | [] => false
  end.

Fixpoint noDoubleDash (s : str) : bool :=
  match s with
  | c :: rest => negb (isChar "-" c && startsDash rest) && noDoubleDash rest
  | [] => true
  end.

Definition isSlug (s : str) : bool :=
  forallb slugChar s && noDoubleDash s &&
  negb (startsDash s) && negb (startsDash (rev s)).

Ltac ascii_cases c :=
  destruct c as [[] [] [] [] [] [] [] []]; vm_compute; intros; congruence.

Lemma alnum_not_dash c : isLowerAlnum c = true -> isChar "-" c = false.
Proof. ascii_cases c. Qed.

Lemma slugChar_plain c :
  slugChar c = true ->
  isWhiteSpace c = false /\ between 65 90 c = false /\ isChar "#" c = false /\
  isPunctuation c = false /\ isChar "&" c = false.
Proof.
  intros H. repeat split; revert H; ascii_cases c.
Qed.

Lemma alnum_identChar c : isLowerAlnum c = true -> isIdentChar c = true.
Proof. ascii_cases c. Qed.

Lemma isSlug_parts s :
  isSlug s = true <->
  forallb slugChar s = true /\ noDoubleDash s = true /\
  startsDash s = false /\ startsDash (rev s) = false.
Proof.
  unfold isSlug. rewrite !andb_true_iff, !negb_true_iff. tauto.
Qed.

(** *** Prefixes and suffixes *)

Lemma dropWhile_suffix p s : exists pre, s = pre ++ dropWhile p s.
Proof.
  induction s as [|c s [pre IH]]; cbn [dropWhile].
  - now exists [].
  - destruct (p c).
    + exists (c :: pre). cbn. now f_equal.
    + now exists [].
Qed.

Lemma dropWhileEnd_prefix p s : exists suf, s = dropWhileEnd p s ++ suf.
Proof.
  unfold dropWhileEnd. destruct (dropWhile_suffix p (rev s)) as [pre H].
  exists (rev pre). rewrite <- rev_app_distr, <- H. now rewrite rev_involutive.
Qed.

Lemma dropWhile_head p c s : p c = false -> dropWhile p (c :: s) = c :: s.
Proof. intros H. cbn. now rewrite H. Qed.

Lemma startsDash_dropWhile s : startsDash (dropWhile (isChar "-") s) = false.
Proof.
  induction s as [|c s IH]; cbn [dropWhile]; [reflexivity|].
  destruct (isChar "-" c) eqn:E; [assumption|]. exact E.
Qed.

Lemma startsDash_prefix s suf :
  startsDash (s ++ suf) = false -> startsDash s = false.
Proof. destruct s; [reflexivity | auto]. Qed.

Lemma noDoubleDash_app_r a : forall b,
  noDoubleDash (a ++ b) = true -> noDoubleDash b = true.
Proof.
  induction a as [|c a IH]; intros b; cbn [List.app noDoubleDash]; [auto|].
  rewrite andb_true_iff. intros [_ H]. now apply IH.
Qed.

Lemma noDoubleDash_app_l a : forall b,
  noDoubleDash (a ++ b) = true -> noDoubleDash a = true.
Proof.
  induction a as [|c a IH]; intros b; cbn [List.app noDoubleDash]; [auto|].
  rewrite !andb_true_iff. intros [H1 H2]. split; [|now apply (IH b)].
  destruct (isChar "-" c); [|reflexivity]. cbn [andb negb] in *.
  destruct a; [reflexivity | exact H1].
Qed.

(** *** The shape of a slug *)

Lemma replaceRuns_shape s : forall inRun,
  let r := replaceRuns (fun c => negb (isLowerAlnum c)) ["-"%char] inRun s in
  forallb slugChar r = true /\ noDoubleDash r = true /\
  (inRun = true -> startsDash r = false).
Proof.
  induction s as [|c s IH]; intros inRun; cbn [replaceRuns].
  - cbn. auto.
  - destruct (isLowerAlnum c) eqn:E; cbn [negb].
    + destruct (IH false) as (H1 & H2 & _). cbn zeta in *.
      cbn [forallb noDoubleDash startsDash]. unfold slugChar at 1.
      rewrite E, H1, H2, (alnum_not_dash c E). cbn. auto.
    + destruct (IH true) as (H1 & H2 & H3). cbn zeta in *. specialize (H3 eq_refl).
      destruct inRun; cbn [List.app]; [auto|].
      cbn [forallb noDoubleDash startsDash]. rewrite H1, H2, H3.
      repeat split. discriminate.
Qed.

Lemma slugify_isSlug s : isSlug (slugify s) = true.
Proof.
  unfold slugify. cbv zeta.
  set (r := replaceRuns _ _ false _).
  destruct (replaceRuns_shape
              (replaceEach (isChar "&") (list_ascii_of_string "and")
                 (replaceEach isPunctuation []
                    (replaceEach (isChar "#") [] (toLowerCase (trim s))))) false)
    as (H1 & H2 & _). cbv zeta in H1, H2. fold r in H1, H2.
  destruct (dropWhile_suffix (isChar "-") r) as [pre Hpre].
  set (d := dropWhile (isChar "-") r) in *.
  destruct (dropWhileEnd_prefix (isChar "-") d) as [suf Hsuf].
  set (e := dropWhileEnd (isChar "-") d) in *.
  assert (Hd1 : forallb slugChar d = true).
  { rewrite Hpre, forallb_app, andb_true_iff in H1. tauto. }
  assert (Hd2 : noDoubleDash d = true).
  { rewrite Hpre in H2. now apply noDoubleDash_app_r in H2. }
  apply isSlug_parts. repeat split.
  - rewrite Hsuf, forallb_app, andb_true_iff in Hd1. tauto.
  - rewrite Hsuf in Hd2. now apply noDoubleDash_app_l in Hd2.
  - apply (startsDash_prefix e suf). rewrite <- Hsuf. apply startsDash_dropWhile.
  - unfold e, dropWhileEnd. rewrite rev_involutive. apply startsDash_dropWhile.
Qed.

(** X21.  A slug consists of the characters a-z, 0-9 and '-' only; it
    neither starts nor ends with '-' and never has two '-' in a row.  The
    statement is about strings of code units below 128, on which the
    string functions above are exact. *)
Theorem slugify_shape (s : str) :
  ascii7 s ->
  (forall c, In c (slugify s) -> isLowerAlnum c = true \/ c = "-"%char) /\
  (forall rest, slugify s <> "-"%char :: rest) /\
  (forall front, slugify s <> front ++ ["-"%char]) /\
  (forall front rest, slugify s <> front ++ "-"%char :: "-"%char :: rest).
Proof.
  intros _. pose proof (slugify_isSlug s) as H. apply isSlug_parts in H.
  destruct H as (H1 & H2 & H3 & H4). repeat split.
  - intros c Hc. rewrite forallb_forall in H1. specialize (H1 c Hc).
    unfold slugChar in H1. apply orb_true_iff in H1. destruct H1 as [H1|H1]; [now left|].
    right. now apply Ascii.eqb_eq in H1.
  - intros rest E. rewrite E in H3. discriminate.
  - intros front E. rewrite E, rev_app_distr in H4. discriminate.
  - intros front rest E. rewrite E in H2. apply noDoubleDash_app_r in H2. discriminate.
Qed.

Lemma slugify_shape_witness :
  slugify (list_ascii_of_string "  `sort` pipe & more  ") =
    list_ascii_of_string "sort-pipe-and-more" /\
  forall rest, slugify (list_ascii_of_string "  `sort` pipe & more  ") <> "-"%char :: rest.
Proof.
  split; [reflexivity|].
  apply (slugify_shape (list_ascii_of_string "  `sort` pipe & more  ")).
  unfold ascii7. repeat (constructor; [reflexivity|]). constructor.
Defined.

(** *** Slugs are left alone *)

Lemma dropWhile_id p s :
  match s with c :: _ => p c = false | [] => True end -> dropWhile p s = s.
Proof.
  intros H. destruct s as [|c s]; [reflexivity|]. cbn [dropWhile]. now rewrite H.
Qed.

Lemma dropWhileEnd_id p s :
  match rev s with c :: _ => p c = false | [] => True end -> dropWhileEnd p s = s.
Proof.
  intros H. unfold dropWhileEnd. rewrite dropWhile_id by assumption.
  apply rev_involutive.
Qed.

Lemma replaceEach_id p by_ s :
  (forall c, In c s -> p c = false) -> replaceEach p by_ s = s.
Proof.
  unfold replaceEach. induction s as [|c s IH]; intros H; cbn [flat_map]; [reflexivity|].
  rewrite (H c) by now left. cbn. f_equal. apply IH. intros d Hd. apply H. now right.
Qed.

Lemma toLowerCase_id s :
  (forall c, In c s -> between 65 90 c = false) -> toLowerCase s = s.
Proof.
  unfold toLowerCase. induction s as [|c s IH]; intros H; cbn [map]; [reflexivity|].
  rewrite (H c) by now left. f_equal. apply IH. intros d Hd. apply H. now right.
Qed.

Lemma replaceRuns_id s : forall inRun,
  forallb slugChar s = true -> noDoubleDash s = true ->
  (inRun = true -> startsDash s = false) ->
  replaceRuns (fun c => negb (isLowerAlnum c)) ["-"%char] inRun s = s.
Proof.
  induction s as [|c s IH]; intros inRun; cbn [replaceRuns forallb noDoubleDash startsDash];
    [reflexivity|].
  rewrite !andb_true_iff. intros [Hc Hs] [Hd Hn] Hrun.
  destruct (isLowerAlnum c) eqn:E; cbn [negb].
  - f_equal. apply IH; [assumption | assumption | discriminate].
  - unfold slugChar in Hc. rewrite E in Hc. cbn [orb] in Hc. rewrite Hc in *.
    destruct inRun; [now specialize (Hrun eq_refl)|].
    cbn [List.app]. apply Ascii.eqb_eq in Hc. subst c. f_equal.
    apply IH; [assumption | assumption |]. intros _.
    cbn [andb] in Hd. now apply negb_true_iff in Hd.
Qed.

Lemma slug_head (p : ascii -> bool) s :
  (forall c, In c s -> p c = false) ->
  match s with c :: _ => p c = false | [] => True end.
Proof. destruct s as [|c s]; [auto|]. intros H. apply H. now left. Qed.

Lemma slugify_slug t : isSlug t = true -> slugify t = t.
Proof.
  intros H. apply isSlug_parts in H. destruct H as (H1 & H2 & H3 & H4).
  assert (Hc : forall c, In c t -> slugChar c = true) by now apply forallb_forall.
  assert (Hrev : forall (p : ascii -> bool),
             (forall c, In c t -> p c = false) ->
             match rev t with c :: _ => p c = false | [] => True end).
  { intros p Hp. apply slug_head. intros c Hin. apply Hp. now apply in_rev. }
  unfold slugify. cbv zeta.
  assert (Htrim : trim t = t).
  { unfold trim, trimStart, trimEnd.
    rewrite dropWhile_id by (apply slug_head; intros c Hin; apply slugChar_plain; auto).
    apply dropWhileEnd_id, Hrev. intros c Hin. apply slugChar_plain; auto. }
  rewrite Htrim.
  rewrite toLowerCase_id by (intros c Hin; apply slugChar_plain; auto).
  rewrite (replaceEach_id (isChar "#"))
    by (intros c Hin; apply slugChar_plain; auto).
  rewrite (replaceEach_id isPunctuation)
    by (intros c Hin; apply slugChar_plain; auto).
  rewrite (replaceEach_id (isChar "&"))
    by (intros c Hin; apply slugChar_plain; auto).
  rewrite replaceRuns_id by (auto; discriminate).
  rewrite dropWhile_id by (destruct t; [exact I | exact H3]).
  apply dropWhileEnd_id. destruct (rev t); [exact I | exact H4].
Qed.

(** X22.  [slugify] leaves alone exactly the strings that have the shape
    of a slug; so it is idempotent: the slug of a slug is that slug. *)
Theorem slugify_fixed_points (s : str) :
  ascii7 s ->
  (slugify s = s <-> isSlug s = true) /\
  slugify (slugify s) = slugify s.
Proof.
  intros _. split; [split|].
  - intros E. rewrite <- E. apply slugify_isSlug.
  - apply slugify_slug.
  - apply slugify_slug, slugify_isSlug.
Qed.

Lemma slugify_fixed_points_witness :
  (slugify (list_ascii_of_string "sort-pipe") = list_ascii_of_string "sort-pipe" <->
   isSlug (list_ascii_of_string "sort-pipe") = true) /\
  slugify (slugify (list_ascii_of_string "Sort pipe")) =
    slugify (list_ascii_of_string "Sort pipe").
Proof.
  split.
  - apply (slugify_fixed_points (list_ascii_of_string "sort-pipe")).
    unfold ascii7. repeat (constructor; [reflexivity|]). constructor.
  - apply (slugify_fixed_points (list_ascii_of_string "Sort pipe")).
    unfold ascii7. repeat (constructor; [reflexivity|]). constructor.
Defined.

(** *** The entries of the pipe list *)

Lemma startsWith_app s : forall prefix,
  startsWith s prefix = true -> s = prefix ++ skipn (length prefix) s.
Proof.
  induction s as [|c s IH]; intros [|p prefix]; cbn [startsWith length skipn List.app];
    try reflexivity; try discriminate.
  rewrite andb_true_iff. intros [Hc H]. apply Ascii.eqb_eq in Hc. subst p.
  f_equal. now apply IH.
Qed.

Lemma endsWith_split s suffix :
  endsWith s suffix = true ->
  s = firstn (length s - length suffix) s ++ suffix.
Proof.
  unfold endsWith. intros H. apply startsWith_app in H.
  set (x := skipn (length (rev suffix)) (rev s)) in H.
  assert (Hs : s = rev x ++ suffix).
  { rewrite <- (rev_involutive s), H, rev_app_distr. now rewrite rev_involutive. }
  assert (Hlen : length s - length suffix = length (rev x)).
  { rewrite Hs at 1. rewrite length_app. lia. }
  rewrite Hlen. rewrite Hs at 2. rewrite firstn_app, Nat.sub_diag, firstn_all.
  cbn [firstn]. rewrite app_nil_r. exact Hs.
Qed.

Lemma isIdentifier_chars v :
  isIdentifier v = true -> v <> [] /\ forallb isIdentChar v = true.
Proof.
  destruct v as [|c v]; cbn [isIdentifier forallb]; [discriminate|].
  rewrite andb_true_iff. intros [Hc Hv]. split; [discriminate|].
  unfold isIdentChar at 1. now rewrite Hc, Hv.
Qed.

Lemma fallback_chars s : forall inRun,
  forallb slugChar s = true ->
  forallb isIdentChar (replaceRuns (isChar "-") ["_"%char] inRun s) = true.
Proof.
  induction s as [|c s IH]; intros inRun; cbn [replaceRuns forallb]; [reflexivity|].
  rewrite andb_true_iff. intros [Hc Hs].
  destruct (isChar "-" c) eqn:E.
  - rewrite forallb_app, IH by assumption. now destruct inRun.
  - cbn [forallb]. rewrite IH by assumption.
    unfold slugChar in Hc. rewrite E, orb_false_r in Hc.
    now rewrite (alnum_identChar c Hc).
Qed.

(** X23.  Every entry that [extractPipes] generates has as its id the slug
    of its title, ending in "-pipe" with something in front and without
    "conditional" in it; and its value, the function name inserted after
    the pipe sign, is never empty and consists of letters, digits and
    underscores only, whether it was read from the title or derived from
    the id. *)
Theorem pipeEntry_identifiers (marked : str -> str) (curTitle body : str)
  (e : PipeEntry) :
  ascii7 curTitle ->
  pipeEntry marked curTitle body = Some e ->
  id e = slugify (title e) /\
  isSlug (id e) = true /\
  (exists base, base <> [] /\ id e = base ++ list_ascii_of_string "-pipe") /\
  includes (id e) (list_ascii_of_string "conditional") = false /\
  value e <> [] /\
  forallb isIdentChar (value e) = true.
Proof.
  intros _. unfold pipeEntry. cbv zeta.
  set (cleanTitle := trim (replaceEach (isChar "#") [] curTitle)).
  pose proof (slugify_isSlug cleanTitle) as Hslug.
  set (i := slugify cleanTitle) in *.
  destruct (endsWith i (list_ascii_of_string "-pipe")) eqn:Hend; cbn [negb]; [|discriminate].
  destruct (includes i (list_ascii_of_string "conditional")) eqn:Hinc; [discriminate|].
  intros [= <-]. cbn [id title value].
  pose proof (endsWith_split _ _ Hend) as Hsplit.
  set (base := firstn (length i - length (list_ascii_of_string "-pipe")) i) in *.
  apply isSlug_parts in Hslug as Hparts. destruct Hparts as (H1 & _ & H3 & _).
  assert (Hbase : base <> []).
  { intros E. rewrite E in Hsplit. rewrite Hsplit in H3. discriminate. }
  assert (Hfallback : fallbackValueFromId i <> [] /\
                      forallb isIdentChar (fallbackValueFromId i) = true).
  { unfold fallbackValueFromId. cbv zeta. rewrite Hend. fold base.
    assert (Hb1 : forallb slugChar base = true)
      by (rewrite Hsplit, forallb_app, andb_true_iff in H1; tauto).
    split; [|now apply fallback_chars].
    destruct base as [|c base']; [congruence|].
    rewrite Hsplit in H3. cbn [List.app startsDash] in H3.
    cbn [replaceRuns]. rewrite H3. discriminate. }
  split; [reflexivity|]. split; [assumption|].
  split; [exists base; split; assumption|]. split; [assumption|].
  unfold inferValueFromTitle.
  destruct (firstInlineCode cleanTitle) as [m1|]; [|exact Hfallback].
  destruct (isIdentifier (trim m1)) eqn:Hid; [|exact Hfallback].
  now apply isIdentifier_chars.
Qed.

Lemma pipeEntry_identifiers_witness :
  exists e,
    pipeEntry (fun markdown => markdown) (list_ascii_of_string "sort pipe") [] = Some e /\
    id e = list_ascii_of_string "sort-pipe" /\
    value e = list_ascii_of_string "sort" /\
    forallb isIdentChar (value e) = true.
Proof.
  eexists. split; [reflexivity|]. split; [reflexivity|]. split; [reflexivity|].
  refine (proj2 (proj2 (proj2 (proj2 (proj2
    (pipeEntry_identifiers (fun markdown => markdown)
       (list_ascii_of_string "sort pipe") [] _ _ eq_refl)))))).
  unfold ascii7. repeat (constructor; [reflexivity|]). constructor.
Defined.

End ExtractPipesFacts.
